(** * gamecore object pools: keyed node lists, pools and the pool registry

    A shallow embedding of [src/src/linkedlist.js] (gamecore.LinkedList)
    and of [src/pooled.js] (gamecore.Pool, instance and static parts),
    followed by the properties of the specification that concern them.

    JavaScript objects live in a store and are mutated in place.  The
    embedding keeps the stores explicit:

    - a pooled object is the index of its record in the list of
      constructed objects ([objects]); it is at the same time the value
      of its [getUniqueId()];
    - the link nodes of a list are in a store of their own ([nodes]),
      a reference to a node being its key there; [objToNodeMap] is the
      Hashtable from unique ids to node references;
    - a statement runs in a state and gives a result, or the thrown
      value, together with the state as it is at that point: what was
      mutated before a [throw] stays mutated. *)

From Stdlib Require Import ZArith QArith Qround.
From stdpp Require Import gmap strings list fin_maps sorting.

Close Scope Q_scope.
Open Scope Z_scope.

(** ** Thrown values and the statement monad *)

(** References: to a pooled object, and to a link node of a list. *)
Definition oid := nat.
Bind Scope nat_scope with oid.
Definition nref := nat.
Bind Scope nat_scope with nref.

(** The values the modelled code throws.  The three strings of
    linkedlist.js and the one of pooled.js keep the data they are built
    from; [TypeError] is a property read on [null]. *)
Inductive error : Type :=
| DuplicateAdd (obj : oid) (list : nat)
    (* 'Attempting to add object: ' + obj.getUniqueId() + ' twice to list ' + this.getUniqueId() *)
| NoLast
    (* "Hmm, no last in the list -- that shouldn't happen here" *)
| NotInList
    (* "Oops, trying to move an object that isn't in the list" *)
| NoSuchPool (fullName : string)
    (* "Oops, trying to release an object of type " + fullName + " but no pool exists" *)
| TypeError.

Inductive result (A : Type) : Type :=
| Ok (a : A)
| Throw (e : error).
Arguments Ok {A} a.
Arguments Throw {A} e.

Definition M (S A : Type) : Type := S -> result A * S.

Definition ret {S A} (a : A) : M S A := fun s => (Ok a, s).

Definition throw {S A} (e : error) : M S A := fun s => (Throw e, s).

Definition bind {S A B} (m : M S A) (k : A -> M S B) : M S B :=
  fun s => match m s with
           | (Ok a, s') => k a s'
           | (Throw e, s') => (Throw e, s')
           end.

Definition gets {S A} (f : S -> A) : M S A := fun s => (Ok (f s), s).

Definition modify {S} (f : S -> S) : M S unit := fun s => (Ok tt, f s).

(** Run a statement of a component in the state that owns the component. *)
Definition zoom {S T A} (proj : S -> T) (upd : T -> S -> S) (m : M T A) : M S A :=
  fun s => let (r, t') := m (proj s) in (r, upd t' s).

Definition when_ {S} (b : bool) (m : M S unit) : M S unit :=
  if b then m else ret tt.

Declare Scope stmt_scope.
Delimit Scope stmt_scope with stmt.
Notation "'var' x ':=' m ';' k" := (bind m (fun x => k))
  (at level 10, x name, m at level 100, k at level 200,
   format "'[v' 'var'  x  ':='  m ';' '/' k ']'") : stmt_scope.
Notation "m ';;' k" := (bind m (fun _ => k))
  (at level 100, k at level 200, right associativity,
   format "'[v' m ';;' '/' k ']'") : stmt_scope.
Open Scope stmt_scope.

(** ** gamecore.LinkedListNode and gamecore.LinkedList (linkedlist.js) *)

Module LinkedNode.

Record t : Type := mk {
  obj : oid;                   (* the object reference *)
  nextLinked : option nref;    (* link to next object in the list *)
  prevLinked : option nref;    (* link to previous object in the list *)
  free : bool
}.

Definition set_obj (v : oid) (n : t) : t :=
  mk v (nextLinked n) (prevLinked n) (free n).
Definition set_nextLinked (v : option nref) (n : t) : t :=
  mk (obj n) v (prevLinked n) (free n).
Definition set_prevLinked (v : option nref) (n : t) : t :=
  mk (obj n) (nextLinked n) v (free n).
Definition set_free (v : bool) (n : t) : t :=
  mk (obj n) (nextLinked n) (prevLinked n) v.

End LinkedNode.

Module LinkedList.

Import LinkedNode.

Record t : Type := mk {
  uniqueId : nat;              (* the list's own getUniqueId() *)
  first : option nref;
  last : option nref;
  count : Z;
  objToNodeMap : gmap oid nref; (* a quick lookup list to map linked list nodes to objects *)
  nodes : gmap nref LinkedNode.t (* the LinkedNode objects this list has constructed *)
}.

Definition set_first (v : option nref) (l : t) : t :=
  mk (uniqueId l) v (last l) (count l) (objToNodeMap l) (nodes l).
Definition set_last (v : option nref) (l : t) : t :=
  mk (uniqueId l) (first l) v (count l) (objToNodeMap l) (nodes l).
Definition set_count (v : Z) (l : t) : t :=
  mk (uniqueId l) (first l) (last l) v (objToNodeMap l) (nodes l).
Definition set_objToNodeMap (v : gmap oid nref) (l : t) : t :=
  mk (uniqueId l) (first l) (last l) (count l) v (nodes l).
Definition set_nodes (v : gmap nref LinkedNode.t) (l : t) : t :=
  mk (uniqueId l) (first l) (last l) (count l) (objToNodeMap l) v.

(** The calls of [dump] (behind [showDebug], and at the start of
    [moveUp]) only write to the log and are left out.

    init: an empty list with a new Hashtable. *)
Definition init (id : nat) : t := mk id None None 0 ∅ ∅.

(** Field read [node.f] and field write [node.f = v] through a node
    reference.  References are never dangling in JavaScript; a read
    through one that is not in the store is a read on nothing. *)
Definition rd {A} (f : LinkedNode.t -> A) (node : nref) : M t A :=
  fun l => match nodes l !! node with
           | Some n => (Ok (f n), l)
           | None => (Throw TypeError, l)
           end.

Definition wr (f : LinkedNode.t -> LinkedNode.t) (node : nref) : M t unit :=
  modify (fun l => set_nodes (alter f node (nodes l)) l).

(** [new gamecore.LinkedNode()] followed by the assignment of its four
    fields: a node at a reference not in use. *)
Definition new_LinkedNode (n : LinkedNode.t) : M t nref :=
  var node := gets (fun l => fresh (dom (nodes l)));
  modify (fun l => set_nodes (<[node := n]> (nodes l)) l);;
  ret node.

(** getNode: [this.objToNodeMap.get(obj.getUniqueId())].  gamecore.Hashtable
    is not among the sources; it is taken as a finite map: [get] of a key
    that was never [put] gives [null], [put] binds the key. *)
Definition getNode (o : oid) : M t (option nref) :=
  gets (fun l => objToNodeMap l !! o).

(** addNode: a new node for [o], put in the map under [o]'s id. *)
Definition addNode (o : oid) : M t nref :=
  var node := new_LinkedNode (LinkedNode.mk o None None false);
  modify (fun l => set_objToNodeMap (<[o := node]> (objToNodeMap l)) l);;
  ret node.

Definition add (o : oid) : M t unit :=
  var node := getNode o;
  var node :=
    match node with
    | None => addNode o
    | Some node =>
        (* if the object is already in the list just throw *)
        var isfree := rd free node;
        if negb isfree
        then (var id := gets uniqueId; throw (DuplicateAdd o id))
        else
          (* reusing a node, so we clean it up *)
          wr (set_obj o) node;;
          wr (set_free false) node;;
          wr (set_nextLinked None) node;;
          wr (set_prevLinked None) node;;
          ret node
    end;
  (* append this obj to the end of the list *)
  var fst := gets first;
  match fst with
  | None =>
      modify (set_first (Some node));;
      modify (set_last (Some node));;
      wr (set_nextLinked None) node;;
      wr (set_prevLinked None) node
  | Some _ =>
      var lst := gets last;
      match lst with
      | None => throw NoLast
      | Some lst =>
          wr (set_nextLinked (Some node)) lst;;
          wr (set_prevLinked (Some lst)) node;;
          modify (set_last (Some node));;
          wr (set_nextLinked None) node
      end
  end;;
  modify (fun l => set_count (count l + 1) l).

Definition has (o : oid) : M t bool :=
  var node := getNode o;
  match node with
  | None => ret false
  | Some node => var isfree := rd free node; ret (negb isfree)
  end.

Definition moveUp (o : oid) : M t unit :=
  var c := getNode o;
  match c with
  | None => throw NotInList
  | Some c =>
      var cprev := rd prevLinked c;
      match cprev with
      | None => ret tt                       (* already first, ignore *)
      | Some b =>
          var a := rd prevLinked b;
          (* fix last *)
          var lst := gets last;
          when_ (bool_decide (lst = Some c)) (modify (set_last (Some b)));;
          var oldCNext := rd nextLinked c;
          match a with
          | Some a => wr (set_nextLinked (Some c)) a
          | None => ret tt
          end;;
          wr (set_nextLinked (Some b)) c;;
          var bprev := rd prevLinked b;
          wr (set_prevLinked bprev) c;;
          wr (set_nextLinked oldCNext) b;;
          wr (set_prevLinked (Some c)) b;;
          (* check to see if we are now first *)
          var fst := gets first;
          when_ (bool_decide (fst = Some b)) (modify (set_first (Some c)))
      end
  end.

Definition moveDown (o : oid) : M t unit :=
  var b := getNode o;
  match b with
  | None => throw NotInList
  | Some b =>
      var bnext := rd nextLinked b;
      match bnext with
      | None => ret tt                       (* already last, ignore *)
      | Some c =>
          var cobj := rd obj c;
          moveUp cobj;;
          (* check to see if we are now last *)
          var lst := gets last;
          when_ (bool_decide (lst = Some c)) (modify (set_last (Some b)))
      end
  end.

Definition remove (o : oid) : M t bool :=
  var node := getNode o;
  match node with
  | None => ret false
  | Some node =>
      var isfree := rd free node;
      if isfree then ret false
      else
        (* pull this object out and tie up the ends *)
        var nprev := rd prevLinked node;
        var nnext := rd nextLinked node;
        match nprev with
        | Some p => wr (set_nextLinked nnext) p
        | None => ret tt
        end;;
        var nprev := rd prevLinked node;
        var nnext := rd nextLinked node;
        match nnext with
        | Some n => wr (set_prevLinked nprev) n
        | None => ret tt
        end;;
        (* fix first and last *)
        var nprev := rd prevLinked node;
        var nnext := rd nextLinked node;
        when_ (bool_decide (nprev = None)) (modify (set_first nnext));;
        when_ (bool_decide (nnext = None)) (modify (set_last nprev));;
        wr (set_free true) node;;
        wr (set_prevLinked None) node;;
        wr (set_nextLinked None) node;;
        modify (fun l => set_count (count l - 1) l);;
        ret true
  end.

(** The loop of clear, [while (next != null) { next.free = true; next = next.nextLinked; }],
    with a bound on the number of iterations: [None] is a loop that has
    not ended within the bound. *)
Fixpoint clear_loop (fuel : nat) (next : option nref) (l : t) :
    option (result unit * t) :=
  match next with
  | None => Some (Ok tt, l)
  | Some node =>
      match fuel with
      | O => None
      | S fuel' =>
          match (wr (set_free true) node;; rd nextLinked node) l with
          | (Ok next', l') => clear_loop fuel' next' l'
          | (Throw e, l') => Some (Throw e, l')
          end
      end
  end.

(** clear: sweep the list and free all the nodes, then
    [this.first = null; this.count = 0]. *)
Definition clear (fuel : nat) (l : t) : option (result unit * t) :=
  match clear_loop fuel (first l) l with
  | Some (Ok _, l') => Some (Ok tt, set_count 0 (set_first None l'))
  | Some (Throw e, l') => Some (Throw e, l')
  | None => None
  end.

(** The first loop of sort,
    [while (node) { sortArray.push(node.object()); node = node.next(); }]. *)
Fixpoint toArray (fuel : nat) (node : option nref) (sortArray : list oid) (l : t) :
    option (result (list oid) * t) :=
  match node with
  | None => Some (Ok sortArray, l)
  | Some n =>
      match fuel with
      | O => None
      | S fuel' =>
          match (var o := rd obj n; var next := rd nextLinked n; ret (o, next)) l with
          | (Ok (o, next), l') => toArray fuel' next (sortArray ++ [o]) l'
          | (Throw e, l') => Some (Throw e, l')
          end
      end
  end.

(** The last loop of sort,
    [for (var i = 0; i < sortArray.length; i++) this.add(sortArray[i])]. *)
Fixpoint add_each (sortArray : list oid) : M t unit :=
  match sortArray with
  | [] => ret tt
  | o :: rest => add o;; add_each rest
  end.

(** sort.  [arraySort] stands for [sortArray.sort(compare)], the sort of
    the JavaScript array with the comparison function of the caller. *)
Definition sort (arraySort : list oid -> list oid) (fuel : nat) (l : t) :
    option (result unit * t) :=
  match toArray fuel (first l) [] l with
  | None => None
  | Some (Throw e, l') => Some (Throw e, l')
  | Some (Ok sortArray, l') =>
      match clear fuel l' with
      | None => None
      | Some (Throw e, l'') => Some (Throw e, l'')
      | Some (Ok _, l'') => Some (add_each (arraySort sortArray) l'')
      end
  end.

(** length: the number of items in the list. *)
Definition length : M t Z := gets count.

End LinkedList.

(** ** gamecore.Pooled objects and the state shared by all pools *)

Module Pooled.

(** What the pool code reads and writes of a pooled object: its class
    ([obj.Class.fullName]) and its [destroyed] flag. *)
Record t : Type := mk {
  Class_fullName : string;
  destroyed : bool
}.

Definition set_destroyed (v : bool) (o : t) : t := mk (Class_fullName o) v.

End Pooled.

(** The state outside a pool that its methods touch: the static counter
    [gamecore.Pool.totalPooled], the store of constructed pooled objects,
    and the number of lists constructed so far. *)
Record Globals : Type := mkGlobals {
  totalPooled : Z;
  objects : list Pooled.t;
  totalLists : nat
}.

Definition set_totalPooled (v : Z) (g : Globals) : Globals :=
  mkGlobals v (objects g) (totalLists g).
Definition set_objects (v : list Pooled.t) (g : Globals) : Globals :=
  mkGlobals (totalPooled g) v (totalLists g).
Definition set_totalLists (v : nat) (g : Globals) : Globals :=
  mkGlobals (totalPooled g) (objects g) v.

(** Modelled from the spec: gamecore.Base, which constructs the instances
    and gives each "a stable per-instance unique identifier", is not among
    the sources.  [new classType()] puts a record of that class, with the
    prototype's [destroyed: false], at the end of the store; its place
    there is its identity and its unique id. *)
Definition new_object (classType : string) : M Globals oid :=
  var o := gets (fun g => length (objects g));
  modify (fun g => set_objects (objects g ++ [Pooled.mk classType false]) g);;
  ret o.

(** Modelled from the spec: [new gamecore.LinkedList()]; the list is a
    gamecore.Base instance as well and takes the next list identifier. *)
Definition new_LinkedList : M Globals LinkedList.t :=
  var id := gets totalLists;
  modify (set_totalLists (S id));;
  ret (LinkedList.init id).

(** [Math.round]: the nearest integer, a half going up.  The argument is
    the fifth of an integer count, which is never half an integer, so the
    rounding of the double quotient agrees with the exact one. *)
Definition Math_round (x : Q) : Z := Qfloor (Qplus x (Qmake 1 2)).

(** ** gamecore.Pool, instance side (pooled.js) *)

Module Pool.

Record t : Type := mk {
  freeList : LinkedList.t;
  usedList : LinkedList.t;
  initialSize : Z;             (* size of the initial object pool *)
  classType : string;          (* the class of object in this pool *)
  returnObj : option oid
}.

Definition set_freeList (v : LinkedList.t) (p : t) : t :=
  mk v (usedList p) (initialSize p) (classType p) (returnObj p).
Definition set_usedList (v : LinkedList.t) (p : t) : t :=
  mk (freeList p) v (initialSize p) (classType p) (returnObj p).
Definition set_returnObj (v : option oid) (p : t) : t :=
  mk (freeList p) (usedList p) (initialSize p) (classType p) v.

(** A method of a pool runs on the pool ([this]) and on the globals. *)
Record state : Type := mkState {
  this : t;
  env : Globals
}.

Definition set_this (v : t) (s : state) : state := mkState v (env s).
Definition set_env (v : Globals) (s : state) : state := mkState (this s) v.

Definition on_freeList {A} (m : M LinkedList.t A) : M state A :=
  zoom (fun s => freeList (this s)) (fun l s => set_this (set_freeList l (this s)) s) m.
Definition on_usedList {A} (m : M LinkedList.t A) : M state A :=
  zoom (fun s => usedList (this s)) (fun l s => set_this (set_usedList l (this s)) s) m.
Definition on_env {A} (m : M Globals A) : M state A :=
  zoom env set_env m.

(** [obj.destroyed = v] *)
Definition wr_destroyed (o : oid) (v : bool) : M state unit :=
  on_env (modify (fun g => set_objects (alter (Pooled.set_destroyed v) o (objects g)) g)).

(** size: [this.freeList.count + this.usedList.count] *)
Definition size : M state Z :=
  gets (fun s => LinkedList.count (freeList (this s)) + LinkedList.count (usedList (this s))).

(** The loop of expand: [for (var i=0; i < howMany; i++) this.freeList.add(new this.classType())],
    with the number of iterations still to run. *)
Fixpoint expand_loop (n : nat) : M state unit :=
  match n with
  | O => ret tt
  | S n' =>
      var cls := gets (fun s => classType (this s));
      var o := on_env (new_object cls);
      on_freeList (LinkedList.add o);;
      expand_loop n'
  end.

Definition expand (howMany : Z) : M state unit :=
  on_env (modify (fun g => set_totalPooled (totalPooled g + howMany) g));;
  expand_loop (Z.to_nat howMany).

(** init, run by [new gamecore.Pool(classType, initial)]: the result is
    the constructed pool. *)
Definition init (classType : string) (initial : Z) : M Globals t :=
  var fl := new_LinkedList;
  var ul := new_LinkedList;
  fun g =>
    match expand initial (mkState (mk fl ul initial classType None) g) with
    | (Ok _, s) => (Ok (this s), env s)
    | (Throw e, s) => (Throw e, env s)
    end.

Definition acquire : M state oid :=
  (* check if we have anymore to give out *)
  var fst := gets (fun s => LinkedList.first (freeList (this s)));
  when_ (bool_decide (fst = None))
    (* create some more space (expand by 20%, minimum 1) *)
    (var sz := size; expand (Math_round (Qdiv (inject_Z sz) (inject_Z 5)) + 1));;
  var fst := gets (fun s => LinkedList.first (freeList (this s)));
  match fst with
  | None => throw TypeError
  | Some fst =>
      var o := on_freeList (LinkedList.rd LinkedNode.obj fst);
      modify (fun s => set_this (set_returnObj (Some o) (this s)) s);;
      on_freeList (LinkedList.remove o);;
      wr_destroyed o false;;
      on_usedList (LinkedList.add o);;
      ret o
  end.

Definition release (o : oid) : M state unit :=
  on_freeList (LinkedList.add o);;
  on_usedList (LinkedList.remove o);;
  wr_destroyed o true.

End Pool.

(** ** gamecore.Pool, static side: the registry of pools (pooled.js) *)

Module Registry.

Definition INITIAL_POOL_SIZE : Z := 1.

(** [pools] is the Hashtable from class names to Pool objects; the Pool
    objects constructed so far are in [heap], a reference to one being
    its place there. *)
Record t : Type := mk {
  pools : gmap string nat;
  heap : list Pool.t;
  env : Globals
}.

Definition set_pools (v : gmap string nat) (r : t) : t := mk v (heap r) (env r).
Definition set_heap (v : list Pool.t) (r : t) : t := mk (pools r) v (env r).
Definition set_env (v : Globals) (r : t) : t := mk (pools r) (heap r) v.

Definition empty : t := mk ∅ [] (mkGlobals 0 [] 0).

(** [new gamecore.Pool(classType, initial)] *)
Definition new_Pool (classType : string) (initial : Z) : M t nat :=
  var p := zoom env set_env (Pool.init classType initial);
  var ref := gets (fun r => length (heap r));
  modify (fun r => set_heap (heap r ++ [p]) r);;
  ret ref.

(** A call [pool.m(...)] of an instance method on a Pool reference. *)
Definition call {A} (pool : nat) (m : M Pool.state A) : M t A :=
  fun r =>
    match heap r !! pool with
    | None => (Throw TypeError, r)
    | Some p =>
        let (res, s) := m (Pool.mkState p (env r)) in
        (res, set_env (Pool.env s) (set_heap (<[pool := Pool.this s]> (heap r)) r))
    end.

Definition acquire (classType : string) : M t oid :=
  var pool := gets (fun r => pools r !! classType);
  var pool :=
    match pool with
    | Some pool => ret pool
    | None =>
        (* create a pool for this type of class *)
        var pool := new_Pool classType INITIAL_POOL_SIZE;
        modify (fun r => set_pools (<[classType := pool]> (pools r)) r);;
        ret pool
    end;
  call pool Pool.acquire.

Definition release (pooledObj : oid) : M t unit :=
  var o := gets (fun r => objects (env r) !! pooledObj);
  match o with
  | None => throw TypeError
  | Some o =>
      let fullName := Pooled.Class_fullName o in
      var pool := gets (fun r => pools r !! fullName);
      match pool with
      | None => throw (NoSuchPool fullName)
      | Some pool => call pool (Pool.release pooledObj)
      end
  end.

End Registry.

(** ** gamecore.Pooled, the base class of pooled objects (pooled.js) *)

(** The static factory [create], called on the class: [gamecore.Pool.acquire(this)]. *)
Definition Pooled_create (classType : string) : M Registry.t oid :=
  Registry.acquire classType.

(** [onRelease], which a class may override; here the one of gamecore.Pooled. *)
Definition Pooled_onRelease (this : oid) : M Registry.t unit :=
  ret tt.

(** [release], called on the object: [this.onRelease(); gamecore.Pool.release(this)]. *)
Definition Pooled_release (this : oid) : M Registry.t unit :=
  Pooled_onRelease this;;
  Registry.release this.

(** * Verification *)

(** ** The list a keyed node list represents *)

Definition head_or (l : list (oid * nref)) (n : option nref) : option nref :=
  match l with
  | [] => n
  | (_, r) :: _ => Some r
  end.

Definition last_or (l : list (oid * nref)) (p : option nref) : option nref :=
  match list.last l with
  | Some (_, r) => Some r
  | None => p
  end.

(** [dseg s p l n]: in the node store [s] the nodes of [l] (each with the
    object it stands for) are linked in this order, forwards and
    backwards; the node before the first is [p] and the node after the
    last is [n].  Each node of the segment is in use. *)
Fixpoint dseg (s : gmap nref LinkedNode.t) (p : option nref)
    (l : list (oid * nref)) (n : option nref) : Prop :=
  match l with
  | [] => True
  | (k, r) :: l' =>
      s !! r = Some (LinkedNode.mk k (head_or l' n) p false) /\
      dseg s (Some r) l' n
  end.

(** [linked L kr]: the list object [L] holds exactly the objects of [kr],
    in this order, each through the node given with it.  A node cached
    for another object is marked free and nothing is asked of its links;
    nothing is asked of [last] when the list is empty. *)
Record linked (L : LinkedList.t) (kr : list (oid * nref)) : Prop := mkLinked {
  linked_nodup : NoDup kr.*1;
  linked_map : forall k r, (k, r) ∈ kr -> LinkedList.objToNodeMap L !! k = Some r;
  linked_links : dseg (LinkedList.nodes L) None kr None;
  linked_first : LinkedList.first L = head_or kr None;
  linked_last : kr <> [] -> LinkedList.last L = last_or kr None;
  linked_count : LinkedList.count L = Z.of_nat (length kr);
  linked_cached : forall k r,
      LinkedList.objToNodeMap L !! k = Some r ->
      exists nd, LinkedList.nodes L !! r = Some nd /\ LinkedNode.obj nd = k /\
                 (k ∉ kr.*1 -> LinkedNode.free nd = true)
}.

(** [repr L l]: [L] holds the objects [l], first to last. *)
Definition repr (L : LinkedList.t) (l : list oid) : Prop :=
  exists kr, linked L kr /\ kr.*1 = l.

(** The two phases of [add], for the proofs: the node to link, and the
    linking of it at the end. *)
Definition add_node_for (o : oid) (node : option nref) : M LinkedList.t nref :=
  match node with
  | None => LinkedList.addNode o
  | Some node =>
      var isfree := LinkedList.rd LinkedNode.free node;
      if negb isfree
      then (var id := gets LinkedList.uniqueId; throw (DuplicateAdd o id))
      else
        LinkedList.wr (LinkedNode.set_obj o) node;;
        LinkedList.wr (LinkedNode.set_free false) node;;
        LinkedList.wr (LinkedNode.set_nextLinked None) node;;
        LinkedList.wr (LinkedNode.set_prevLinked None) node;;
        ret node
  end.

Definition add_link (node : nref) : M LinkedList.t unit :=
  var fst := gets LinkedList.first;
  match fst with
  | None =>
      modify (LinkedList.set_first (Some node));;
      modify (LinkedList.set_last (Some node));;
      LinkedList.wr (LinkedNode.set_nextLinked None) node;;
      LinkedList.wr (LinkedNode.set_prevLinked None) node
  | Some _ =>
      var lst := gets LinkedList.last;
      match lst with
      | None => throw NoLast
      | Some lst =>
          LinkedList.wr (LinkedNode.set_nextLinked (Some node)) lst;;
          LinkedList.wr (LinkedNode.set_prevLinked (Some lst)) node;;
          modify (LinkedList.set_last (Some node));;
          LinkedList.wr (LinkedNode.set_nextLinked None) node
      end
  end;;
  modify (fun l => LinkedList.set_count (LinkedList.count l + 1) l).

(** The part of [acquire] after the expansion, for the proofs. *)
Definition acquire_tail : M Pool.state oid :=
  var fst := gets (fun s => LinkedList.first (Pool.freeList (Pool.this s)));
  match fst with
  | None => throw TypeError
  | Some fst =>
      var o := Pool.on_freeList (LinkedList.rd LinkedNode.obj fst);
      modify (fun s => Pool.set_this (Pool.set_returnObj (Some o) (Pool.this s)) s);;
      Pool.on_freeList (LinkedList.remove o);;
      Pool.wr_destroyed o false;;
      Pool.on_usedList (LinkedList.add o);;
      ret o
  end.

(** [fseg s l n]: the forward links alone: in the node store [s] each
    node of [l] holds its object and points on to the next node of [l],
    the last one to [n]. *)
Fixpoint fseg (s : gmap nref LinkedNode.t) (l : list (oid * nref))
    (n : option nref) : Prop :=
  match l with
  | [] => True
  | (k, r) :: l' =>
      (exists nd, s !! r = Some nd /\ LinkedNode.obj nd = k /\
                  LinkedNode.nextLinked nd = head_or l' n) /\
      fseg s l' n
  end.

(** ** Well-formed pools *)

(** [pool_wf p g lf lu]: the free list of [p] holds [lf], its used list
    holds [lu], no object is on both, and every object either list has a
    node for has been constructed. *)
Record pool_wf (p : Pool.t) (g : Globals) (lf lu : list oid) : Prop := mkPoolWf {
  wf_free : repr (Pool.freeList p) lf;
  wf_used : repr (Pool.usedList p) lu;
  wf_disjoint : forall o, o ∈ lf -> o ∉ lu;
  wf_free_known : forall k,
      is_Some (LinkedList.objToNodeMap (Pool.freeList p) !! k) ->
      (k < length (objects g))%nat;
  wf_used_known : forall k,
      is_Some (LinkedList.objToNodeMap (Pool.usedList p) !! k) ->
      (k < length (objects g))%nat
}.

Definition well_formed (s : Pool.state) : Prop :=
  exists lf lu, pool_wf (Pool.this s) (Pool.env s) lf lu.

(** The number handed to [expand] by [acquire] on a pool of this size. *)
Definition growth (size : Z) : Z :=
  Math_round (Qdiv (inject_Z size) (inject_Z 5)) + 1.

(** The value of [pool.size()]. *)
Definition size_of (p : Pool.t) : Z :=
  LinkedList.count (Pool.freeList p) + LinkedList.count (Pool.usedList p).

(** The list object built by adding the objects of [l], in this order, to
    a new list. *)
Definition list_of (id : nat) (l : list oid) : LinkedList.t :=
  foldl (fun L o => snd (LinkedList.add o L)) (LinkedList.init id) l.

(** A pool as [init] leaves it before it calls [expand], in globals with
    nothing constructed but its two lists. *)
Definition blank_pool (classType : string) (initial : Z) : Pool.state :=
  Pool.mkState
    (Pool.mk (LinkedList.init 0) (LinkedList.init 1) initial classType None)
    (mkGlobals 0 [] 2).

(** The value of [list.has(obj)], a test that does not throw on a list
    whose Hashtable points at nodes. *)
Definition has_obj (L : LinkedList.t) (o : oid) : bool :=
  match fst (LinkedList.has o L) with
  | Ok b => b
  | Throw _ => false
  end.

(** The iteration of the class comment of gamecore.LinkedList,
    [node = list.first; while (node) { ... node.object() ...; node = node.next() }],
    and the same from [last] along [prev()]; [fuel] bounds the number of
    nodes visited. *)
Fixpoint walk (step : LinkedNode.t -> option nref) (s : gmap nref LinkedNode.t)
    (fuel : nat) (node : option nref) : list oid :=
  match fuel, node with
  | S fuel', Some r =>
      match s !! r with
      | Some n => LinkedNode.obj n :: walk step s fuel' (step n)
      | None => []
      end
  | _, _ => []
  end.

Definition forwards (L : LinkedList.t) : list oid :=
  walk LinkedNode.nextLinked (LinkedList.nodes L) (S (size (LinkedList.nodes L)))
    (LinkedList.first L).

Definition backwards (L : LinkedList.t) : list oid :=
  walk LinkedNode.prevLinked (LinkedList.nodes L) (S (size (LinkedList.nodes L)))
    (LinkedList.last L).

(** Two pools of Points to try things on: one whose single object is
    free, and the same after an [acquire], its object on loan. *)
Definition idle_pool : Pool.state := snd (Pool.expand 1 (blank_pool "Point" 1)).

Definition lent_pool : Pool.state := snd (Pool.acquire idle_pool).

(** The same after the [release] of that object: it is free again, with
    its [destroyed] flag set. *)
Definition recycled_pool : Pool.state := snd (Pool.release 0 lent_pool).

(** The pool of one free Point, after the application has constructed
    a second Point by hand. *)
Definition visited_pool : Pool.state :=
  snd (Pool.on_env (new_object "Point") idle_pool).

(** ** Programs over the registry *)

(** What an application does with the registry: the two static calls,
    a call of [expand] on the pool of a class, and the construction of
    an object by hand ([new classType()]). *)
Inductive op : Type :=
| Acquire (classType : string)
| Release (pooledObj : oid)
| Expand (classType : string) (howMany : Z)
| Construct (classType : string).

Definition step (x : op) : M Registry.t unit :=
  match x with
  | Acquire classType => Registry.acquire classType;; ret tt
  | Release pooledObj => Registry.release pooledObj
  | Expand classType howMany =>
      var pool := gets (fun r => Registry.pools r !! classType);
      match pool with
      | Some pool => Registry.call pool (Pool.expand howMany)
      | None => ret tt
      end
  | Construct classType =>
      zoom Registry.env Registry.set_env (new_object classType);; ret tt
  end.

(** The state after a program; a call that throws leaves the state as it
    is at the throw and the program goes on. *)
Definition run (ops : list op) (r : Registry.t) : Registry.t :=
  foldl (fun r x => snd (step x r)) r ops.

(** The counts handed to [expand] by the application are counts. *)
Definition counts_ok (x : op) : Prop :=
  match x with
  | Expand _ howMany => 0 <= howMany
  | _ => True
  end.

(** [registry_inv r]: every registered name leads to a Pool of that
    class, every Pool constructed is the one registered for its class,
    and every Pool is well formed. *)
Record registry_inv (r : Registry.t) : Prop := mkRegistryInv {
  inv_registered : forall cls ref,
      Registry.pools r !! cls = Some ref ->
      exists p, Registry.heap r !! ref = Some p /\ Pool.classType p = cls;
  inv_constructed : forall ref p,
      Registry.heap r !! ref = Some p ->
      Registry.pools r !! Pool.classType p = Some ref;
  inv_wf : forall ref p,
      Registry.heap r !! ref = Some p ->
      well_formed (Pool.mkState p (Registry.env r))
}.

(** ** The classes of pooled objects *)

(** The class of a constructed object, [obj.Class.fullName]. *)
Definition class_of (objs : list Pooled.t) (o : oid) : option string :=
  Pooled.Class_fullName <$> objs !! o.

(** [pool_typed p g]: the pool [p] is well formed and the objects on its
    two lists are of its class. *)
Definition pool_typed (p : Pool.t) (g : Globals) : Prop :=
  exists lf lu,
    pool_wf p g lf lu /\
    forall o, o ∈ lf ++ lu -> class_of (objects g) o = Some (Pool.classType p).

(** [objs_ext objs objs']: the store [objs'] has the objects of [objs],
    each of the class it had, and maybe more. *)
Definition objs_ext (objs objs' : list Pooled.t) : Prop :=
  (length objs <= length objs')%nat /\
  forall o, (o < length objs)%nat -> class_of objs' o = class_of objs o.

(** [registry_typed r]: the registry is in order and every Pool holds
    objects of its class only. *)
Record registry_typed (r : Registry.t) : Prop := mkRegistryTyped {
  typed_inv : registry_inv r;
  typed_pools : forall ref p,
      Registry.heap r !! ref = Some p -> pool_typed p (Registry.env r)
}.

(** Whether one of the two lists of the Pool at [ref] has [o]. *)
Definition on_lists (r : Registry.t) (ref : nat) (o : oid) : bool :=
  match Registry.heap r !! ref with
  | Some p => has_obj (Pool.freeList p) o || has_obj (Pool.usedList p) o
  | None => false
  end.

(** The number of objects a program constructs by hand. *)
Fixpoint constructs (ops : list op) : nat :=
  match ops with
  | [] => 0
  | Construct _ :: ops' => S (constructs ops')
  | _ :: ops' => constructs ops'
  end.

(** Unfolding of the statement combinators. *)
Ltac munfold :=
  cbv [bind ret throw gets modify zoom when_
       LinkedList.rd LinkedList.wr LinkedList.getNode LinkedList.addNode
       LinkedList.new_LinkedNode];
  cbn [LinkedList.uniqueId LinkedList.first LinkedList.last LinkedList.count
       LinkedList.objToNodeMap LinkedList.nodes
       LinkedList.set_first LinkedList.set_last LinkedList.set_count
       LinkedList.set_objToNodeMap LinkedList.set_nodes
       LinkedNode.obj LinkedNode.nextLinked LinkedNode.prevLinked LinkedNode.free
       LinkedNode.set_obj LinkedNode.set_nextLinked LinkedNode.set_prevLinked
       LinkedNode.set_free negb fst snd fmap option_fmap option_map].

(** Lookups in a store after a run of writes. *)
Ltac mlookup :=
  repeat first
    [ rewrite lookup_alter_eq
    | rewrite lookup_insert_eq
    | rewrite lookup_alter_ne by congruence
    | rewrite lookup_insert_ne by congruence ].

(** Membership in a list of nodes given by appends and conses. *)
Ltac in_list :=
  rewrite ?fmap_app, ?fmap_cons; cbn [fmap list_fmap fst snd];
  rewrite ?elem_of_app, ?elem_of_cons; auto 6.

(** Running a statement on a state whose lookups are known: [H] gives
    the node under the reference that is read. *)
Ltac mrun H :=
  repeat progress
    (munfold; mlookup; rewrite ?H;
     rewrite ?bool_decide_eq_true_2 by done;
     rewrite ?bool_decide_eq_false_2 by done).

Lemma add_unfold (o : oid) :
  LinkedList.add o =
  (var node := LinkedList.getNode o;
   var node := add_node_for o node;
   add_link node).
Proof. reflexivity. Qed.

Section Dseg.

Implicit Types (s : gmap nref LinkedNode.t) (l : list (oid * nref))
  (p n : option nref).

Lemma head_or_app l1 l2 n : head_or (l1 ++ l2) n = head_or l1 (head_or l2 n).
Proof. by destruct l1. Qed.

Lemma last_or_cons k r l p : last_or ((k, r) :: l) p = last_or l (Some r).
Proof. unfold last_or. rewrite last_cons. by destruct (list.last l). Qed.

Lemma last_or_snoc l k r p : last_or (l ++ [(k, r)]) p = Some r.
Proof. unfold last_or. by rewrite last_snoc. Qed.

Lemma last_or_cons_any k r l p p' :
  last_or ((k, r) :: l) p = last_or ((k, r) :: l) p'.
Proof. unfold last_or. rewrite last_cons. by destruct (list.last l). Qed.

Lemma dseg_ext s s' p l n :
  (forall r, r ∈ l.*2 -> s' !! r = s !! r) -> dseg s p l n -> dseg s' p l n.
Proof.
  revert p. induction l as [|[k r] l IH]; intros p Hext; [done|].
  cbn. intros [Hk Hl]. split.
  - rewrite Hext; [done|]. left.
  - apply IH; [|done]. intros k' Hk'. apply Hext. by right.
Qed.

Lemma dseg_lookup s p l n k r :
  dseg s p l n -> (k, r) ∈ l ->
  exists nd, s !! r = Some nd /\ LinkedNode.obj nd = k /\ LinkedNode.free nd = false.
Proof.
  revert p. induction l as [|[k' r'] l IH]; intros p Hd Hin.
  - by apply elem_of_nil in Hin.
  - destruct Hd as [Hk Hl]. apply elem_of_cons in Hin as [[= -> ->]|Hin].
    + eexists. split; [exact Hk|]. done.
    + by eapply IH.
Qed.

Lemma dseg_lookup_ref s p l n r :
  dseg s p l n -> r ∈ l.*2 ->
  exists nd, s !! r = Some nd /\ LinkedNode.obj nd ∈ l.*1 /\ LinkedNode.free nd = false.
Proof.
  intros Hd Hin. apply list_elem_of_fmap in Hin as ([k r'] & -> & Hin).
  destruct (dseg_lookup _ _ _ _ _ _ Hd Hin) as (nd & ? & ? & ?).
  exists nd. split_and!; [done| |done].
  apply list_elem_of_fmap. by exists (k, r').
Qed.

Lemma dseg_app s p l1 l2 n :
  dseg s p (l1 ++ l2) n <->
  dseg s p l1 (head_or l2 n) /\ dseg s (last_or l1 p) l2 n.
Proof.
  revert p. induction l1 as [|[k r] l1 IH]; intros p.
  - cbn. tauto.
  - cbn [app dseg]. rewrite IH, head_or_app, last_or_cons. tauto.
Qed.

(** The nodes of a segment are pairwise distinct when its objects are. *)
Lemma dseg_nodup_refs s p l n : dseg s p l n -> NoDup l.*1 -> NoDup l.*2.
Proof.
  revert p. induction l as [|[k r] l IH]; intros p Hd Hnd; [constructor|].
  destruct Hd as [Hr Hl]. cbn in *. apply NoDup_cons in Hnd as [Hk Hnd].
  apply NoDup_cons. split; [|by eapply IH].
  intros Hin. destruct (dseg_lookup_ref _ _ _ _ _ Hl Hin) as (nd & Hnd' & Hobj & _).
  rewrite Hr in Hnd'. injection Hnd' as <-. by cbn in Hobj.
Qed.

(** Redirecting the forward link of the last node of a segment. *)
Lemma dseg_snoc_next s s' p l k t n n' :
  dseg s p (l ++ [(k, t)]) n ->
  (forall r, r ∈ l.*2 -> s' !! r = s !! r) ->
  s' !! t = LinkedNode.set_nextLinked n' <$> s !! t ->
  dseg s' p (l ++ [(k, t)]) n'.
Proof.
  intros Hd Hext Ht. apply dseg_app in Hd as [Hl [Hlast _]].
  apply dseg_app. split.
  - by apply (dseg_ext s).
  - cbn. split; [|done]. rewrite Ht, Hlast. done.
Qed.

(** Redirecting the backward link of the first node of a segment. *)
Lemma dseg_cons_prev s s' p p' k h l n :
  dseg s p ((k, h) :: l) n ->
  (forall r, r ∈ l.*2 -> s' !! r = s !! r) ->
  s' !! h = LinkedNode.set_prevLinked p' <$> s !! h ->
  dseg s' p' ((k, h) :: l) n.
Proof.
  intros [Hh Hl] Hext Ht. split.
  - rewrite Ht, Hh. done.
  - by apply (dseg_ext s).
Qed.

End Dseg.

(** ** [add] on a represented list *)

Section Add.

Implicit Types (L : LinkedList.t) (kr : list (oid * nref)).

(** Linking a clean node that is not in the list yet puts it at the
    end; only that node and the old last one are written. *)
Lemma add_link_spec L kr o r :
  NoDup kr.*2 ->
  dseg (LinkedList.nodes L) None kr None ->
  LinkedList.first L = head_or kr None ->
  (kr <> [] -> LinkedList.last L = last_or kr None) ->
  r ∉ kr.*2 ->
  LinkedList.nodes L !! r = Some (LinkedNode.mk o None None false) ->
  exists L',
    add_link r L = (Ok tt, L') /\
    dseg (LinkedList.nodes L') None (kr ++ [(o, r)]) None /\
    LinkedList.first L' = head_or (kr ++ [(o, r)]) None /\
    LinkedList.last L' = Some r /\
    LinkedList.count L' = LinkedList.count L + 1 /\
    LinkedList.objToNodeMap L' = LinkedList.objToNodeMap L /\
    LinkedList.uniqueId L' = LinkedList.uniqueId L /\
    LinkedList.nodes L' !! r =
      Some (LinkedNode.mk o None (last_or kr None) false) /\
    (forall r', r' ∉ kr.*2 -> r' <> r ->
                LinkedList.nodes L' !! r' = LinkedList.nodes L !! r') /\
    dom (LinkedList.nodes L') = dom (LinkedList.nodes L).
Proof.
  intros Hrefs Hlinks Hfirst Hlast Hr Hnode.
  destruct L as [id f la c mp s]; cbn in *.
  destruct (list.last kr) as [[kt t]|] eqn:Et.
  - apply last_Some in Et as [kr' ->].
    rewrite last_or_snoc in Hlast. specialize (Hlast ltac:(by destruct kr')).
    subst la.
    assert (Hf : exists f', f = Some f')
      by (rewrite Hfirst; destruct kr' as [|[]]; cbn; eauto).
    destruct Hf as [f' Hf].
    assert (r <> t) by (intros Heq; subst r; apply Hr; rewrite fmap_app; in_list).
    eexists. split.
    { unfold add_link. munfold. rewrite Hf. munfold. reflexivity. }
    cbn. split_and!; try done.
    + apply dseg_app. split.
      * cbn. eapply dseg_snoc_next; [exact Hlinks| |].
        -- intros r' Hr'.
           assert (r <> r') by (intros Heq; subst r'; apply Hr; rewrite fmap_app; in_list).
           assert (t <> r').
           { intros Heq; subst r'. rewrite fmap_app in Hrefs.
             apply NoDup_app in Hrefs as (_ & Hd & _). apply (Hd t); in_list. }
           by mlookup.
        -- by mlookup.
      * rewrite last_or_snoc. cbn. split; [|done]. mlookup. by rewrite Hnode.
    + destruct kr' as [|[]]; cbn in *; congruence.
    + mlookup. rewrite Hnode. by rewrite last_or_snoc.
    + intros r' Hr' Hne.
      assert (t <> r') by (intros Heq; subst r'; apply Hr'; rewrite fmap_app; in_list).
      by mlookup.
    + by rewrite !dom_alter_L.
  - apply last_None in Et. subst kr. cbn in Hfirst. subst f.
    eexists. split.
    { unfold add_link. munfold. reflexivity. }
    cbn. split_and!; try done.
    + mlookup. by rewrite Hnode.
    + mlookup. by rewrite Hnode.
    + intros r' _ Hne. by mlookup.
    + by rewrite !dom_alter_L.
Qed.

Lemma linked_refs_nodup L kr : linked L kr -> NoDup kr.*2.
Proof. intros H. eapply dseg_nodup_refs; [apply H|apply H]. Qed.

Lemma linked_member L kr k r :
  linked L kr -> (k, r) ∈ kr ->
  LinkedList.objToNodeMap L !! k = Some r /\
  exists nd, LinkedList.nodes L !! r = Some nd /\ LinkedNode.obj nd = k /\
             LinkedNode.free nd = false.
Proof.
  intros H Hin. split; [by apply H|].
  eapply dseg_lookup; [apply H|done].
Qed.

(** The Hashtable never gives one node to two objects. *)
Lemma linked_map_inj L kr k k' r :
  linked L kr ->
  LinkedList.objToNodeMap L !! k = Some r ->
  LinkedList.objToNodeMap L !! k' = Some r -> k = k'.
Proof.
  intros H Hk Hk'.
  destruct (linked_cached _ _ H _ _ Hk) as (nd & Hnd & <- & _).
  destruct (linked_cached _ _ H _ _ Hk') as (nd' & Hnd' & <- & _).
  congruence.
Qed.

Lemma linked_key_elem L kr k :
  linked L kr -> k ∈ kr.*1 ->
  exists r, (k, r) ∈ kr /\ LinkedList.objToNodeMap L !! k = Some r.
Proof.
  intros H Hin. apply list_elem_of_fmap in Hin as ([k' r] & -> & Hin).
  exists r. split; [done|]. by apply H.
Qed.

Lemma linked_ref_elem L kr r :
  linked L kr -> r ∈ kr.*2 ->
  exists k, (k, r) ∈ kr /\ LinkedList.objToNodeMap L !! k = Some r.
Proof.
  intros H Hin. apply list_elem_of_fmap in Hin as ([k r'] & -> & Hin).
  exists k. split; [done|]. by apply H.
Qed.

(** The frame of an append: what has to hold of the new list object
    for it to be linked with one more node at the end. *)
Lemma linked_snoc L L' kr o r :
  linked L kr ->
  o ∉ kr.*1 -> r ∉ kr.*2 ->
  LinkedList.objToNodeMap L' !! o = Some r ->
  (forall k, k <> o -> LinkedList.objToNodeMap L' !! k = LinkedList.objToNodeMap L !! k) ->
  (forall k, k <> o -> LinkedList.objToNodeMap L !! k <> Some r) ->
  dseg (LinkedList.nodes L') None (kr ++ [(o, r)]) None ->
  LinkedList.first L' = head_or (kr ++ [(o, r)]) None ->
  LinkedList.last L' = Some r ->
  LinkedList.count L' = LinkedList.count L + 1 ->
  (forall r', r' ∉ kr.*2 -> r' <> r ->
              LinkedList.nodes L' !! r' = LinkedList.nodes L !! r') ->
  linked L' (kr ++ [(o, r)]).
Proof.
  intros H Ho Hr Hmo Hmap Halias Hlinks Hfirst Hlast Hcount Hframe.
  split.
  - rewrite fmap_app. apply NoDup_app. split_and!; [apply H| |apply NoDup_singleton].
    cbn. intros k Hk Hk'. apply list_elem_of_singleton in Hk'. by subst.
  - intros k r' Hin. apply elem_of_app in Hin as [Hin|Hin].
    + assert (k <> o).
      { intros ->. apply Ho. apply list_elem_of_fmap. by exists (o, r'). }
      rewrite Hmap by done. by apply H.
    + apply list_elem_of_singleton in Hin. by injection Hin as -> ->.
  - done.
  - done.
  - intros _. by rewrite last_or_snoc.
  - rewrite Hcount, (linked_count _ _ H), length_app. cbn. lia.
  - intros k r' Hk.
    destruct (decide (k = o)) as [->|Hne].
    + rewrite Hmo in Hk. injection Hk as <-.
      destruct (dseg_lookup _ _ _ _ o r Hlinks) as (nd & Hnd & Hobj & Hfr).
      { apply elem_of_app. right. by apply list_elem_of_singleton. }
      exists nd. split_and!; [done..|].
      intros Hnin. exfalso. apply Hnin. rewrite fmap_app. apply elem_of_app.
      right. by apply list_elem_of_singleton.
    + rewrite Hmap in Hk by done.
      assert (r' <> r) by (intros ->; by apply (Halias k)).
      destruct (decide (r' ∈ kr.*2)) as [Hin|Hnin].
      * destruct (linked_ref_elem _ _ _ H Hin) as (k' & Hin' & Hk').
        assert (k' = k) as -> by (by eapply linked_map_inj).
        destruct (dseg_lookup _ _ _ _ k r' Hlinks) as (nd & Hnd & Hobj & Hfr).
        { apply elem_of_app. by left. }
        exists nd. split_and!; [done..|].
        intros Hn. exfalso. apply Hn. rewrite fmap_app. apply elem_of_app. left.
        apply list_elem_of_fmap. by exists (k, r').
      * rewrite Hframe by done.
        destruct (linked_cached _ _ H _ _ Hk) as (nd & Hnd & Hobj & Hfr).
        exists nd. split_and!; [done..|].
        intros Hn. apply Hfr. intros Hin. apply Hn. rewrite fmap_app.
        apply elem_of_app. by left.
Qed.

(** An object without a cached node gets a new node, at the end. *)
Lemma add_new L kr o :
  linked L kr ->
  LinkedList.objToNodeMap L !! o = None ->
  exists L',
    LinkedList.add o L = (Ok tt, L') /\
    linked L' (kr ++ [(o, fresh (dom (LinkedList.nodes L)))]) /\
    LinkedList.objToNodeMap L' =
      <[o := fresh (dom (LinkedList.nodes L))]> (LinkedList.objToNodeMap L) /\
    LinkedList.uniqueId L' = LinkedList.uniqueId L.
Proof.
  intros H Hmo. set (r := fresh (dom (LinkedList.nodes L))).
  assert (Hr : LinkedList.nodes L !! r = None)
    by (apply not_elem_of_dom, is_fresh).
  assert (Hrn : r ∉ kr.*2).
  { intros Hin. destruct (linked_ref_elem _ _ _ H Hin) as (k & Hin' & _).
    destruct (linked_member _ _ _ _ H Hin') as (_ & nd & Hnd & _). congruence. }
  assert (Hon : o ∉ kr.*1).
  { intros Hin. destruct (linked_key_elem _ _ _ H Hin) as (r' & _ & Hk). congruence. }
  pose (L0 := LinkedList.set_objToNodeMap (<[o := r]> (LinkedList.objToNodeMap L))
                (LinkedList.set_nodes
                   (<[r := LinkedNode.mk o None None false]> (LinkedList.nodes L)) L)).
  destruct (add_link_spec L0 kr o r) as (L' & Hrun & Hl & Hf & Hla & Hc & Hm & Hid & Hnr & Hfr & Hdom).
  - by eapply linked_refs_nodup.
  - destruct L; cbn. eapply dseg_ext; [|apply H]. cbn.
    intros r' Hr'. apply lookup_insert_ne. by intros ->.
  - destruct L; cbn. apply H.
  - destruct L; cbn. apply H.
  - done.
  - destruct L; cbn. apply lookup_insert_eq.
  - exists L'. split_and!.
    + rewrite add_unfold. unfold add_node_for. munfold. rewrite Hmo. munfold.
      fold r. exact Hrun.
    + eapply (linked_snoc L); try done.
      * rewrite Hm. destruct L; cbn. apply lookup_insert_eq.
      * intros k Hk. rewrite Hm. destruct L; cbn. by apply lookup_insert_ne.
      * intros k _ Hk.
        destruct (linked_cached _ _ H _ _ Hk) as (nd & Hnd & _). congruence.
      * intros r' Hr' Hne. rewrite Hfr by done. destruct L; cbn.
        by apply lookup_insert_ne.
    + rewrite Hm. by destruct L.
    + rewrite Hid. by destruct L.
Qed.

(** An object whose cached node is free gets that node back, cleaned
    up, at the end; no node is constructed. *)
Lemma add_reuse L kr o r nd :
  linked L kr ->
  LinkedList.objToNodeMap L !! o = Some r ->
  LinkedList.nodes L !! r = Some nd ->
  LinkedNode.free nd = true ->
  exists L',
    LinkedList.add o L = (Ok tt, L') /\
    linked L' (kr ++ [(o, r)]) /\
    LinkedList.objToNodeMap L' = LinkedList.objToNodeMap L /\
    LinkedList.uniqueId L' = LinkedList.uniqueId L /\
    dom (LinkedList.nodes L') = dom (LinkedList.nodes L).
Proof.
  intros H Hmo Hnd Hfree.
  assert (Hrn : r ∉ kr.*2).
  { intros Hin. destruct (linked_ref_elem _ _ _ H Hin) as (k & Hin' & _).
    destruct (linked_member _ _ _ _ H Hin') as (_ & nd' & Hnd' & _ & Hf). congruence. }
  assert (Hon : o ∉ kr.*1).
  { intros Hin. destruct (linked_key_elem _ _ _ H Hin) as (r' & Hin' & Hk).
    apply Hrn. apply list_elem_of_fmap. exists (o, r'). split; [|done]. cbn. congruence. }
  pose (s0 := alter (LinkedNode.set_prevLinked None) r
                (alter (LinkedNode.set_nextLinked None) r
                   (alter (LinkedNode.set_free false) r
                      (alter (LinkedNode.set_obj o) r (LinkedList.nodes L))))).
  pose (L0 := LinkedList.set_nodes s0 L).
  destruct (add_link_spec L0 kr o r)
    as (L' & Hrun & Hl & Hf & Hla & Hc & Hm & Hid & Hnr & Hfr & Hdom).
  - by eapply linked_refs_nodup.
  - destruct L; cbn. eapply dseg_ext; [|apply H]. cbn.
    intros r' Hr'. assert (r <> r') by (by intros ->). unfold s0. by mlookup.
  - destruct L; cbn. apply H.
  - destruct L; cbn. apply H.
  - done.
  - destruct L; cbn in *. unfold s0. mlookup. rewrite Hnd. done.
  - exists L'. split_and!.
    + rewrite add_unfold. unfold add_node_for. munfold. rewrite Hmo. munfold.
      rewrite Hnd, Hfree. munfold. exact Hrun.
    + eapply (linked_snoc L); try done.
      * rewrite Hm. by destruct L.
      * intros k Hk. rewrite Hm. by destruct L.
      * intros k Hk Hk'. apply Hk. by eapply linked_map_inj.
      * intros r' Hr' Hne. rewrite Hfr by done. destruct L; cbn.
        unfold s0. by mlookup.
    + rewrite Hm. by destruct L.
    + rewrite Hid. by destruct L.
    + rewrite Hdom. destruct L; cbn. unfold s0. by rewrite !dom_alter_L.
Qed.

(** An object whose cached node is in use is refused, with nothing
    written. *)
Lemma add_dup L o r nd :
  LinkedList.objToNodeMap L !! o = Some r ->
  LinkedList.nodes L !! r = Some nd ->
  LinkedNode.free nd = false ->
  LinkedList.add o L = (Throw (DuplicateAdd o (LinkedList.uniqueId L)), L).
Proof.
  intros Hmo Hnd Hfree. rewrite add_unfold. unfold add_node_for. munfold.
  rewrite Hmo. munfold. rewrite Hnd, Hfree. munfold. done.
Qed.

End Add.

(** ** [remove] and [has] on a represented list *)

Section Remove.

Implicit Types (L : LinkedList.t) (kr : list (oid * nref)).

(** An object without a node, or with a free node, is not removed and
    nothing is written. *)
Lemma remove_none L o :
  LinkedList.objToNodeMap L !! o = None ->
  LinkedList.remove o L = (Ok false, L).
Proof. intros Hmo. unfold LinkedList.remove. munfold. by rewrite Hmo. Qed.

Lemma remove_free L o r nd :
  LinkedList.objToNodeMap L !! o = Some r ->
  LinkedList.nodes L !! r = Some nd ->
  LinkedNode.free nd = true ->
  LinkedList.remove o L = (Ok false, L).
Proof.
  intros Hmo Hnd Hfree. unfold LinkedList.remove. munfold.
  rewrite Hmo. munfold. rewrite Hnd, Hfree. done.
Qed.

Lemma has_none L o :
  LinkedList.objToNodeMap L !! o = None -> LinkedList.has o L = (Ok false, L).
Proof. intros Hmo. unfold LinkedList.has. munfold. by rewrite Hmo. Qed.

Lemma has_some L o r nd :
  LinkedList.objToNodeMap L !! o = Some r ->
  LinkedList.nodes L !! r = Some nd ->
  LinkedList.has o L = (Ok (negb (LinkedNode.free nd)), L).
Proof.
  intros Hmo Hnd. unfold LinkedList.has. munfold. rewrite Hmo. munfold.
  by rewrite Hnd.
Qed.

(** The frame of an unlinking: what has to hold of the new list object
    for it to be linked without the node taken out. *)
Lemma linked_unlink L L' kr1 o r kr2 :
  linked L (kr1 ++ (o, r) :: kr2) ->
  LinkedList.objToNodeMap L' = LinkedList.objToNodeMap L ->
  dseg (LinkedList.nodes L') None (kr1 ++ kr2) None ->
  LinkedList.first L' = head_or (kr1 ++ kr2) None ->
  LinkedList.last L' = last_or (kr1 ++ kr2) None ->
  LinkedList.count L' = LinkedList.count L - 1 ->
  LinkedList.nodes L' !! r = Some (LinkedNode.mk o None None true) ->
  (forall r', r' ∉ (kr1 ++ (o, r) :: kr2).*2 ->
              LinkedList.nodes L' !! r' = LinkedList.nodes L !! r') ->
  linked L' (kr1 ++ kr2).
Proof.
  intros H Hm Hlinks Hfirst Hlast Hcount Hnode Hframe.
  pose proof (linked_nodup _ _ H) as Hkeys.
  rewrite fmap_app, fmap_cons in Hkeys. cbn [fst] in Hkeys.
  apply NoDup_app in Hkeys as (Hk1 & Hk12 & Hk2).
  apply NoDup_cons in Hk2 as [Ho2 Hk2].
  assert (Hsub : forall x, x ∈ kr1 ++ kr2 -> x ∈ kr1 ++ (o, r) :: kr2).
  { intros x Hx. apply elem_of_app in Hx as [?|?]; apply elem_of_app;
      [by left|right; by right]. }
  split.
  - rewrite fmap_app. apply NoDup_app. split_and!; [done| |done].
    intros k Hin1 Hin2. apply (Hk12 k Hin1). by right.
  - intros k r' Hin. rewrite Hm. apply H. by apply Hsub.
  - done.
  - done.
  - done.
  - rewrite Hcount, (linked_count _ _ H), !length_app. cbn. lia.
  - intros k r' Hk. rewrite Hm in Hk.
    destruct (decide (k = o)) as [->|Hne].
    { assert (r' = r) as ->.
      { assert (LinkedList.objToNodeMap L !! o = Some r); [|congruence].
        apply H. apply elem_of_app. right. left. }
      eexists. split_and!; [exact Hnode|done|done]. }
    destruct (decide (k ∈ (kr1 ++ kr2).*1)) as [Hin|Hnin].
    { apply list_elem_of_fmap in Hin as ([k' r''] & -> & Hin). cbn in *.
      assert (r'' = r') as ->.
      { assert (LinkedList.objToNodeMap L !! k' = Some r''); [|congruence].
        apply H. by apply Hsub. }
      destruct (dseg_lookup _ _ _ _ _ _ Hlinks Hin) as (nd & Hnd & Hobj & Hfr).
      exists nd. split_and!; [done..|].
      intros Hn. exfalso. apply Hn. apply list_elem_of_fmap. by exists (k', r'). }
    assert (Hold : k ∉ (kr1 ++ (o, r) :: kr2).*1).
    { intros Hin. apply Hnin. rewrite fmap_app, fmap_cons in Hin. cbn in Hin.
      rewrite fmap_app. apply elem_of_app in Hin as [?|Hin]; apply elem_of_app;
        [by left|right]. by apply elem_of_cons in Hin as [?|?]. }
    assert (Hr' : r' ∉ (kr1 ++ (o, r) :: kr2).*2).
    { intros Hin. destruct (linked_ref_elem _ _ _ H Hin) as (k' & Hin' & Hk').
      assert (k' = k) as -> by (by eapply linked_map_inj).
      apply Hold. apply list_elem_of_fmap. by exists (k, r'). }
    rewrite (Hframe _ Hr').
    destruct (linked_cached _ _ H _ _ Hk) as (nd & Hnd & Hobj & Hfr).
    exists nd. split_and!; [done..|]. intros _. by apply Hfr.
Qed.

(** The node of a member is taken out from between its neighbours. *)
Lemma remove_member L kr1 o r kr2 :
  linked L (kr1 ++ (o, r) :: kr2) ->
  exists L',
    LinkedList.remove o L = (Ok true, L') /\
    linked L' (kr1 ++ kr2) /\
    LinkedList.objToNodeMap L' = LinkedList.objToNodeMap L /\
    LinkedList.uniqueId L' = LinkedList.uniqueId L /\
    LinkedList.last L' = last_or (kr1 ++ kr2) None /\
    LinkedList.nodes L' !! r = Some (LinkedNode.mk o None None true) /\
    dom (LinkedList.nodes L') = dom (LinkedList.nodes L).
Proof.
  intros H.
  pose proof (linked_refs_nodup _ _ H) as Hrefs.
  pose proof (linked_links _ _ H) as Hlinks.
  pose proof (linked_first _ _ H) as Hfirst.
  pose proof (linked_last _ _ H ltac:(by destruct kr1)) as Hlast.
  assert (Hmo : LinkedList.objToNodeMap L !! o = Some r).
  { apply H. apply elem_of_app. right. left. }
  apply dseg_app in Hlinks as [Hl1 [Hr Hl2]]. cbn [head_or] in Hl1.
  assert (Hframe0 : forall r', r' ∉ (kr1 ++ (o, r) :: kr2).*2 -> r' <> r).
  { intros r' Hn ->. apply Hn. rewrite fmap_app, fmap_cons. in_list. }
  rewrite fmap_app, fmap_cons in Hrefs. cbn [snd] in Hrefs.
  apply NoDup_app in Hrefs as (Hrefs1 & Hrefs12 & Hrefs2).
  apply NoDup_cons in Hrefs2 as [Hr2 Hrefs2].
  assert (Hr1 : r ∉ kr1.*2) by (intros Hin; apply (Hrefs12 r Hin); left).
  assert (Hdisj : forall r', r' ∈ kr1.*2 -> r' ∉ kr2.*2).
  { intros r' H1 H2. apply (Hrefs12 r' H1). by right. }
  rewrite head_or_app in Hfirst. cbn [head_or] in Hfirst.
  assert (Hlast' : LinkedList.last L = last_or kr2 (Some r)).
  { rewrite Hlast. unfold last_or. rewrite last_app, last_cons.
    by destruct (list.last kr2). }
  clear Hlast.
  assert (Hlast2 : last_or (kr1 ++ kr2) None = last_or kr2 (last_or kr1 None)).
  { unfold last_or. rewrite last_app. by destruct (list.last kr2). }
  (* the neighbour before *)
  assert (Hprev :
    (kr1 = [] /\ last_or kr1 None = None) \/
    (exists kr1' kp p, kr1 = kr1' ++ [(kp, p)] /\ last_or kr1 None = Some p /\
                       p <> r /\ (p ∉ kr2.*2) /\ (p ∉ kr1'.*2) /\ (r ∉ kr1'.*2))).
  { destruct (list.last kr1) as [[kp p]|] eqn:E.
    - right. apply last_Some in E as [kr1' ->]. exists kr1', kp, p.
      rewrite last_or_snoc. rewrite fmap_app in Hr1, Hrefs1.
      apply NoDup_app in Hrefs1 as (_ & Hd & _).
      split_and!; try done.
      + intros ->. apply Hr1. in_list.
      + apply Hdisj. rewrite fmap_app. in_list.
      + intros Hin. apply (Hd p Hin). in_list.
      + intros Hin. apply Hr1. in_list.
    - left. apply last_None in E. by subst. }
  (* the neighbour after *)
  assert (Hnext :
    (kr2 = [] /\ head_or kr2 None = None) \/
    (exists kn n kr2', kr2 = (kn, n) :: kr2' /\ head_or kr2 None = Some n /\
                       n <> r /\ (n ∉ kr1.*2) /\ (n ∉ kr2'.*2) /\ (r ∉ kr2'.*2))).
  { destruct kr2 as [|[kn n] kr2']; [by left|right].
    exists kn, n, kr2'. cbn in *. apply NoDup_cons in Hrefs2 as [? _].
    split_and!; try done.
    - intros ->. apply Hr2. left.
    - intros Hin. apply (Hdisj n Hin). left.
    - intros Hin. apply Hr2. by right. }
  destruct L as [id f la c mp s]; cbn in *.
  destruct Hprev as [[-> Hp]|(kr1' & kp & p & -> & Hp & Hpr & Hp2 & Hp1 & Hrp)];
  destruct Hnext as [[-> Hn]|(kn & n & kr2' & -> & Hn & Hnr & Hn1 & Hn2 & Hrn)];
    rewrite ?Hp, ?Hn in Hr; cbn [head_or] in Hr.
  - (* the only node *)
    eexists. split.
    { unfold LinkedList.remove. munfold. rewrite Hmo. mrun Hr. reflexivity. }
    cbn. split_and!; try done;
      try (by mlookup; rewrite Hr); try (by rewrite !dom_alter_L).
    eapply (linked_unlink _ _ []); [exact H|try done..]; cbn.
    + by mlookup; rewrite Hr.
    + intros r' Hr'. assert (r <> r') by (intros ->; apply Hr'; left). by mlookup.
  - (* the first node *)
    eexists. split.
    { unfold LinkedList.remove. munfold. rewrite Hmo. mrun Hr. reflexivity. }
    cbn. split_and!; try done;
      try (by mlookup; rewrite Hr); try (by rewrite !dom_alter_L);
      try (rewrite Hlast'; apply last_or_cons_any).
    eapply (linked_unlink _ _ []); [exact H|try done..]; cbn.
    + eapply dseg_cons_prev; [exact Hl2| |].
      * intros r' Hr'. assert (r <> r') by (by intros ->).
        assert (n <> r') by (by intros ->). by mlookup.
      * by mlookup.
    + rewrite Hlast'. apply last_or_cons_any.
    + by mlookup; rewrite Hr.
    + intros r' Hr'. apply not_elem_of_cons in Hr' as [? Hr'].
      apply not_elem_of_cons in Hr' as [? Hr']. by mlookup.
  - (* the last node *)
    cbn in Hlast'. rewrite app_nil_r in *.
    eexists. split.
    { unfold LinkedList.remove. munfold. rewrite Hmo. mrun Hr. reflexivity. }
    cbn. split_and!; try done;
      try (by mlookup; rewrite Hr); try (by rewrite !dom_alter_L);
      try (by rewrite last_or_snoc).
    rewrite <- (app_nil_r (kr1' ++ [(kp, p)])).
    eapply linked_unlink; [exact H|try done..]; cbn; rewrite ?app_nil_r.
    + eapply dseg_snoc_next; [exact Hl1| |].
      * intros r' Hr'. assert (r <> r') by (by intros ->).
        assert (p <> r') by (by intros ->). by mlookup.
      * by mlookup.
    + rewrite Hfirst, !head_or_app. by destruct kr1' as [|[]].
    + by rewrite last_or_snoc.
    + by mlookup; rewrite Hr.
    + intros r' Hr'. rewrite !fmap_app in Hr'. cbn in Hr'.
      assert (r <> r') by (intros ->; apply Hr'; in_list).
      assert (p <> r') by (intros ->; apply Hr'; in_list).
      by mlookup.
  - (* a node in the middle *)
    assert (p <> n).
    { intros ->. apply Hn1. rewrite fmap_app. in_list. }
    eexists. split.
    { unfold LinkedList.remove. munfold. rewrite Hmo. mrun Hr. reflexivity. }
    cbn. split_and!; try done;
      try (by mlookup; rewrite Hr); try (by rewrite !dom_alter_L);
      try (rewrite Hlast', Hlast2; apply last_or_cons_any).
    eapply linked_unlink; [exact H|try done..]; cbn.
    + apply dseg_app. split.
      * cbn. eapply dseg_snoc_next; [exact Hl1| |].
        -- intros r' Hr'. assert (r <> r') by (by intros ->).
           assert (p <> r') by (by intros ->).
           assert (n <> r').
           { intros ->. apply Hn1. rewrite fmap_app. in_list. }
           by mlookup.
        -- by mlookup.
      * rewrite last_or_snoc. eapply dseg_cons_prev; [exact Hl2| |].
        -- intros r' Hr'. assert (r <> r') by (by intros ->).
           assert (n <> r') by (by intros ->).
           assert (p <> r') by (intros ->; apply Hp2; by right).
           by mlookup.
        -- by mlookup.
    + rewrite Hfirst. rewrite head_or_app. by destruct kr1' as [|[]].
    + rewrite Hlast', Hlast2. apply last_or_cons_any.
    + by mlookup; rewrite Hr.
    + intros r' Hr'. rewrite !fmap_app in Hr'. cbn in Hr'.
      assert (r <> r') by (intros ->; apply Hr'; in_list).
      assert (p <> r') by (intros ->; apply Hr'; in_list).
      assert (n <> r') by (intros ->; apply Hr'; in_list).
      by mlookup.
Qed.

End Remove.

(** ** The lists behind [repr] *)

Section Repr.

Implicit Types (L : LinkedList.t) (l : list oid).

Lemma repr_init id : repr (LinkedList.init id) [].
Proof.
  exists []. split; [|done]. split; try done.
  - constructor.
  - intros k r Hk. by apply elem_of_nil in Hk.
Qed.

Lemma repr_member L l o :
  repr L l -> o ∈ l ->
  exists r nd, LinkedList.objToNodeMap L !! o = Some r /\
               LinkedList.nodes L !! r = Some nd /\
               LinkedNode.obj nd = o /\ LinkedNode.free nd = false.
Proof.
  intros (kr & H & <-) Hin.
  destruct (linked_key_elem _ _ _ H Hin) as (r & Hin' & Hk).
  destruct (linked_member _ _ _ _ H Hin') as (_ & nd & ? & ? & ?).
  by exists r, nd.
Qed.

Lemma repr_nonmember L l o r :
  repr L l -> o ∉ l -> LinkedList.objToNodeMap L !! o = Some r ->
  exists nd, LinkedList.nodes L !! r = Some nd /\ LinkedNode.free nd = true.
Proof.
  intros (kr & H & <-) Hin Hk.
  destruct (linked_cached _ _ H _ _ Hk) as (nd & ? & ? & Hf).
  exists nd. split; [done|]. by apply Hf.
Qed.

Lemma repr_count L l : repr L l -> LinkedList.count L = Z.of_nat (length l).
Proof.
  intros (kr & H & <-). rewrite (linked_count _ _ H). by rewrite length_fmap.
Qed.

Lemma repr_nodup L l : repr L l -> NoDup l.
Proof. intros (kr & H & <-). apply H. Qed.

Lemma repr_first_nil L : repr L [] -> LinkedList.first L = None.
Proof.
  intros (kr & H & Hl). apply fmap_nil_inv in Hl. subst.
  by rewrite (linked_first _ _ H).
Qed.

Lemma repr_first_none L l : repr L l -> LinkedList.first L = None -> l = [].
Proof.
  intros (kr & H & <-) Hf. rewrite (linked_first _ _ H) in Hf.
  by destruct kr as [|[]].
Qed.

(** The first node holds the first object. *)
Lemma repr_first_cons L o l :
  repr L (o :: l) ->
  exists r nd, LinkedList.first L = Some r /\ LinkedList.nodes L !! r = Some nd /\
               LinkedNode.obj nd = o.
Proof.
  intros (kr & H & Hl). destruct kr as [|[k r] kr]; [done|].
  injection Hl as -> Hl. exists r. pose proof (linked_links _ _ H) as [Hr _].
  eexists. split_and!; [apply H|exact Hr|done].
Qed.

(** An object that is not in the list goes to its end. *)
Lemma add_repr L l o :
  repr L l -> o ∉ l ->
  exists L',
    LinkedList.add o L = (Ok tt, L') /\
    repr L' (l ++ [o]) /\
    LinkedList.uniqueId L' = LinkedList.uniqueId L /\
    (forall k, is_Some (LinkedList.objToNodeMap L' !! k) <->
               k = o \/ is_Some (LinkedList.objToNodeMap L !! k)).
Proof.
  intros (kr & H & <-) Ho.
  destruct (LinkedList.objToNodeMap L !! o) as [r|] eqn:Hmo.
  - destruct (linked_cached _ _ H _ _ Hmo) as (nd & Hnd & _ & Hfree).
    destruct (add_reuse L kr o r nd H Hmo Hnd (Hfree Ho))
      as (L' & Hrun & HL' & Hm & Hid & _).
    exists L'. split_and!; [done| |done|].
    + exists (kr ++ [(o, r)]). split; [done|]. by rewrite fmap_app.
    + intros k. rewrite Hm. split; [by right|]. intros [->|?]; [by eexists|done].
  - destruct (add_new L kr o H Hmo) as (L' & Hrun & HL' & Hm & Hid).
    exists L'. split_and!; [done| |done|].
    + eexists. split; [done|]. by rewrite fmap_app.
    + intros k. rewrite Hm. rewrite lookup_insert_is_Some. split.
      * intros [->|[_ ?]]; [by left|by right].
      * intros [->|?]; [by left|]. destruct (decide (o = k)); [by left|by right].
Qed.

(** An object that is in the list is refused. *)
Lemma add_repr_dup L l o :
  repr L l -> o ∈ l ->
  LinkedList.add o L = (Throw (DuplicateAdd o (LinkedList.uniqueId L)), L).
Proof.
  intros HL Hin. destruct (repr_member _ _ _ HL Hin) as (r & nd & ? & ? & _ & ?).
  by eapply add_dup.
Qed.

(** An object that is in the list is taken out. *)
Lemma remove_repr L l1 o l2 :
  repr L (l1 ++ o :: l2) ->
  exists L',
    LinkedList.remove o L = (Ok true, L') /\
    repr L' (l1 ++ l2) /\
    LinkedList.uniqueId L' = LinkedList.uniqueId L /\
    LinkedList.objToNodeMap L' = LinkedList.objToNodeMap L.
Proof.
  intros (kr & H & Hl).
  apply fmap_app_inv in Hl as (kr1 & kr2' & Hl1 & Hl2 & ->).
  destruct kr2' as [|[o' r] kr2]; [done|]. cbn in Hl2. injection Hl2 as -> ->.
  subst l1.
  destruct (remove_member _ _ _ _ _ H) as (L' & Hrun & HL' & Hm & Hid & _).
  exists L'. split_and!; [done| |done|done].
  exists (kr1 ++ kr2). split; [done|]. by rewrite fmap_app.
Qed.

(** An object that is not in the list is not removed. *)
Lemma remove_repr_absent L l o :
  repr L l -> o ∉ l -> LinkedList.remove o L = (Ok false, L).
Proof.
  intros HL Ho. destruct (LinkedList.objToNodeMap L !! o) as [r|] eqn:Hmo.
  - destruct (repr_nonmember _ _ _ _ HL Ho Hmo) as (nd & ? & ?).
    by eapply remove_free.
  - by apply remove_none.
Qed.

(** [has] tells whether the object is in the list. *)
Lemma has_repr L l o :
  repr L l -> LinkedList.has o L = (Ok (bool_decide (o ∈ l)), L).
Proof.
  intros HL. destruct (decide (o ∈ l)) as [Hin|Hin].
  - destruct (repr_member _ _ _ HL Hin) as (r & nd & Hm & Hnd & _ & Hf).
    rewrite (has_some _ _ _ _ Hm Hnd), Hf. by rewrite bool_decide_eq_true_2.
  - rewrite bool_decide_eq_false_2 by done.
    destruct (LinkedList.objToNodeMap L !! o) as [r|] eqn:Hm.
    + destruct (repr_nonmember _ _ _ _ HL Hin Hm) as (nd & Hnd & Hf).
      by rewrite (has_some _ _ _ _ Hm Hnd), Hf.
    + by apply has_none.
Qed.

Lemma has_obj_repr L l o : repr L l -> has_obj L o = bool_decide (o ∈ l).
Proof. intros HL. unfold has_obj. by rewrite (has_repr _ _ _ HL). Qed.

Lemma list_of_repr id l : NoDup l -> repr (list_of id l) l.
Proof.
  induction l as [|o l IH] using rev_ind; intros Hnd.
  - apply repr_init.
  - apply NoDup_app in Hnd as (Hl & Hd & _).
    assert (Ho : o ∉ l) by (intros Hin; apply (Hd o Hin); left).
    destruct (add_repr _ _ _ (IH Hl) Ho) as (L' & Hadd & HL' & _).
    unfold list_of in *. rewrite foldl_snoc, Hadd. exact HL'.
Qed.

End Repr.

(** ** The pool *)

Ltac punfold :=
  cbv [Pool.on_freeList Pool.on_usedList Pool.on_env Pool.wr_destroyed Pool.size
       new_object new_LinkedList bind ret throw gets modify zoom when_];
  cbn [Pool.this Pool.env Pool.freeList Pool.usedList Pool.initialSize
       Pool.classType Pool.returnObj Pool.set_this Pool.set_env
       Pool.set_freeList Pool.set_usedList Pool.set_returnObj
       totalPooled objects totalLists set_totalPooled set_objects set_totalLists
       fst snd].

(** Projections of a pool state that is given as a record. *)
Tactic Notation "pcbn" :=
  cbn [Pool.this Pool.env Pool.freeList Pool.usedList Pool.returnObj
       Pool.initialSize Pool.classType Pool.set_freeList Pool.set_usedList
       Pool.set_returnObj totalPooled objects totalLists
       set_totalPooled set_objects set_totalLists].
Tactic Notation "pcbn" "in" hyp(H) :=
  cbn [Pool.this Pool.env Pool.freeList Pool.usedList Pool.returnObj
       Pool.initialSize Pool.classType Pool.set_freeList Pool.set_usedList
       Pool.set_returnObj totalPooled objects totalLists
       set_totalPooled set_objects set_totalLists] in H.

Section PoolFacts.

Implicit Types (p : Pool.t) (g : Globals) (lf lu : list oid).

Lemma Math_round_fifth (s : Z) :
  Math_round (Qdiv (inject_Z s) (inject_Z 5)) = (2 * s + 5) / 10.
Proof.
  unfold Math_round, Qdiv, Qinv, Qmult, Qplus, Qfloor, inject_Z. cbn.
  f_equal. lia.
Qed.

Lemma growth_eq (s : Z) : growth s = (2 * s + 5) / 10 + 1.
Proof. unfold growth. by rewrite Math_round_fifth. Qed.

Lemma growth_pos (s : Z) : 0 <= s -> 1 <= growth s.
Proof.
  intros Hs. rewrite growth_eq.
  assert (0 <= (2 * s + 5) / 10) by (apply Z.div_pos; lia). lia.
Qed.

Lemma size_of_wf p g lf lu :
  pool_wf p g lf lu -> size_of p = Z.of_nat (length lf + length lu).
Proof.
  intros H. unfold size_of.
  rewrite (repr_count _ _ (wf_free _ _ _ _ H)), (repr_count _ _ (wf_used _ _ _ _ H)).
  lia.
Qed.

Lemma acquire_unfold :
  Pool.acquire =
  (var fst := gets (fun s => LinkedList.first (Pool.freeList (Pool.this s)));
   when_ (bool_decide (fst = None))
     (var sz := Pool.size; Pool.expand (growth sz));;
   acquire_tail).
Proof. reflexivity. Qed.

(** Objects in a list of a well-formed pool have been constructed. *)
Lemma wf_free_lt p g lf lu (o : oid) :
  pool_wf p g lf lu -> o ∈ lf -> (o < length (objects g))%nat.
Proof.
  intros H Hin. apply (wf_free_known _ _ _ _ H).
  destruct (repr_member _ _ _ (wf_free _ _ _ _ H) Hin) as (r & _ & Hm & _).
  by exists r.
Qed.

Lemma wf_used_lt p g lf lu (o : oid) :
  pool_wf p g lf lu -> o ∈ lu -> (o < length (objects g))%nat.
Proof.
  intros H Hin. apply (wf_used_known _ _ _ _ H).
  destruct (repr_member _ _ _ (wf_used _ _ _ _ H) Hin) as (r & _ & Hm & _).
  by exists r.
Qed.

(** Constructing objects elsewhere does not disturb a pool. *)
Lemma pool_wf_mono p g g' lf lu :
  pool_wf p g lf lu -> (length (objects g) <= length (objects g'))%nat ->
  pool_wf p g' lf lu.
Proof.
  intros [] Hle. split; try done.
  - intros k Hk. specialize (wf_free_known0 k Hk). lia.
  - intros k Hk. specialize (wf_used_known0 k Hk). lia.
Qed.

(** The loop of [expand] constructs [n] objects and puts them, in the
    order of construction, at the end of the free list. *)
Lemma expand_loop_spec n : forall p g lf lu,
  pool_wf p g lf lu ->
  exists fl',
    Pool.expand_loop n (Pool.mkState p g) =
      (Ok tt,
       Pool.mkState (Pool.set_freeList fl' p)
         (set_objects (objects g ++ replicate n (Pooled.mk (Pool.classType p) false)) g)) /\
    LinkedList.uniqueId fl' = LinkedList.uniqueId (Pool.freeList p) /\
    pool_wf (Pool.set_freeList fl' p)
      (set_objects (objects g ++ replicate n (Pooled.mk (Pool.classType p) false)) g)
      (lf ++ seq (length (objects g)) n) lu.
Proof.
  induction n as [|n IH]; intros p g lf lu H.
  - exists (Pool.freeList p). cbn. rewrite !app_nil_r.
    destruct p, g; cbn. split_and!; [done..|].
    destruct H; by split.
  - set (o := length (objects g)).
    assert (Ho : o ∉ lf).
    { intros Hin. pose proof (wf_free_lt _ _ _ _ _ H Hin). lia. }
    assert (Hou : o ∉ lu).
    { intros Hin. pose proof (wf_used_lt _ _ _ _ _ H Hin). lia. }
    destruct (add_repr _ _ _ (wf_free _ _ _ _ H) Ho) as (fl1 & Hadd & Hrepr & Hid & Hdom).
    set (g1 := set_objects (objects g ++ [Pooled.mk (Pool.classType p) false]) g).
    assert (H1 : pool_wf (Pool.set_freeList fl1 p) g1 (lf ++ [o]) lu).
    { destruct H. destruct p, g; cbn in *. split; cbn; try done.
      - intros x Hx. apply elem_of_app in Hx as [Hx|Hx]; [by apply wf_disjoint0|].
        apply list_elem_of_singleton in Hx. by subst.
      - intros k Hk. rewrite length_app. cbn. apply Hdom in Hk as [->|Hk].
        + unfold o. cbn. lia.
        + specialize (wf_free_known0 k Hk). lia.
      - intros k Hk. rewrite length_app. specialize (wf_used_known0 k Hk). lia. }
    destruct (IH _ _ _ _ H1) as (fl' & Hrun & Hid' & Hwf).
    exists fl'.
    assert (Hobjs : objects g1 ++ replicate n (Pooled.mk (Pool.classType p) false) =
                    objects g ++ replicate (S n) (Pooled.mk (Pool.classType p) false)).
    { destruct g; cbn. by rewrite <- app_assoc. }
    assert (Hseq : (lf ++ [o]) ++ seq (length (objects g1)) n =
                   lf ++ seq (length (objects g)) (S n)).
    { rewrite <- app_assoc. cbn. do 3 f_equal. destruct g; cbn.
      rewrite length_app. cbn. lia. }
    split_and!.
    + cbn [Pool.expand_loop]. punfold. fold o. rewrite Hadd.
      transitivity (Pool.expand_loop n (Pool.mkState (Pool.set_freeList fl1 p) g1));
        [reflexivity|].
      rewrite Hrun. destruct p, g; cbn in *. by rewrite Hobjs.
    + destruct p; cbn in *. congruence.
    + destruct p, g; cbn in *. rewrite <- Hobjs, <- Hseq. exact Hwf.
Qed.

(** [expand] adds its argument to the counter and runs the loop. *)
Lemma expand_spec (howMany : Z) p g lf lu :
  pool_wf p g lf lu ->
  exists fl',
    let g' := set_totalPooled (totalPooled g + howMany)
                (set_objects
                   (objects g ++
                    replicate (Z.to_nat howMany) (Pooled.mk (Pool.classType p) false)) g) in
    Pool.expand howMany (Pool.mkState p g) =
      (Ok tt, Pool.mkState (Pool.set_freeList fl' p) g') /\
    LinkedList.uniqueId fl' = LinkedList.uniqueId (Pool.freeList p) /\
    pool_wf (Pool.set_freeList fl' p) g'
      (lf ++ seq (length (objects g)) (Z.to_nat howMany)) lu.
Proof.
  intros H.
  pose (g0 := set_totalPooled (totalPooled g + howMany) g).
  assert (H0 : pool_wf p g0 lf lu) by (eapply pool_wf_mono; [exact H|by destruct g]).
  destruct (expand_loop_spec (Z.to_nat howMany) _ _ _ _ H0) as (fl' & Hrun & Hid & Hwf).
  exists fl'. cbn zeta. split_and!; [|done|].
  - unfold Pool.expand. punfold.
    transitivity (Pool.expand_loop (Z.to_nat howMany) (Pool.mkState p g0));
      [reflexivity|].
    rewrite Hrun. by destruct g.
  - destruct g; exact Hwf.
Qed.

(** With an object at the head of the free list, the rest of
    [acquire] moves that object to the end of the used list. *)
Lemma acquire_tail_spec p g o lf lu :
  pool_wf p g (o :: lf) lu ->
  exists fl' ul',
    let p' := Pool.mk fl' ul' (Pool.initialSize p) (Pool.classType p) (Some o) in
    let g' := set_objects (alter (Pooled.set_destroyed false) o (objects g)) g in
    acquire_tail (Pool.mkState p g) = (Ok o, Pool.mkState p' g') /\
    LinkedList.uniqueId fl' = LinkedList.uniqueId (Pool.freeList p) /\
    LinkedList.uniqueId ul' = LinkedList.uniqueId (Pool.usedList p) /\
    pool_wf p' g' lf (lu ++ [o]).
Proof.
  intros H.
  destruct (repr_first_cons _ _ _ (wf_free _ _ _ _ H)) as (r & nd & Hf & Hnd & Hobj).
  destruct (remove_repr _ [] o lf (wf_free _ _ _ _ H)) as (fl' & Hrem & Hfl & Hidf & Hmf).
  assert (Hou : o ∉ lu) by (apply (wf_disjoint _ _ _ _ H); left).
  destruct (add_repr _ _ _ (wf_used _ _ _ _ H) Hou) as (ul' & Hadd & Hul & Hidu & Hmu).
  exists fl', ul'. cbn zeta. split_and!; [|done|done|].
  - unfold acquire_tail. punfold. rewrite Hf. punfold.
    unfold LinkedList.rd. rewrite Hnd, Hobj. punfold. rewrite Hrem. punfold.
    rewrite Hadd. by destruct p.
  - pose proof (repr_nodup _ _ (wf_free _ _ _ _ H)) as Hnd'.
    apply NoDup_cons in Hnd' as [Hol _].
    destruct H. split; cbn; try done.
    + intros x Hx Hx'. apply elem_of_app in Hx' as [Hx'|Hx'].
      * apply (wf_disjoint0 x); [by right|done].
      * apply list_elem_of_singleton in Hx'. by subst.
    + intros k Hk. rewrite length_alter. apply wf_free_known0. by rewrite <- Hmf.
    + intros k Hk. rewrite length_alter. apply Hmu in Hk as [->|Hk].
      * apply wf_free_known0. rewrite <- Hmf.
        destruct (repr_member _ _ o wf_free0) as (r' & _ & Hr' & _); [left|].
        rewrite Hmf. by exists r'.
      * by apply wf_used_known0.
Qed.

(** Releasing an object that is on loan moves it to the end of the
    free list. *)
Lemma release_used p g (o : oid) lf lu1 lu2 :
  pool_wf p g lf (lu1 ++ o :: lu2) ->
  exists fl' ul',
    let p' := Pool.mk fl' ul' (Pool.initialSize p) (Pool.classType p) (Pool.returnObj p) in
    let g' := set_objects (alter (Pooled.set_destroyed true) o (objects g)) g in
    Pool.release o (Pool.mkState p g) = (Ok tt, Pool.mkState p' g') /\
    LinkedList.uniqueId fl' = LinkedList.uniqueId (Pool.freeList p) /\
    LinkedList.uniqueId ul' = LinkedList.uniqueId (Pool.usedList p) /\
    pool_wf p' g' (lf ++ [o]) (lu1 ++ lu2).
Proof.
  intros H.
  assert (Hin : o ∈ lu1 ++ o :: lu2) by (apply elem_of_app; right; left).
  assert (Hof : o ∉ lf) by (intros Hx; by apply (wf_disjoint _ _ _ _ H o)).
  destruct (add_repr _ _ _ (wf_free _ _ _ _ H) Hof) as (fl' & Hadd & Hfl & Hidf & Hmf).
  destruct (remove_repr _ _ _ _ (wf_used _ _ _ _ H)) as (ul' & Hrem & Hul & Hidu & Hmu).
  exists fl', ul'. cbn zeta. split_and!; [|done|done|].
  - unfold Pool.release. punfold. rewrite Hadd. punfold. rewrite Hrem.
    by destruct p.
  - pose proof (repr_nodup _ _ (wf_used _ _ _ _ H)) as Hnd.
    apply NoDup_app in Hnd as (_ & Hd & Hnd). apply NoDup_cons in Hnd as [Ho2 _].
    pose proof (wf_used_lt _ _ _ _ _ H Hin) as Hlt.
    destruct H. split; cbn; try done.
    + intros x Hx Hx'. apply elem_of_app in Hx as [Hx|Hx].
      * apply (wf_disjoint0 x Hx). apply elem_of_app in Hx' as [?|?];
          apply elem_of_app; [by left|right; by right].
      * apply list_elem_of_singleton in Hx. subst x.
        apply elem_of_app in Hx' as [Hx'|Hx']; [|done]. by apply (Hd o Hx'); left.
    + intros k Hk. rewrite length_alter. apply Hmf in Hk as [->|Hk]; [done|].
      by apply wf_free_known0.
    + intros k Hk. rewrite length_alter. apply wf_used_known0. by rewrite <- Hmu.
Qed.

(** Releasing an object that is on the free list is refused by the
    free list, with nothing written. *)
Lemma release_free p g (o : oid) lf lu :
  pool_wf p g lf lu -> o ∈ lf ->
  Pool.release o (Pool.mkState p g) =
    (Throw (DuplicateAdd o (LinkedList.uniqueId (Pool.freeList p))), Pool.mkState p g).
Proof.
  intros H Hin. unfold Pool.release. punfold.
  rewrite (add_repr_dup _ _ _ (wf_free _ _ _ _ H) Hin). by destruct p.
Qed.

(** Releasing a constructed object that is on neither list puts it at
    the end of the free list; the used list is as it was. *)
Lemma release_foreign p g (o : oid) lf lu :
  pool_wf p g lf lu -> o ∉ lf -> o ∉ lu -> (o < length (objects g))%nat ->
  exists fl',
    let p' := Pool.set_freeList fl' p in
    let g' := set_objects (alter (Pooled.set_destroyed true) o (objects g)) g in
    Pool.release o (Pool.mkState p g) = (Ok tt, Pool.mkState p' g') /\
    LinkedList.remove o (Pool.usedList p) = (Ok false, Pool.usedList p) /\
    LinkedList.uniqueId fl' = LinkedList.uniqueId (Pool.freeList p) /\
    pool_wf p' g' (lf ++ [o]) lu.
Proof.
  intros H Hof Hou Hlt.
  destruct (add_repr _ _ _ (wf_free _ _ _ _ H) Hof) as (fl' & Hadd & Hfl & Hidf & Hmf).
  pose proof (remove_repr_absent _ _ _ (wf_used _ _ _ _ H) Hou) as Hrem.
  exists fl'. cbn zeta. split_and!; [|done|done|].
  - unfold Pool.release. punfold. rewrite Hadd. punfold. rewrite Hrem.
    by destruct p.
  - destruct H. split; cbn; try done.
    + intros x Hx. apply elem_of_app in Hx as [Hx|Hx]; [by apply wf_disjoint0|].
      apply list_elem_of_singleton in Hx. by subst.
    + intros k Hk. rewrite length_alter. apply Hmf in Hk as [->|Hk]; [done|].
      by apply wf_free_known0.
    + intros k Hk. rewrite length_alter. by apply wf_used_known0.
Qed.

End PoolFacts.

(** * The claims about the keyed node list *)

Section ListClaims.

Implicit Types (L : LinkedList.t) (l : list oid) (o : oid).

Lemma linked_snoc_facts L kr o r :
  linked L (kr ++ [(o, r)]) ->
  LinkedList.objToNodeMap L !! o = Some r /\
  LinkedList.last L = Some r /\
  LinkedList.nodes L !! r = Some (LinkedNode.mk o None (last_or kr None) false) /\
  LinkedList.count L = Z.of_nat (length kr) + 1.
Proof.
  intros H. split_and!.
  - apply H. apply elem_of_app. right. left.
  - rewrite (linked_last _ _ H) by (by destruct kr). by rewrite last_or_snoc.
  - pose proof (linked_links _ _ H) as Hd. apply dseg_app in Hd as [_ [Hr _]].
    exact Hr.
  - rewrite (linked_count _ _ H), length_app. cbn. lia.
Qed.

(** A successful [add] was an [add] of an object that was not in the list. *)
Lemma add_ok_absent L l o L' :
  repr L l -> LinkedList.add o L = (Ok tt, L') -> o ∉ l.
Proof.
  intros HL Hadd Hin. by rewrite (add_repr_dup _ _ _ HL Hin) in Hadd.
Qed.

(** Every successful [add] on a represented list, with the node used. *)
Lemma add_linked L kr o L' :
  linked L kr -> LinkedList.add o L = (Ok tt, L') ->
  exists r, linked L' (kr ++ [(o, r)]) /\
            (LinkedList.objToNodeMap L !! o = None \/
             LinkedList.objToNodeMap L !! o = Some r /\
             dom (LinkedList.nodes L') = dom (LinkedList.nodes L)).
Proof.
  intros H Hadd.
  assert (Ho : o ∉ kr.*1).
  { eapply add_ok_absent; [|exact Hadd]. by exists kr. }
  destruct (LinkedList.objToNodeMap L !! o) as [r|] eqn:Hmo.
  - destruct (linked_cached _ _ H _ _ Hmo) as (nd & Hnd & _ & Hfree).
    destruct (add_reuse L kr o r nd H Hmo Hnd (Hfree Ho))
      as (L'' & Hrun & HL' & _ & _ & Hdom).
    rewrite Hrun in Hadd. injection Hadd as <-. exists r. split; [done|]. by right.
  - destruct (add_new L kr o H Hmo) as (L'' & Hrun & HL' & _).
    rewrite Hrun in Hadd. injection Hadd as <-. eexists. split; [done|]. by left.
Qed.

End ListClaims.

(** C5.  On a keyed node list holding the objects [l], [add(obj)] with a
    cached node that is marked free reinitializes that very node and
    links it, constructing no node; with a cached node that is not free,
    [obj] is in the list and [add] throws the duplicate-add error built
    from the object and the list, changing nothing; and whenever [add]
    does not throw, the node of [obj] is the new last node, nothing
    follows it, and [count] is one more than before. *)
Theorem add_reuses_free_node_refuses_member
    (L : LinkedList.t) (l : list oid) (o : oid) :
  repr L l ->
  (forall r nd,
      LinkedList.objToNodeMap L !! o = Some r ->
      LinkedList.nodes L !! r = Some nd ->
      LinkedNode.free nd = true ->
      exists L' prev,
        LinkedList.add o L = (Ok tt, L') /\
        LinkedList.objToNodeMap L' !! o = Some r /\
        dom (LinkedList.nodes L') = dom (LinkedList.nodes L) /\
        LinkedList.nodes L' !! r = Some (LinkedNode.mk o None prev false)) /\
  (forall r nd,
      LinkedList.objToNodeMap L !! o = Some r ->
      LinkedList.nodes L !! r = Some nd ->
      LinkedNode.free nd = false ->
      o ∈ l /\
      LinkedList.add o L = (Throw (DuplicateAdd o (LinkedList.uniqueId L)), L)) /\
  (forall L',
      LinkedList.add o L = (Ok tt, L') ->
      exists r prev,
        LinkedList.objToNodeMap L' !! o = Some r /\
        LinkedList.last L' = Some r /\
        LinkedList.nodes L' !! r = Some (LinkedNode.mk o None prev false) /\
        (l = [] -> prev = None) /\
        (l <> [] -> prev = LinkedList.last L) /\
        LinkedList.count L' = LinkedList.count L + 1 /\
        repr L' (l ++ [o])).
Proof.
  intros (kr & H & <-). split_and!.
  - intros r nd Hmo Hnd Hfree.
    destruct (add_reuse L kr o r nd H Hmo Hnd Hfree) as (L' & Hrun & HL' & Hm & _ & Hdom).
    destruct (linked_snoc_facts _ _ _ _ HL') as (Hmo' & _ & Hnode & _).
    by exists L', (last_or kr None).
  - intros r nd Hmo Hnd Hfree. split; [|by eapply add_dup].
    destruct (decide (o ∈ kr.*1)) as [|Hn]; [done|].
    destruct (linked_cached _ _ H _ _ Hmo) as (nd' & Hnd' & _ & Hf).
    specialize (Hf Hn). congruence.
  - intros L' Hadd. destruct (add_linked _ _ _ _ H Hadd) as (r & HL' & _).
    destruct (linked_snoc_facts _ _ _ _ HL') as (Hmo' & Hlast & Hnode & Hcount).
    exists r, (last_or kr None). split_and!; [done|done|done| | | |].
    + intros Hl. apply fmap_nil_inv in Hl. by subst.
    + intros Hl. symmetry. apply H. intros ->. by apply Hl.
    + rewrite Hcount, (linked_count _ _ H). done.
    + exists (kr ++ [(o, r)]). split; [done|]. by rewrite fmap_app.
Qed.

(** An instance of C5: the list of 1 and 2, and the object 3. *)
Lemma add_reuses_free_node_refuses_member_witness :
  exists r prev,
    LinkedList.objToNodeMap (snd (LinkedList.add 3 (list_of 0 [1; 2]%nat))) !! 3%nat = Some r /\
    LinkedList.last (snd (LinkedList.add 3 (list_of 0 [1; 2]%nat))) = Some r /\
    LinkedList.nodes (snd (LinkedList.add 3 (list_of 0 [1; 2]%nat))) !! r =
      Some (LinkedNode.mk 3 None prev false) /\
    ([1; 2]%nat = [] -> prev = None) /\
    ([1; 2]%nat <> [] -> prev = LinkedList.last (list_of 0 [1; 2]%nat)) /\
    LinkedList.count (snd (LinkedList.add 3 (list_of 0 [1; 2]%nat))) =
      LinkedList.count (list_of 0 [1; 2]%nat) + 1 /\
    repr (snd (LinkedList.add 3 (list_of 0 [1; 2]%nat))) ([1; 2]%nat ++ [3%nat]).
Proof.
  assert (Hr : repr (list_of 0 [1; 2]%nat) [1; 2]%nat).
  { apply list_of_repr. apply (bool_decide_unpack _). vm_compute. exact I. }
  apply (proj2 (proj2 (add_reuses_free_node_refuses_member _ _ 3%nat Hr))).
  vm_compute. reflexivity.
Defined.

Lemma dseg_middle s p0 a k r b n0 :
  dseg s p0 (a ++ (k, r) :: b) n0 ->
  s !! r = Some (LinkedNode.mk k (head_or b n0) (last_or a p0) false).
Proof. intros Hd. by apply dseg_app in Hd as [_ [Hr _]]. Qed.

(** C6.  On a keyed node list holding the objects [l], [remove(obj)]
    returns false and changes nothing when [obj] has no cached node or
    its node is marked free; otherwise it returns true, the neighbours
    of the node are linked to each other, [first] and [last] move off
    the node if they were on it, the node is marked free with its links
    cleared, [count] is one less, and the list holds [l] without [obj].
    An [add(obj)] that does not throw, followed by [remove(obj)], gives
    back the old [count], and [has(obj)] is then false. *)
Theorem remove_unlinks_member_ignores_others
    (L : LinkedList.t) (l : list oid) (o : oid) :
  repr L l ->
  (LinkedList.objToNodeMap L !! o = None ->
   LinkedList.remove o L = (Ok false, L)) /\
  (forall r nd,
      LinkedList.objToNodeMap L !! o = Some r ->
      LinkedList.nodes L !! r = Some nd ->
      LinkedNode.free nd = true ->
      LinkedList.remove o L = (Ok false, L)) /\
  (forall r nd,
      LinkedList.objToNodeMap L !! o = Some r ->
      LinkedList.nodes L !! r = Some nd ->
      LinkedNode.free nd = false ->
      exists L' l1 l2,
        LinkedList.remove o L = (Ok true, L') /\
        l = l1 ++ o :: l2 /\ repr L' (l1 ++ l2) /\
        (forall p, LinkedNode.prevLinked nd = Some p ->
           LinkedNode.nextLinked <$> LinkedList.nodes L' !! p =
             Some (LinkedNode.nextLinked nd)) /\
        (forall n, LinkedNode.nextLinked nd = Some n ->
           LinkedNode.prevLinked <$> LinkedList.nodes L' !! n =
             Some (LinkedNode.prevLinked nd)) /\
        (LinkedNode.prevLinked nd = None ->
           LinkedList.first L' = LinkedNode.nextLinked nd) /\
        (LinkedNode.nextLinked nd = None ->
           LinkedList.last L' = LinkedNode.prevLinked nd) /\
        LinkedList.nodes L' !! r = Some (LinkedNode.mk o None None true) /\
        LinkedList.count L' = LinkedList.count L - 1) /\
  (forall L1,
      LinkedList.add o L = (Ok tt, L1) ->
      exists L2,
        LinkedList.remove o L1 = (Ok true, L2) /\
        LinkedList.count L2 = LinkedList.count L /\
        LinkedList.has o L2 = (Ok false, L2)).
Proof.
  intros (kr & H & <-). split_and!.
  - apply remove_none.
  - apply remove_free.
  - intros r nd Hmo Hnd Hfree.
    assert (Hin : o ∈ kr.*1).
    { destruct (decide (o ∈ kr.*1)) as [|Hn]; [done|].
      destruct (linked_cached _ _ H _ _ Hmo) as (nd' & Hnd' & _ & Hf).
      specialize (Hf Hn). congruence. }
    destruct (linked_key_elem _ _ _ H Hin) as (r' & Hin' & Hmo').
    assert (r' = r) as -> by congruence.
    apply list_elem_of_split in Hin' as (kr1 & kr2 & ->).
    destruct (remove_member _ _ _ _ _ H) as (L' & Hrun & HL' & Hm & Hid & Hlast & Hnode & _).
    pose proof (dseg_middle _ _ _ _ _ _ _ (linked_links _ _ H)) as Hr.
    rewrite Hnd in Hr. injection Hr as ->. cbn.
    exists L', kr1.*1, kr2.*1. split_and!; try done.
    + by rewrite fmap_app.
    + exists (kr1 ++ kr2). split; [done|]. by rewrite fmap_app.
    + intros p Hp. destruct (list.last kr1) as [[kp p']|] eqn:E.
      * apply last_Some in E as [kr1' ->]. rewrite last_or_snoc in Hp.
        injection Hp as ->. pose proof (linked_links _ _ HL') as Hd.
        rewrite <- app_assoc in Hd. cbn in Hd.
        by rewrite (dseg_middle _ _ _ _ _ _ _ Hd).
      * unfold last_or in Hp. by rewrite E in Hp.
    + intros n Hn. destruct kr2 as [|[kn n'] kr2]; [done|]. injection Hn as ->.
      pose proof (linked_links _ _ HL') as Hd.
      by rewrite (dseg_middle _ _ _ _ _ _ _ Hd).
    + intros Hp. rewrite (linked_first _ _ HL'), head_or_app.
      destruct (list.last kr1) as [[kp p']|] eqn:E.
      * apply last_Some in E as [kr1' ->]. by rewrite last_or_snoc in Hp.
      * apply last_None in E. by subst.
    + intros Hn. rewrite Hlast. destruct kr2 as [|[]]; [|done]. by rewrite app_nil_r.
    + rewrite (linked_count _ _ HL'), (linked_count _ _ H), !length_app. cbn. lia.
  - intros L1 Hadd. destruct (add_linked _ _ _ _ H Hadd) as (r & HL1 & _).
    rewrite <- (app_nil_r (kr ++ [(o, r)])), <- app_assoc in HL1. cbn in HL1.
    destruct (remove_member _ _ _ _ _ HL1) as (L2 & Hrun & HL2 & Hm & _ & _ & Hnode & _).
    exists L2. split_and!; [done| |].
    + rewrite (linked_count _ _ HL2), (linked_count _ _ H), app_nil_r. done.
    + assert (Hmo : LinkedList.objToNodeMap L2 !! o = Some r).
      { rewrite Hm. apply HL1. apply elem_of_app. right. left. }
      by rewrite (has_some _ _ _ _ Hmo Hnode).
Qed.

(** An instance of C6: the list of 1, 2 and 3, and the object 4. *)
Lemma remove_unlinks_member_ignores_others_witness :
  exists L2,
    LinkedList.remove 4 (snd (LinkedList.add 4 (list_of 0 [1; 2; 3]%nat))) = (Ok true, L2) /\
    LinkedList.count L2 = LinkedList.count (list_of 0 [1; 2; 3]%nat) /\
    LinkedList.has 4 L2 = (Ok false, L2).
Proof.
  assert (Hr : repr (list_of 0 [1; 2; 3]%nat) [1; 2; 3]%nat).
  { apply list_of_repr. apply (bool_decide_unpack _). vm_compute. exact I. }
  destruct (remove_unlinks_member_ignores_others _ _ 4%nat Hr) as (_ & _ & _ & H).
  apply (H (snd (LinkedList.add 4 (list_of 0 [1; 2; 3]%nat)))).
  vm_compute. reflexivity.
Defined.

(** C4 fails on the code.  In the list of 11, 12, 13 and 14, [moveUp] of
    13 (and likewise [moveDown] of 12) returns normally and transposes 12
    and 13 in the forward links, but the node of 14 keeps pointing back
    at the node of 13: walking back from [last] visits 14, 13 and 11 and
    never reaches 12.  At the boundaries the two calls change nothing. *)
Theorem moveUp_leaves_stale_back_link :
  let L := list_of 0 [11; 12; 13; 14]%nat in
  forwards L = [11; 12; 13; 14]%nat /\
  backwards L = [14; 13; 12; 11]%nat /\
  fst (LinkedList.moveUp 13 L) = Ok tt /\
  forwards (snd (LinkedList.moveUp 13 L)) = [11; 13; 12; 14]%nat /\
  backwards (snd (LinkedList.moveUp 13 L)) = [14; 13; 11]%nat /\
  fst (LinkedList.moveDown 12 L) = Ok tt /\
  forwards (snd (LinkedList.moveDown 12 L)) = [11; 13; 12; 14]%nat /\
  backwards (snd (LinkedList.moveDown 12 L)) = [14; 13; 11]%nat /\
  LinkedList.moveUp 11 L = (Ok tt, L) /\
  LinkedList.moveDown 14 L = (Ok tt, L).
Proof. vm_compute. repeat split. Qed.

(** * The claims about the pool *)

Section PoolSteps.

Implicit Types (p : Pool.t) (g : Globals) (lf lu : list oid) (s : Pool.state).

Lemma blank_pool_wf cls n :
  pool_wf (Pool.this (blank_pool cls n)) (Pool.env (blank_pool cls n)) [] [].
Proof.
  split; cbn; try apply repr_init.
  - intros o Ho. by apply elem_of_nil in Ho.
  - intros k [r Hk]. by rewrite lookup_empty in Hk.
  - intros k [r Hk]. by rewrite lookup_empty in Hk.
Qed.

Lemma repr_last_snoc L l o :
  repr L (l ++ [o]) ->
  exists r nd, LinkedList.last L = Some r /\ LinkedList.nodes L !! r = Some nd /\
               LinkedNode.obj nd = o.
Proof.
  intros (kr & H & Hl).
  apply fmap_app_inv in Hl as (kr1 & kr2 & Hl1 & Hl2 & ->).
  destruct kr2 as [|[o' r] [|]]; try done. cbn in Hl2. injection Hl2 as Heq.
  subst o'.
  destruct (linked_snoc_facts _ _ _ _ H) as (_ & Hlast & Hnode & _).
  by exists r, (LinkedNode.mk o None (last_or kr1 None) false).
Qed.

(** With a free object at hand [acquire] does not expand. *)
Lemma acquire_nonempty p g o lf lu :
  pool_wf p g (o :: lf) lu ->
  Pool.acquire (Pool.mkState p g) = acquire_tail (Pool.mkState p g).
Proof.
  intros H. destruct (repr_first_cons _ _ _ (wf_free _ _ _ _ H)) as (r & _ & Hf & _).
  rewrite acquire_unfold. punfold. rewrite Hf.
  by rewrite bool_decide_eq_false_2.
Qed.

(** Without one it expands, once, by [growth] of its size, and goes on
    with the first of the new objects at the head of the free list. *)
Lemma acquire_empty p g lu :
  pool_wf p g [] lu ->
  exists fl1,
    let k := growth (size_of p) in
    let g1 := set_totalPooled (totalPooled g + k)
                (set_objects
                   (objects g ++ replicate (Z.to_nat k) (Pooled.mk (Pool.classType p) false))
                   g) in
    1 <= k /\
    Pool.expand k (Pool.mkState p g) = (Ok tt, Pool.mkState (Pool.set_freeList fl1 p) g1) /\
    Pool.acquire (Pool.mkState p g) = acquire_tail (Pool.mkState (Pool.set_freeList fl1 p) g1) /\
    LinkedList.uniqueId fl1 = LinkedList.uniqueId (Pool.freeList p) /\
    pool_wf (Pool.set_freeList fl1 p) g1
      (length (objects g) :: seq (S (length (objects g))) (Z.to_nat k - 1)) lu.
Proof.
  intros H. cbn zeta.
  assert (Hk : 1 <= growth (size_of p)).
  { apply growth_pos. rewrite (size_of_wf _ _ _ _ H). lia. }
  destruct (expand_spec (growth (size_of p)) _ _ _ _ H) as (fl1 & Hrun & Hid & Hwf).
  cbn zeta in *. exists fl1. split_and!; [done|done| |done|].
  - rewrite acquire_unfold. punfold.
    rewrite (repr_first_nil _ (wf_free _ _ _ _ H)).
    rewrite bool_decide_eq_true_2 by done. punfold.
    change (LinkedList.count (Pool.freeList p) + LinkedList.count (Pool.usedList p))
      with (size_of p).
    by rewrite Hrun.
  - replace (Z.to_nat (growth (size_of p)))
      with (S (Z.to_nat (growth (size_of p)) - 1)) in Hwf at 2 by lia.
    exact Hwf.
Qed.

End PoolSteps.

Section PoolInvariant.

Implicit Types (s : Pool.state) (o : oid).

Lemma well_formed_blank cls n : well_formed (blank_pool cls n).
Proof. exists [], []. apply blank_pool_wf. Qed.

Lemma destroyed_after_write (objs : list Pooled.t) o v :
  (o < length objs)%nat ->
  Pooled.destroyed <$> alter (Pooled.set_destroyed v) o objs !! o = Some v.
Proof.
  intros Hlt. destruct (lookup_lt_is_Some_2 objs o Hlt) as [x Hx].
  rewrite list_lookup_alter, decide_True by done. by rewrite Hx.
Qed.

(** [expand] keeps a pool well formed and counts what it is asked for. *)
Lemma expand_wf (k : Z) s :
  well_formed s ->
  exists s',
    Pool.expand k s = (Ok tt, s') /\ well_formed s' /\
    totalPooled (Pool.env s') = totalPooled (Pool.env s) + k /\
    (length (objects (Pool.env s)) <= length (objects (Pool.env s')))%nat /\
    Pool.classType (Pool.this s') = Pool.classType (Pool.this s) /\
    Pool.initialSize (Pool.this s') = Pool.initialSize (Pool.this s).
Proof.
  intros (lf & lu & H). destruct s as [p g]; cbn in *.
  destruct (expand_spec k _ _ _ _ H) as (fl' & Hrun & _ & Hwf). cbn zeta in *.
  eexists. split; [exact Hrun|]. cbn. split_and!.
  - eexists _, _. exact Hwf.
  - done.
  - rewrite length_app. lia.
  - by destruct p.
  - by destruct p.
Qed.

(** [acquire] never throws on a well-formed pool, and keeps it well
    formed. *)
Lemma acquire_wf s :
  well_formed s ->
  exists o s',
    Pool.acquire s = (Ok o, s') /\ well_formed s' /\
    totalPooled (Pool.env s) <= totalPooled (Pool.env s') /\
    (length (objects (Pool.env s)) <= length (objects (Pool.env s')))%nat /\
    Pool.classType (Pool.this s') = Pool.classType (Pool.this s) /\
    Pool.initialSize (Pool.this s') = Pool.initialSize (Pool.this s).
Proof.
  intros (lf & lu & H). destruct s as [p g]; cbn in *.
  destruct lf as [|o lf].
  - destruct (acquire_empty _ _ _ H) as (fl1 & Hk & _ & Hacq & _ & Hwf1). cbn zeta in *.
    destruct (acquire_tail_spec _ _ _ _ _ Hwf1) as (fl' & ul' & Htail & _ & _ & Hwf').
    cbn zeta in *. eexists _, _.
    split; [etransitivity; [exact Hacq|exact Htail]|]. cbn. split_and!.
    + eexists _, _. exact Hwf'.
    + lia.
    + rewrite length_alter, length_app. lia.
    + by destruct p.
    + by destruct p.
  - destruct (acquire_tail_spec _ _ _ _ _ H) as (fl' & ul' & Htail & _ & _ & Hwf').
    cbn zeta in *. eexists _, _.
    split; [etransitivity; [exact (acquire_nonempty _ _ _ _ _ H)|exact Htail]|].
    cbn. split_and!.
    + eexists _, _. exact Hwf'.
    + lia.
    + by rewrite length_alter.
    + done.
    + done.
Qed.

(** [release] of a constructed object keeps a pool well formed, whether
    it throws or not. *)
Lemma release_wf s o :
  well_formed s -> (o < length (objects (Pool.env s)))%nat ->
  exists res s',
    Pool.release o s = (res, s') /\ well_formed s' /\
    (res = Ok tt \/ exists id, res = Throw (DuplicateAdd o id)) /\
    totalPooled (Pool.env s') = totalPooled (Pool.env s) /\
    length (objects (Pool.env s')) = length (objects (Pool.env s)) /\
    Pool.classType (Pool.this s') = Pool.classType (Pool.this s) /\
    Pool.initialSize (Pool.this s') = Pool.initialSize (Pool.this s).
Proof.
  intros (lf & lu & H) Hlt. destruct s as [p g]; cbn in *.
  destruct (decide (o ∈ lf)) as [Hf|Hf].
  - eexists _, _. split; [exact (release_free _ _ _ _ _ H Hf)|]. cbn.
    split_and!; try done; [by exists lf, lu|]. right. by eexists.
  - destruct (decide (o ∈ lu)) as [Hu|Hu].
    + apply list_elem_of_split in Hu as (lu1 & lu2 & ->).
      destruct (release_used _ _ _ _ _ _ H) as (fl' & ul' & Hrun & _ & _ & Hwf).
      cbn zeta in *. eexists _, _. split; [exact Hrun|]. cbn.
      split_and!; try done; try (by rewrite length_alter); try (by left).
      eexists _, _. exact Hwf.
    + destruct (release_foreign _ _ _ _ _ H Hf Hu Hlt) as (fl' & Hrun & _ & _ & Hwf).
      cbn zeta in *. eexists _, _. split; [exact Hrun|]. cbn.
      split_and!; try done; try (by rewrite length_alter); try (by destruct p);
        try (by left).
      eexists _, _. exact Hwf.
Qed.

Lemma well_formed_expand (k : Z) s :
  well_formed s -> well_formed (snd (Pool.expand k s)).
Proof. intros H. destruct (expand_wf k s H) as (s' & -> & ? & _). done. Qed.

Lemma well_formed_acquire s : well_formed s -> well_formed (snd (Pool.acquire s)).
Proof. intros H. destruct (acquire_wf s H) as (o & s' & -> & ? & _). done. Qed.

Lemma well_formed_release s o :
  well_formed s -> (o < length (objects (Pool.env s)))%nat ->
  well_formed (snd (Pool.release o s)).
Proof. intros H Hlt. destruct (release_wf s o H Hlt) as (r & s' & -> & ? & _). done. Qed.

(** With a free object at hand [acquire] constructs nothing. *)
Lemma acquire_wf_nonempty s :
  well_formed s ->
  LinkedList.first (Pool.freeList (Pool.this s)) <> None ->
  exists o s',
    Pool.acquire s = (Ok o, s') /\
    size_of (Pool.this s') = size_of (Pool.this s) /\
    totalPooled (Pool.env s') = totalPooled (Pool.env s).
Proof.
  intros (lf & lu & H) Hne. destruct s as [p g]; cbn [Pool.this Pool.env] in *.
  destruct lf as [|o lf].
  { by rewrite (repr_first_nil _ (wf_free _ _ _ _ H)) in Hne. }
  destruct (acquire_tail_spec _ _ _ _ _ H) as (fl' & ul' & Htail & _ & _ & Hwf').
  cbn zeta in *. eexists _, _.
  split; [etransitivity; [exact (acquire_nonempty _ _ _ _ _ H)|exact Htail]|].
  pcbn. split; [|done].
  rewrite (size_of_wf _ _ _ _ H), (size_of_wf _ _ _ _ Hwf'), length_app. cbn. lia.
Qed.

End PoolInvariant.

(** C1.  On a well-formed pool whose free list is empty
    ([freeList.first == null]), [acquire] calls [expand] with
    [round(size()/5)+1], a number that is at least 1, and runs no other
    expansion: it continues, from the state [expand] leaves, as [acquire]
    does on a pool with a free object.  In that state the free list has
    a first node; [acquire] returns the object of that node, which is
    then off the free list, has [destroyed] false, and is in the last
    node of the used list; [totalPooled] has grown by the argument of the
    one [expand].
    On a well-formed pool whose free list has a first node, as in the
    state [expand] leaves, [acquire] expands nothing: it returns the
    object of that node, takes it off the free list, writes false to its
    [destroyed] flag whatever the flag was, and puts it in the last node
    of the used list. *)
Theorem acquire_expands_empty_pool_once (s : Pool.state) :
  well_formed s ->
  (LinkedList.first (Pool.freeList (Pool.this s)) = None ->
   let k := growth (size_of (Pool.this s)) in
   1 <= k /\
   exists s1 r nd s',
     Pool.expand k s = (Ok tt, s1) /\
     Pool.acquire s = acquire_tail s1 /\
     Pool.acquire s = Pool.acquire s1 /\
     well_formed s1 /\
     totalPooled (Pool.env s1) = totalPooled (Pool.env s) + k /\
     LinkedList.count (Pool.freeList (Pool.this s1)) = k /\
     LinkedList.first (Pool.freeList (Pool.this s1)) = Some r /\
     LinkedList.nodes (Pool.freeList (Pool.this s1)) !! r = Some nd /\
     Pool.acquire s = (Ok (LinkedNode.obj nd), s') /\
     has_obj (Pool.freeList (Pool.this s')) (LinkedNode.obj nd) = false /\
     LinkedList.count (Pool.freeList (Pool.this s')) = k - 1 /\
     objects (Pool.env s') =
       alter (Pooled.set_destroyed false) (LinkedNode.obj nd) (objects (Pool.env s1)) /\
     Pooled.destroyed <$> objects (Pool.env s') !! LinkedNode.obj nd = Some false /\
     (exists ru ndu,
         LinkedList.last (Pool.usedList (Pool.this s')) = Some ru /\
         LinkedList.nodes (Pool.usedList (Pool.this s')) !! ru = Some ndu /\
         LinkedNode.obj ndu = LinkedNode.obj nd) /\
     LinkedList.count (Pool.usedList (Pool.this s')) =
       LinkedList.count (Pool.usedList (Pool.this s)) + 1 /\
     Pool.returnObj (Pool.this s') = Some (LinkedNode.obj nd) /\
     totalPooled (Pool.env s') = totalPooled (Pool.env s) + k /\
     well_formed s') /\
  (forall r nd,
     LinkedList.first (Pool.freeList (Pool.this s)) = Some r ->
     LinkedList.nodes (Pool.freeList (Pool.this s)) !! r = Some nd ->
     exists s',
       Pool.acquire s = (Ok (LinkedNode.obj nd), s') /\
       has_obj (Pool.freeList (Pool.this s')) (LinkedNode.obj nd) = false /\
       LinkedList.count (Pool.freeList (Pool.this s')) =
         LinkedList.count (Pool.freeList (Pool.this s)) - 1 /\
       objects (Pool.env s') =
         alter (Pooled.set_destroyed false) (LinkedNode.obj nd) (objects (Pool.env s)) /\
       Pooled.destroyed <$> objects (Pool.env s') !! LinkedNode.obj nd = Some false /\
       (exists ru ndu,
           LinkedList.last (Pool.usedList (Pool.this s')) = Some ru /\
           LinkedList.nodes (Pool.usedList (Pool.this s')) !! ru = Some ndu /\
           LinkedNode.obj ndu = LinkedNode.obj nd) /\
       LinkedList.count (Pool.usedList (Pool.this s')) =
         LinkedList.count (Pool.usedList (Pool.this s)) + 1 /\
       Pool.returnObj (Pool.this s') = Some (LinkedNode.obj nd) /\
       totalPooled (Pool.env s') = totalPooled (Pool.env s) /\
       well_formed s').
Proof.
  intros (lf & lu & H). destruct s as [p g]; cbn [Pool.this Pool.env] in *. split.
  - intros Hfirst.
    pose proof (repr_first_none _ _ (wf_free _ _ _ _ H) Hfirst) as ->.
    destruct (acquire_empty _ _ _ H) as (fl1 & Hk & Hexp & Hacq & _ & Hwf1). cbn zeta in *.
    destruct (acquire_tail_spec _ _ _ _ _ Hwf1) as (fl' & ul' & Htail & _ & _ & Hwf').
    cbn zeta in *.
    destruct (repr_first_cons _ _ _ (wf_free _ _ _ _ Hwf1)) as (r & nd & Hr & Hnd & Hobj).
    split; [exact Hk|].
    pose proof (wf_free _ _ _ _ Hwf1) as Hf1.
    pose proof (wf_free _ _ _ _ Hwf') as Hf'.
    pose proof (wf_used _ _ _ _ Hwf') as Hu'.
    eexists _, r, nd, _. rewrite Hobj.
    split; [exact Hexp|]. split; [exact Hacq|].
    split; [etransitivity; [exact Hacq|symmetry; by eapply acquire_nonempty]|].
    split; [eexists _, _; exact Hwf1|].
    cbn [Pool.this Pool.env Pool.freeList Pool.usedList Pool.returnObj Pool.set_freeList
         totalPooled objects set_totalPooled set_objects] in *.
    split_and!.
    + reflexivity.
    + rewrite (repr_count _ _ Hf1). cbn [length]. rewrite length_seq. lia.
    + exact Hr.
    + exact Hnd.
    + etransitivity; [exact Hacq|exact Htail].
    + pcbn. rewrite (has_obj_repr _ _ _ Hf').
      apply bool_decide_eq_false_2. rewrite elem_of_seq. lia.
    + pcbn. rewrite (repr_count _ _ Hf'), length_seq. lia.
    + reflexivity.
    + pcbn. apply destroyed_after_write. rewrite length_app, length_replicate. lia.
    + pcbn. destruct (repr_last_snoc _ _ _ Hu') as (ru & ndu & ? & ? & ?).
      by exists ru, ndu.
    + pcbn. rewrite (repr_count _ _ Hu'), (repr_count _ _ (wf_used _ _ _ _ H)).
      rewrite length_app. cbn. lia.
    + reflexivity.
    + reflexivity.
    + eexists _, _. exact Hwf'.
  - intros r nd Hr Hnd. destruct lf as [|o lf].
    { rewrite (repr_first_nil _ (wf_free _ _ _ _ H)) in Hr. discriminate. }
    destruct (repr_first_cons _ _ _ (wf_free _ _ _ _ H)) as (r' & nd' & Hr' & Hnd' & Hobj).
    rewrite Hr in Hr'. injection Hr' as <-. rewrite Hnd in Hnd'. injection Hnd' as <-.
    destruct (acquire_tail_spec _ _ _ _ _ H) as (fl' & ul' & Htail & _ & _ & Hwf').
    cbn zeta in *.
    pose proof (wf_free _ _ _ _ Hwf') as Hf'.
    pose proof (wf_used _ _ _ _ Hwf') as Hu'.
    pose proof (repr_nodup _ _ (wf_free _ _ _ _ H)) as Hnd0.
    apply NoDup_cons in Hnd0 as [Hnotin _].
    eexists. rewrite Hobj.
    split; [etransitivity; [by eapply acquire_nonempty|exact Htail]|].
    pcbn in Hf'. pcbn in Hu'. pcbn. split_and!.
    + rewrite (has_obj_repr _ _ _ Hf'). by apply bool_decide_eq_false_2.
    + rewrite (repr_count _ _ Hf'), (repr_count _ _ (wf_free _ _ _ _ H)).
      cbn [length]. lia.
    + reflexivity.
    + apply destroyed_after_write. apply (wf_free_lt _ _ _ _ _ H). left.
    + destruct (repr_last_snoc _ _ _ Hu') as (ru & ndu & ? & ? & ?).
      by exists ru, ndu.
    + rewrite (repr_count _ _ Hu'), (repr_count _ _ (wf_used _ _ _ _ H)).
      rewrite length_app. cbn. lia.
    + reflexivity.
    + reflexivity.
    + eexists _, _. exact Hwf'.
Qed.

Lemma well_formed_idle_pool : well_formed idle_pool.
Proof. apply well_formed_expand, well_formed_blank. Qed.

Lemma well_formed_lent_pool : well_formed lent_pool.
Proof. apply well_formed_acquire, well_formed_idle_pool. Qed.

Lemma well_formed_recycled_pool : well_formed recycled_pool.
Proof.
  apply well_formed_release; [apply well_formed_lent_pool|].
  vm_compute. lia.
Qed.

(** An instance of C1: the pool of one Point, which is on loan; and the
    same pool after the Point was released, where the object handed out
    has its [destroyed] flag set before the call. *)
Lemma acquire_expands_empty_pool_once_witness :
  (well_formed lent_pool /\
   LinkedList.first (Pool.freeList (Pool.this lent_pool)) = None /\
   1 <= growth (size_of (Pool.this lent_pool))) /\
  (well_formed recycled_pool /\
   Pooled.destroyed <$> objects (Pool.env recycled_pool) !! 0%nat = Some true /\
   exists s',
     Pool.acquire recycled_pool = (Ok 0%nat, s') /\
     Pooled.destroyed <$> objects (Pool.env s') !! 0%nat = Some false).
Proof.
  split.
  - split; [exact well_formed_lent_pool|].
    split; [vm_compute; reflexivity|].
    apply (proj1 (acquire_expands_empty_pool_once lent_pool well_formed_lent_pool)).
    vm_compute. reflexivity.
  - split; [exact well_formed_recycled_pool|].
    split; [vm_compute; reflexivity|].
    assert (Hr : LinkedList.first (Pool.freeList (Pool.this recycled_pool)) = Some 0%nat)
      by (vm_compute; reflexivity).
    assert (Hnd : LinkedList.nodes (Pool.freeList (Pool.this recycled_pool)) !! 0%nat =
                  Some (LinkedNode.mk 0 None None false))
      by (vm_compute; reflexivity).
    destruct (proj2 (acquire_expands_empty_pool_once recycled_pool well_formed_recycled_pool)
                _ _ Hr Hnd) as (s' & Hacq & _ & _ & _ & Hd & _).
    exists s'. split; [exact Hacq|exact Hd].
Defined.

(** [has] answers true only for a cached node that is in use. *)
Lemma has_obj_true (L : LinkedList.t) (o : oid) :
  has_obj L o = true ->
  exists r nd, LinkedList.objToNodeMap L !! o = Some r /\
               LinkedList.nodes L !! r = Some nd /\ LinkedNode.free nd = false.
Proof.
  unfold has_obj, LinkedList.has. munfold.
  destruct (LinkedList.objToNodeMap L !! o) as [r|] eqn:Hm; [|cbn; discriminate].
  munfold.
  destruct (LinkedList.nodes L !! r) as [nd|] eqn:Hnd; [|cbn; discriminate]. cbn.
  intros Hf. exists r, nd. split_and!; [done..|]. by destruct (LinkedNode.free nd).
Qed.

(** C9.  [Pool.release(obj)] on an object that the free list has throws
    the duplicate-add error of the free list and leaves the whole state
    (both lists with their counts, every [destroyed] flag) as it was. *)
Theorem release_of_free_object_changes_nothing (s : Pool.state) (o : oid) :
  has_obj (Pool.freeList (Pool.this s)) o = true ->
  Pool.release o s =
    (Throw (DuplicateAdd o (LinkedList.uniqueId (Pool.freeList (Pool.this s)))), s).
Proof.
  intros Hhas. destruct (has_obj_true _ _ Hhas) as (r & nd & Hm & Hnd & Hf).
  unfold Pool.release. punfold. rewrite (add_dup _ _ _ _ Hm Hnd Hf).
  by destruct s as [[] ?].
Qed.

(** An instance of C9: the free object 0 of the pool of one Point. *)
Lemma release_of_free_object_changes_nothing_witness :
  has_obj (Pool.freeList (Pool.this idle_pool)) 0 = true /\
  Pool.release 0 idle_pool =
    (Throw (DuplicateAdd 0 (LinkedList.uniqueId (Pool.freeList (Pool.this idle_pool)))),
     idle_pool).
Proof.
  split; [vm_compute; reflexivity|].
  apply (release_of_free_object_changes_nothing idle_pool 0%nat).
  vm_compute. reflexivity.
Defined.

(** C10.  [Pool.release(obj)] on a constructed object that neither list
    has does not throw: the removal from the used list answers false and
    leaves the used list as it is, the object is in the last node of the
    free list afterwards, its [destroyed] flag is true, and [size()] is
    one more than before. *)
Theorem release_adopts_unlisted_object (s : Pool.state) (o : oid) :
  well_formed s ->
  (o < length (objects (Pool.env s)))%nat ->
  has_obj (Pool.freeList (Pool.this s)) o = false ->
  has_obj (Pool.usedList (Pool.this s)) o = false ->
  exists s',
    Pool.release o s = (Ok tt, s') /\
    LinkedList.remove o (Pool.usedList (Pool.this s)) =
      (Ok false, Pool.usedList (Pool.this s)) /\
    Pool.usedList (Pool.this s') = Pool.usedList (Pool.this s) /\
    has_obj (Pool.freeList (Pool.this s')) o = true /\
    (exists r nd,
        LinkedList.last (Pool.freeList (Pool.this s')) = Some r /\
        LinkedList.nodes (Pool.freeList (Pool.this s')) !! r = Some nd /\
        LinkedNode.obj nd = o) /\
    LinkedList.count (Pool.freeList (Pool.this s')) =
      LinkedList.count (Pool.freeList (Pool.this s)) + 1 /\
    Pooled.destroyed <$> objects (Pool.env s') !! o = Some true /\
    size_of (Pool.this s') = size_of (Pool.this s) + 1 /\
    well_formed s'.
Proof.
  intros (lf & lu & H) Hlt Hf Hu. destruct s as [p g]; cbn [Pool.this Pool.env] in *.
  rewrite (has_obj_repr _ _ _ (wf_free _ _ _ _ H)) in Hf.
  rewrite (has_obj_repr _ _ _ (wf_used _ _ _ _ H)) in Hu.
  apply bool_decide_eq_false_1 in Hf. apply bool_decide_eq_false_1 in Hu.
  destruct (release_foreign _ _ _ _ _ H Hf Hu Hlt) as (fl' & Hrun & Hrem & _ & Hwf).
  cbn zeta in *. pose proof (wf_free _ _ _ _ Hwf) as Hf'.
  pose proof (repr_count _ _ (wf_free _ _ _ _ H)) as Hc.
  eexists. split; [exact Hrun|]. pcbn. pcbn in Hf'. split_and!.
  - exact Hrem.
  - by destruct p.
  - rewrite (has_obj_repr _ _ _ Hf'). apply bool_decide_eq_true_2.
    apply elem_of_app. right. left.
  - destruct (repr_last_snoc _ _ _ Hf') as (r & nd & ? & ? & ?). by exists r, nd.
  - rewrite (repr_count _ _ Hf'), Hc, length_app. cbn. lia.
  - by apply destroyed_after_write.
  - unfold size_of. destruct p; pcbn. pcbn in Hc.
    rewrite (repr_count _ _ Hf'), Hc, length_app. cbn. lia.
  - eexists _, _. exact Hwf.
Qed.

Lemma well_formed_construct (cls : string) (s : Pool.state) :
  well_formed s -> well_formed (snd (Pool.on_env (new_object cls) s)).
Proof.
  intros (lf & lu & H). exists lf, lu. destruct s as [p g]. punfold.
  eapply pool_wf_mono; [exact H|]. cbn. rewrite length_app. lia.
Qed.

Lemma well_formed_visited_pool : well_formed visited_pool.
Proof. apply well_formed_construct, well_formed_idle_pool. Qed.

(** An instance of C10: the Point 1, constructed by hand, and the pool
    whose only Point is 0. *)
Lemma release_adopts_unlisted_object_witness :
  (1 < length (objects (Pool.env visited_pool)))%nat /\
  has_obj (Pool.freeList (Pool.this visited_pool)) 1 = false /\
  has_obj (Pool.usedList (Pool.this visited_pool)) 1 = false /\
  exists s',
    Pool.release 1 visited_pool = (Ok tt, s') /\
    size_of (Pool.this s') = size_of (Pool.this visited_pool) + 1.
Proof.
  assert (H1 : (1 < length (objects (Pool.env visited_pool)))%nat)
    by (vm_compute; lia).
  assert (H2 : has_obj (Pool.freeList (Pool.this visited_pool)) 1 = false)
    by (vm_compute; reflexivity).
  assert (H3 : has_obj (Pool.usedList (Pool.this visited_pool)) 1 = false)
    by (vm_compute; reflexivity).
  destruct (release_adopts_unlisted_object visited_pool 1%nat
              well_formed_visited_pool H1 H2 H3)
    as (s' & Hrun & _ & _ & _ & _ & _ & _ & Hsize & _).
  split; [exact H1|]. split; [exact H2|]. split; [exact H3|].
  exists s'. split; [exact Hrun|exact Hsize].
Defined.

Section RoundTrip.

Implicit Types (p : Pool.t) (g : Globals) (lf lu : list oid).

(** [acquire] on a well-formed pool, with the lists before and after. *)
Lemma acquire_lists p g lf lu :
  pool_wf p g lf lu ->
  exists o lf' p1 g1,
    Pool.acquire (Pool.mkState p g) = (Ok o, Pool.mkState p1 g1) /\
    pool_wf p1 g1 lf' (lu ++ [o]) /\
    (lf = o :: lf' \/
     lf = [] /\ 1 <= growth (size_of p) /\
     length lf' = (Z.to_nat (growth (size_of p)) - 1)%nat).
Proof.
  intros H. destruct lf as [|o lf].
  - destruct (acquire_empty _ _ _ H) as (fl1 & Hk & _ & Hacq & _ & Hwf1). cbn zeta in *.
    destruct (acquire_tail_spec _ _ _ _ _ Hwf1) as (fl' & ul' & Htail & _ & _ & Hwf').
    cbn zeta in *. eexists _, _, _, _.
    split; [etransitivity; [exact Hacq|exact Htail]|]. split; [exact Hwf'|].
    right. split_and!; [done|done|]. by rewrite length_seq.
  - destruct (acquire_tail_spec _ _ _ _ _ H) as (fl' & ul' & Htail & _ & _ & Hwf').
    cbn zeta in *. eexists _, _, _, _.
    split; [etransitivity; [exact (acquire_nonempty _ _ _ _ _ H)|exact Htail]|].
    split; [exact Hwf'|]. by left.
Qed.

End RoundTrip.

(** C3 fails on the code when the free list is empty: in the pool whose
    only Point is on loan, [acquire] constructs the Point 1, and after
    its [release] the pool has two objects, one of them free. *)
Lemma round_trip_grows_exhausted_pool :
  size_of (Pool.this lent_pool) = 1 /\
  LinkedList.count (Pool.freeList (Pool.this lent_pool)) = 0 /\
  fst (Pool.acquire lent_pool) = Ok 1%nat /\
  fst (Pool.release 1 (snd (Pool.acquire lent_pool))) = Ok tt /\
  size_of (Pool.this (snd (Pool.release 1 (snd (Pool.acquire lent_pool))))) = 2 /\
  LinkedList.count
    (Pool.freeList (Pool.this (snd (Pool.release 1 (snd (Pool.acquire lent_pool)))))) = 1.
Proof. vm_compute. repeat split. Qed.

(** C3, amended.  On a well-formed pool, [acquire()] and then [release]
    of the object it returned both return normally and give back the
    old count of the used list.  When the free list had an object, the
    count of the free list and [size()] are the old ones as well; when it
    was empty, the free list now has the [round(size()/5)+1] new objects
    and [size()] has grown by that number. *)
Theorem acquire_release_round_trip (s : Pool.state) :
  well_formed s ->
  exists o s1 s2,
    Pool.acquire s = (Ok o, s1) /\
    Pool.release o s1 = (Ok tt, s2) /\
    LinkedList.count (Pool.usedList (Pool.this s2)) =
      LinkedList.count (Pool.usedList (Pool.this s)) /\
    (LinkedList.first (Pool.freeList (Pool.this s)) <> None ->
       LinkedList.count (Pool.freeList (Pool.this s2)) =
         LinkedList.count (Pool.freeList (Pool.this s)) /\
       size_of (Pool.this s2) = size_of (Pool.this s)) /\
    (LinkedList.first (Pool.freeList (Pool.this s)) = None ->
       LinkedList.count (Pool.freeList (Pool.this s2)) = growth (size_of (Pool.this s)) /\
       size_of (Pool.this s2) = size_of (Pool.this s) + growth (size_of (Pool.this s))).
Proof.
  intros (lf & lu & H). destruct s as [p g]; cbn [Pool.this Pool.env] in *.
  destruct (acquire_lists _ _ _ _ H) as (o & lf' & p1 & g1 & Hacq & Hwf1 & Hcase).
  rewrite <- (app_nil_r [o]), app_assoc in Hwf1. rewrite app_nil_r in Hwf1.
  change (lu ++ [o]) with (lu ++ o :: []) in Hwf1.
  destruct (release_used _ _ _ _ _ _ Hwf1) as (fl2 & ul2 & Hrel & _ & _ & Hwf2).
  cbn zeta in *. rewrite app_nil_r in Hwf2.
  pose proof (repr_count _ _ (wf_free _ _ _ _ H)) as Hcf.
  pose proof (repr_count _ _ (wf_used _ _ _ _ H)) as Hcu.
  pose proof (repr_count _ _ (wf_free _ _ _ _ Hwf2)) as Hcf2.
  pose proof (repr_count _ _ (wf_used _ _ _ _ Hwf2)) as Hcu2.
  pcbn in Hcf2. pcbn in Hcu2. rewrite length_app in Hcf2. cbn [length] in Hcf2.
  eexists o, _, _. split; [exact Hacq|]. split; [exact Hrel|]. pcbn.
  set (k := growth (size_of p)) in *. unfold size_of. pcbn.
  split; [lia|]. split.
  - intros Hne. destruct Hcase as [->|(-> & _)].
    + cbn [length] in Hcf. lia.
    + by rewrite (repr_first_nil _ (wf_free _ _ _ _ H)) in Hne.
  - intros He. destruct Hcase as [->|(-> & Hk & Hlen)].
    + destruct (repr_first_cons _ _ _ (wf_free _ _ _ _ H)) as (r & _ & Hr & _).
      congruence.
    + cbn [length] in Hcf. lia.
Qed.

(** An instance of C3, amended: the pool of one free Point. *)
Lemma acquire_release_round_trip_witness :
  well_formed idle_pool /\
  exists o s1 s2,
    Pool.acquire idle_pool = (Ok o, s1) /\
    Pool.release o s1 = (Ok tt, s2) /\
    LinkedList.count (Pool.usedList (Pool.this s2)) =
      LinkedList.count (Pool.usedList (Pool.this idle_pool)).
Proof.
  split; [exact well_formed_idle_pool|].
  destruct (acquire_release_round_trip idle_pool well_formed_idle_pool)
    as (o & s1 & s2 & H1 & H2 & H3 & _).
  exists o, s1, s2. split; [exact H1|]. split; [exact H2|exact H3].
Defined.

(** C2 fails on the code.  In the pool whose only Point, 0, is on loan,
    the first [release] of 0 returns normally and the second one throws
    the duplicate-add error of the free list, leaving the state exactly
    as the first [release] left it. *)
Lemma second_release_throws_and_changes_nothing :
  fst (Pool.release 0 lent_pool) = Ok tt /\
  fst (Pool.release 0 (snd (Pool.release 0 lent_pool))) = Throw (DuplicateAdd 0 0) /\
  snd (Pool.release 0 (snd (Pool.release 0 lent_pool))) = snd (Pool.release 0 lent_pool).
Proof. vm_compute. repeat split. Qed.

(** C2, amended.  On a well-formed pool, a second [release] of an object
    that was on loan is detected: the first [release] returns normally
    and leaves the pool well formed, and the second one throws the
    duplicate-add error of the free list and changes nothing. *)
Theorem second_release_is_refused (s : Pool.state) (o : oid) :
  well_formed s ->
  has_obj (Pool.usedList (Pool.this s)) o = true ->
  exists s1,
    Pool.release o s = (Ok tt, s1) /\
    well_formed s1 /\
    Pool.release o s1 =
      (Throw (DuplicateAdd o (LinkedList.uniqueId (Pool.freeList (Pool.this s1)))), s1).
Proof.
  intros (lf & lu & H) Hu. destruct s as [p g]; cbn [Pool.this Pool.env] in *.
  rewrite (has_obj_repr _ _ _ (wf_used _ _ _ _ H)) in Hu.
  apply bool_decide_eq_true_1 in Hu.
  apply list_elem_of_split in Hu as (lu1 & lu2 & ->).
  destruct (release_used _ _ _ _ _ _ H) as (fl' & ul' & Hrun & _ & _ & Hwf).
  cbn zeta in *. eexists. split; [exact Hrun|]. split.
  - eexists _, _. exact Hwf.
  - apply (release_free _ _ _ _ _ Hwf). apply elem_of_app. right. left.
Qed.

(** An instance of C2, amended: the Point 0, on loan from its pool. *)
Lemma second_release_is_refused_witness :
  well_formed lent_pool /\
  has_obj (Pool.usedList (Pool.this lent_pool)) 0 = true /\
  exists s1,
    Pool.release 0 lent_pool = (Ok tt, s1) /\
    well_formed s1 /\
    Pool.release 0 s1 =
      (Throw (DuplicateAdd 0 (LinkedList.uniqueId (Pool.freeList (Pool.this s1)))), s1).
Proof.
  assert (H : has_obj (Pool.usedList (Pool.this lent_pool)) 0 = true)
    by (vm_compute; reflexivity).
  split; [exact well_formed_lent_pool|]. split; [exact H|].
  exact (second_release_is_refused lent_pool 0%nat well_formed_lent_pool H).
Defined.

(** * The claims about the registry *)

Section RegistryFacts.

Implicit Types (r : Registry.t) (p : Pool.t) (g : Globals).

Lemma well_formed_mono p g g' :
  well_formed (Pool.mkState p g) ->
  (length (objects g) <= length (objects g'))%nat ->
  well_formed (Pool.mkState p g').
Proof.
  intros (lf & lu & H) Hle. exists lf, lu. by eapply pool_wf_mono.
Qed.

Lemma registry_inv_empty : registry_inv Registry.empty.
Proof. split; cbn; intros ? ? H; by rewrite ?lookup_empty, ?lookup_nil in H. Qed.

(** [new gamecore.Pool(classType, initial)] never throws; the pool it
    gives is well formed and holds [initial] free objects. *)
Lemma init_spec cls (initial : Z) g :
  exists p g',
    Pool.init cls initial g = (Ok p, g') /\
    well_formed (Pool.mkState p g') /\
    Pool.classType p = cls /\
    Pool.initialSize p = initial /\
    totalPooled g' = totalPooled g + initial /\
    (length (objects g) <= length (objects g'))%nat /\
    (0 < initial -> LinkedList.first (Pool.freeList p) <> None) /\
    size_of p = Z.of_nat (Z.to_nat initial).
Proof.
  set (g2 := set_totalLists (S (S (totalLists g))) g).
  set (p0 := Pool.mk (LinkedList.init (totalLists g)) (LinkedList.init (S (totalLists g)))
               initial cls None).
  assert (H0 : pool_wf p0 g2 [] []).
  { split; cbn; try apply repr_init.
    - intros o Ho. by apply elem_of_nil in Ho.
    - intros k [r Hk]. by rewrite lookup_empty in Hk.
    - intros k [r Hk]. by rewrite lookup_empty in Hk. }
  destruct (expand_spec initial _ _ _ _ H0) as (fl' & Hrun & _ & Hwf). cbn zeta in *.
  assert (Hinit : Pool.init cls initial g =
                  match Pool.expand initial (Pool.mkState p0 g2) with
                  | (Ok _, s) => (Ok (Pool.this s), Pool.env s)
                  | (Throw e, s) => (Throw e, Pool.env s)
                  end) by reflexivity.
  rewrite Hrun in Hinit. pcbn in Hinit.
  eexists _, _. split; [exact Hinit|].
  pose proof (repr_count _ _ (wf_free _ _ _ _ Hwf)) as Hc.
  pose proof (repr_count _ _ (wf_used _ _ _ _ Hwf)) as Hu.
  pcbn in Hc. pcbn in Hu. cbn [app length] in Hc, Hu. rewrite length_seq in Hc.
  pcbn. split_and!.
  - eexists _, _. destruct g; exact Hwf.
  - done.
  - done.
  - by destruct g.
  - destruct g; cbn. rewrite length_app. lia.
  - intros Hpos Hnone.
    pose proof (repr_first_none _ _ (wf_free _ _ _ _ Hwf) Hnone) as Hnil.
    apply (f_equal length) in Hnil. cbn [app] in Hnil.
    rewrite length_seq in Hnil. cbn [length] in Hnil. lia.
  - unfold size_of, p0. pcbn. rewrite Hc. cbn. lia.
Qed.

End RegistryFacts.

Section RegistrySteps.

Implicit Types (r : Registry.t) (p : Pool.t) (g : Globals).

Lemma call_run {A} ref (m : M Pool.state A) r p res s' :
  Registry.heap r !! ref = Some p ->
  m (Pool.mkState p (Registry.env r)) = (res, s') ->
  Registry.call ref m r =
    (res, Registry.set_env (Pool.env s')
            (Registry.set_heap (<[ref := Pool.this s']> (Registry.heap r)) r)).
Proof. intros Hp Hm. unfold Registry.call. by rewrite Hp, Hm. Qed.

(** A method that keeps its pool well formed and of its class keeps the
    registry in order. *)
Lemma call_inv ref r p s' :
  registry_inv r ->
  Registry.heap r !! ref = Some p ->
  well_formed s' ->
  Pool.classType (Pool.this s') = Pool.classType p ->
  (length (objects (Registry.env r)) <= length (objects (Pool.env s')))%nat ->
  registry_inv
    (Registry.set_env (Pool.env s')
       (Registry.set_heap (<[ref := Pool.this s']> (Registry.heap r)) r)).
Proof.
  intros H Hp Hwf Hcls Hle.
  pose proof (lookup_lt_Some _ _ _ Hp) as Hlt.
  split; cbn.
  - intros cls ref' Hc. destruct (inv_registered r H cls ref' Hc) as (q & Hq & Hq').
    destruct (decide (ref' = ref)) as [->|Hne].
    + exists (Pool.this s'). rewrite list_lookup_insert_eq by done.
      split; [done|]. congruence.
    + exists q. by rewrite list_lookup_insert_ne.
  - intros i q Hq. destruct (decide (i = ref)) as [->|Hne].
    + rewrite list_lookup_insert_eq in Hq by done. injection Hq as <-.
      rewrite Hcls. by apply (inv_constructed r H).
    + rewrite list_lookup_insert_ne in Hq by done. by apply (inv_constructed r H).
  - intros i q Hq. destruct (decide (i = ref)) as [->|Hne].
    + rewrite list_lookup_insert_eq in Hq by done. injection Hq as <-.
      by destruct s'.
    + rewrite list_lookup_insert_ne in Hq by done.
      eapply well_formed_mono; [by eapply (inv_wf r H)|done].
Qed.

(** Registering a new well-formed pool under an unseen name. *)
Lemma registry_inv_new_pool r cls p g' :
  registry_inv r ->
  Registry.pools r !! cls = None ->
  well_formed (Pool.mkState p g') ->
  Pool.classType p = cls ->
  (length (objects (Registry.env r)) <= length (objects g'))%nat ->
  registry_inv
    (Registry.mk (<[cls := length (Registry.heap r)]> (Registry.pools r))
       (Registry.heap r ++ [p]) g').
Proof.
  intros H Hnone Hwf Hcls Hle. split; cbn.
  - intros c ref Hc. apply lookup_insert_Some in Hc as [[<- <-]|[Hne Hc]].
    + exists p. split; [|done]. by rewrite list_lookup_middle.
    + destruct (inv_registered r H c ref Hc) as (q & Hq & Hq').
      exists q. split; [|done]. by apply lookup_app_l_Some.
  - intros i q Hq. apply lookup_app_Some in Hq as [Hq|[Hge Hq]].
    + pose proof (inv_constructed r H i q Hq) as Hc.
      rewrite lookup_insert_ne; [done|]. intros Heq. congruence.
    + apply list_lookup_singleton_Some in Hq as [Hi <-].
      rewrite Hcls, lookup_insert_eq. f_equal. lia.
  - intros i q Hq. apply lookup_app_Some in Hq as [Hq|[Hge Hq]].
    + eapply well_formed_mono; [by eapply (inv_wf r H)|done].
    + apply list_lookup_singleton_Some in Hq as [Hi <-]. done.
Qed.

Lemma acquire_registered r cls ref :
  registry_inv r ->
  Registry.pools r !! cls = Some ref ->
  exists o r',
    Registry.acquire cls r = (Ok o, r') /\
    registry_inv r' /\
    Registry.pools r' = Registry.pools r /\
    length (Registry.heap r') = length (Registry.heap r) /\
    totalPooled (Registry.env r) <= totalPooled (Registry.env r') /\
    (length (objects (Registry.env r)) <= length (objects (Registry.env r')))%nat.
Proof.
  intros H Hc. destruct (inv_registered r H cls ref Hc) as (p & Hp & Hcls).
  destruct (acquire_wf _ (inv_wf r H ref p Hp)) as (o & s' & Hacq & Hwf & Htp & Hlen & Hcl & _).
  exists o. eexists. split.
  { unfold Registry.acquire. unfold bind at 1, gets at 1. rewrite Hc.
    unfold bind at 1, ret at 1. exact (call_run _ _ _ _ _ _ Hp Hacq). }
  split; [by eapply call_inv|]. cbn. split_and!; try done.
  by rewrite length_insert.
Qed.

Lemma acquire_unseen r cls :
  registry_inv r ->
  Registry.pools r !! cls = None ->
  exists o r' p,
    Registry.acquire cls r = (Ok o, r') /\
    registry_inv r' /\
    Registry.pools r' = <[cls := length (Registry.heap r)]> (Registry.pools r) /\
    Registry.heap r' !! length (Registry.heap r) = Some p /\
    length (Registry.heap r') = S (length (Registry.heap r)) /\
    Pool.classType p = cls /\
    Pool.initialSize p = Registry.INITIAL_POOL_SIZE /\
    size_of p = Registry.INITIAL_POOL_SIZE /\
    totalPooled (Registry.env r') =
      totalPooled (Registry.env r) + Registry.INITIAL_POOL_SIZE /\
    (length (objects (Registry.env r)) <= length (objects (Registry.env r')))%nat.
Proof.
  intros H Hnone.
  destruct (init_spec cls Registry.INITIAL_POOL_SIZE (Registry.env r))
    as (p0 & g' & Hinit & Hwf0 & Hcls0 & Hsz0 & Htp0 & Hlen0 & Hne0 & Hsize0).
  set (ref := length (Registry.heap r)).
  set (r1 := Registry.mk (<[cls := ref]> (Registry.pools r)) (Registry.heap r ++ [p0]) g').
  assert (H1 : registry_inv r1) by (by apply registry_inv_new_pool).
  assert (Hp0 : Registry.heap r1 !! ref = Some p0) by (cbn; by rewrite list_lookup_middle).
  destruct (acquire_wf _ Hwf0) as (o & s' & Hacq & Hwf & _ & Hlen & Hcl & Hisz).
  destruct (acquire_wf_nonempty _ Hwf0 (Hne0 ltac:(done))) as (o2 & s2 & Hacq2 & Hsize & Htp).
  rewrite Hacq in Hacq2. injection Hacq2 as <- <-. cbn [Pool.this Pool.env] in *.
  assert (Hnew : Registry.new_Pool cls Registry.INITIAL_POOL_SIZE r =
                 (Ok ref, Registry.mk (Registry.pools r) (Registry.heap r ++ [p0]) g')).
  { unfold Registry.new_Pool. cbv [bind zoom gets modify ret]. rewrite Hinit.
    by destruct r. }
  exists o. eexists. exists (Pool.this s'). split.
  { unfold Registry.acquire. cbv [bind gets]. rewrite Hnone, Hnew.
    cbv [modify ret]. cbv beta iota.
    exact (call_run ref Pool.acquire r1 p0 _ _ Hp0 Hacq). }
  split.
  { change (registry_inv
              (Registry.set_env (Pool.env s')
                 (Registry.set_heap (<[ref := Pool.this s']> (Registry.heap r1)) r1))).
    eapply call_inv; try done. }
  cbn. split_and!.
  - done.
  - apply list_lookup_insert_eq. rewrite length_app. cbn. lia.
  - rewrite length_insert, length_app. cbn. lia.
  - congruence.
  - congruence.
  - rewrite Hsize, Hsize0. done.
  - rewrite Htp, Htp0. done.
  - lia.
Qed.

(** The static [release]: no pool for the class of the object. *)
Lemma release_unregistered r (o : oid) x :
  objects (Registry.env r) !! o = Some x ->
  Registry.pools r !! Pooled.Class_fullName x = None ->
  Registry.release o r = (Throw (NoSuchPool (Pooled.Class_fullName x)), r).
Proof.
  intros Ho Hc. unfold Registry.release. cbv [bind gets throw]. by rewrite Ho, Hc.
Qed.

(** The static [release]: the call goes to the pool of the class. *)
Lemma release_delegates r (o : oid) x ref :
  objects (Registry.env r) !! o = Some x ->
  Registry.pools r !! Pooled.Class_fullName x = Some ref ->
  Registry.release o r = Registry.call ref (Pool.release o) r.
Proof.
  intros Ho Hc. unfold Registry.release. cbv [bind gets throw]. by rewrite Ho, Hc.
Qed.

Lemma release_registered r (o : oid) x ref :
  registry_inv r ->
  objects (Registry.env r) !! o = Some x ->
  Registry.pools r !! Pooled.Class_fullName x = Some ref ->
  exists res r',
    Registry.release o r = (res, r') /\
    registry_inv r' /\
    (res = Ok tt \/ exists id, res = Throw (DuplicateAdd o id)) /\
    Registry.pools r' = Registry.pools r /\
    length (Registry.heap r') = length (Registry.heap r) /\
    totalPooled (Registry.env r') = totalPooled (Registry.env r).
Proof.
  intros H Ho Hc. destruct (inv_registered r H _ ref Hc) as (p & Hp & Hcls).
  pose proof (lookup_lt_Some _ _ _ Ho) as Hlt.
  destruct (release_wf _ o (inv_wf r H ref p Hp) Hlt)
    as (res & s' & Hrel & Hwf & Hres & Htp & Hlen & Hcl & _).
  cbn [Pool.this Pool.env] in *.
  exists res. eexists. split.
  { rewrite (release_delegates _ _ _ _ Ho Hc). exact (call_run _ _ _ _ _ _ Hp Hrel). }
  split; [eapply call_inv; try done; lia|]. cbn. split_and!; try done.
  by rewrite length_insert.
Qed.

Lemma release_unknown_object r (o : oid) :
  objects (Registry.env r) !! o = None ->
  Registry.release o r = (Throw TypeError, r).
Proof. intros Ho. unfold Registry.release. cbv [bind gets throw]. by rewrite Ho. Qed.

Lemma expand_registered r cls ref (n : Z) :
  registry_inv r ->
  Registry.pools r !! cls = Some ref ->
  exists r',
    step (Expand cls n) r = (Ok tt, r') /\
    registry_inv r' /\
    Registry.pools r' = Registry.pools r /\
    length (Registry.heap r') = length (Registry.heap r) /\
    totalPooled (Registry.env r') = totalPooled (Registry.env r) + n.
Proof.
  intros H Hc. destruct (inv_registered r H _ ref Hc) as (p & Hp & Hcls).
  destruct (expand_wf n _ (inv_wf r H ref p Hp)) as (s' & Hrun & Hwf & Htp & Hlen & Hcl & _).
  cbn [Pool.this Pool.env] in *. eexists. split.
  { unfold step. cbv [bind gets]. rewrite Hc. exact (call_run _ _ _ _ _ _ Hp Hrun). }
  split; [by eapply call_inv|]. cbn. split_and!; try done.
  by rewrite length_insert.
Qed.

Lemma construct_inv r cls :
  registry_inv r ->
  registry_inv (snd (step (Construct cls) r)).
Proof.
  intros H. unfold step. cbv [bind zoom new_object gets modify ret]. cbn.
  split; cbn; try apply H.
  intros ref p Hp. eapply well_formed_mono; [by apply (inv_wf r H ref)|].
  cbn. rewrite length_app. lia.
Qed.

(** Every step keeps the registry in order and the registered pools in
    place; only an [acquire] registers a pool, and it always does. *)
Lemma step_inv r (x : op) :
  registry_inv r ->
  registry_inv (snd (step x r)) /\
  (forall cls ref, Registry.pools r !! cls = Some ref ->
                   Registry.pools (snd (step x r)) !! cls = Some ref) /\
  (forall cls, is_Some (Registry.pools (snd (step x r)) !! cls) ->
               is_Some (Registry.pools r !! cls) \/ x = Acquire cls) /\
  (forall cls, x = Acquire cls -> is_Some (Registry.pools (snd (step x r)) !! cls)) /\
  (counts_ok x -> totalPooled (Registry.env r) <= totalPooled (Registry.env (snd (step x r)))) /\
  (length (Registry.heap (snd (step x r))) = length (Registry.heap r) \/
   exists cls, x = Acquire cls /\ Registry.pools r !! cls = None).
Proof.
  intros H. destruct x as [cls|o|cls n|cls].
  - assert (Hstep : forall o r', Registry.acquire cls r = (Ok o, r') ->
                                 snd (step (Acquire cls) r) = r').
    { intros o r' E. unfold step. cbv [bind ret]. by rewrite E. }
    destruct (Registry.pools r !! cls) as [ref|] eqn:Hc.
    + destruct (acquire_registered _ _ _ H Hc) as (o & r' & E & Hinv & Hp & Hh & Htp & _).
      rewrite (Hstep _ _ E), Hp. split_and!; try done.
      * intros c Hs. by left.
      * intros c [= ->]. by eexists.
      * by left.
    + destruct (acquire_unseen _ _ H Hc)
        as (o & r' & p & E & Hinv & Hp & _ & _ & _ & _ & _ & Htp & _).
      rewrite (Hstep _ _ E), Hp. split_and!; try done.
      * intros c ref Hcr. rewrite lookup_insert_ne; [done|]. congruence.
      * intros c Hs. apply lookup_insert_is_Some in Hs as [->|[_ ?]]; [by right|by left].
      * intros c [= ->]. rewrite lookup_insert_eq. by eexists.
      * intros _. rewrite Htp. unfold Registry.INITIAL_POOL_SIZE. lia.
      * right. by exists cls.
  - cbn [step]. destruct (objects (Registry.env r) !! o) as [x|] eqn:Ho.
    + destruct (Registry.pools r !! Pooled.Class_fullName x) as [ref|] eqn:Hc.
      * destruct (release_registered _ _ _ _ H Ho Hc) as (res & r' & E & Hinv & _ & Hp & Hh & Htp).
        rewrite E. cbn [snd]. rewrite Hp. split_and!; try done.
        -- intros c Hs. by left.
        -- intros _. lia.
        -- by left.
      * rewrite (release_unregistered _ _ _ Ho Hc). cbn [snd]. split_and!; try done.
        -- intros c Hs. by left.
        -- by left.
    + rewrite (release_unknown_object _ _ Ho). cbn [snd]. split_and!; try done.
      * intros c Hs. by left.
      * by left.
  - destruct (Registry.pools r !! cls) as [ref|] eqn:Hc.
    + destruct (expand_registered _ _ _ n H Hc) as (r' & E & Hinv & Hp & Hh & Htp).
      rewrite E. cbn [snd]. rewrite Hp. split_and!; try done.
      * intros c Hs. by left.
      * cbn. intros Hn. lia.
      * by left.
    + unfold step. cbv [bind gets ret]. rewrite Hc. cbn [snd]. split_and!; try done.
      * intros c Hs. by left.
      * by left.
  - split; [by apply construct_inv|]. unfold step.
    cbv [bind zoom new_object gets modify ret]. cbn. split_and!; try done.
    + intros c Hs. by left.
    + by left.
Qed.

Lemma run_snoc ops (x : op) r : run (ops ++ [x]) r = snd (step x (run ops r)).
Proof. unfold run. by rewrite foldl_snoc. Qed.

Lemma run_inv ops : registry_inv (run ops Registry.empty).
Proof.
  induction ops as [|x ops IH] using rev_ind; [apply registry_inv_empty|].
  rewrite run_snoc. by apply step_inv.
Qed.

(** The registered names are the classes that were acquired. *)
Lemma run_pools ops cls :
  is_Some (Registry.pools (run ops Registry.empty) !! cls) <-> Acquire cls ∈ ops.
Proof.
  induction ops as [|x ops IH] using rev_ind.
  - cbn. rewrite lookup_empty. split; [by intros [? ?]|]. intros Hin.
    by apply elem_of_nil in Hin.
  - rewrite run_snoc.
    destruct (step_inv _ x (run_inv ops)) as (_ & Hkeep & Hnew & Hacq & _ & _).
    rewrite elem_of_app, list_elem_of_singleton. split.
    + intros Hs. apply Hnew in Hs as [Hs| ->]; [left; by apply IH|by right].
    + intros [Hin|Heq].
      * apply IH in Hin as [ref Hin]. exists ref. by apply Hkeep.
      * by apply Hacq.
Qed.

End RegistrySteps.

(** C8.  After any program over the registry, the static [release] of a
    constructed object throws the no-pool error exactly when no pool is
    registered for the class of the object, which is exactly when that
    class was never acquired; the error names the class and nothing is
    changed.  When a pool is registered for the class, the call is the
    call of [release] on that pool, a Pool of that class. *)
Theorem release_throws_no_pool_iff_unregistered
    (ops : list op) (o : oid) (x : Pooled.t) :
  objects (Registry.env (run ops Registry.empty)) !! o = Some x ->
  ((exists c, fst (Registry.release o (run ops Registry.empty)) = Throw (NoSuchPool c)) <->
   Registry.pools (run ops Registry.empty) !! Pooled.Class_fullName x = None) /\
  (Registry.pools (run ops Registry.empty) !! Pooled.Class_fullName x = None <->
   Acquire (Pooled.Class_fullName x) ∉ ops) /\
  (Registry.pools (run ops Registry.empty) !! Pooled.Class_fullName x = None ->
   Registry.release o (run ops Registry.empty) =
     (Throw (NoSuchPool (Pooled.Class_fullName x)), run ops Registry.empty)) /\
  (forall ref,
      Registry.pools (run ops Registry.empty) !! Pooled.Class_fullName x = Some ref ->
      Registry.release o (run ops Registry.empty) =
        Registry.call ref (Pool.release o) (run ops Registry.empty) /\
      exists p,
        Registry.heap (run ops Registry.empty) !! ref = Some p /\
        Pool.classType p = Pooled.Class_fullName x).
Proof.
  intros Ho. pose proof (run_inv ops) as H. split_and!.
  - split.
    + intros [c Hc].
      destruct (Registry.pools (run ops Registry.empty) !! Pooled.Class_fullName x)
        as [ref|] eqn:Hp; [|done].
      destruct (release_registered _ _ _ _ H Ho Hp) as (res & r' & E & _ & Hres & _).
      rewrite E in Hc. cbn in Hc. destruct Hres as [->|[id ->]]; discriminate.
    + intros Hp. exists (Pooled.Class_fullName x).
      by rewrite (release_unregistered _ _ _ Ho Hp).
  - rewrite <- run_pools. rewrite eq_None_not_Some. done.
  - intros Hp. by apply release_unregistered.
  - intros ref Hp. split; [by apply (release_delegates _ _ x)|].
    by apply (inv_registered _ H).
Qed.

(** An instance of C8: a Point constructed by hand, after Sprites only
    were acquired. *)
Lemma release_throws_no_pool_iff_unregistered_witness :
  objects (Registry.env (run [Acquire "Sprite"; Construct "Point"] Registry.empty)) !! 1%nat =
    Some (Pooled.mk "Point" false) /\
  Registry.release 1 (run [Acquire "Sprite"; Construct "Point"] Registry.empty) =
    (Throw (NoSuchPool "Point"), run [Acquire "Sprite"; Construct "Point"] Registry.empty).
Proof.
  assert (H : objects (Registry.env (run [Acquire "Sprite"; Construct "Point"] Registry.empty))
                !! 1%nat = Some (Pooled.mk "Point" false)) by (vm_compute; reflexivity).
  split; [exact H|].
  apply (release_throws_no_pool_iff_unregistered
           [Acquire "Sprite"; Construct "Point"] 1%nat (Pooled.mk "Point" false) H).
  vm_compute. reflexivity.
Defined.

(** * More of the keyed node list: iteration, clear and sort *)

Section Iteration.

Implicit Types (s : gmap nref LinkedNode.t) (kr : list (oid * nref))
  (L : LinkedList.t) (l : list oid).

Lemma walk_next_dseg s kr : forall p fuel,
  dseg s p kr None -> (length kr < fuel)%nat ->
  walk LinkedNode.nextLinked s fuel (head_or kr None) = kr.*1.
Proof.
  induction kr as [|[k r] kr IH]; intros p fuel Hd Hlt.
  - by destruct fuel.
  - destruct fuel as [|fuel]; [cbn in Hlt; lia|].
    destruct Hd as [Hr Hd]. cbn [head_or walk]. rewrite Hr. cbn.
    f_equal. apply (IH (Some r)); [done|]. cbn in Hlt. lia.
Qed.


(** A list object has at least as many nodes as members. *)
Lemma linked_length_le L kr :
  linked L kr -> (length kr <= size (LinkedList.nodes L))%nat.
Proof.
  intros H. pose proof (linked_refs_nodup _ _ H) as Hnd.
  rewrite <- (length_fmap snd kr), <- size_dom.
  rewrite <- (size_list_to_set (C := gset nref) _ Hnd).
  apply subseteq_size. intros r Hr. apply elem_of_list_to_set in Hr.
  destruct (dseg_lookup_ref _ _ _ _ _ (linked_links _ _ H) Hr) as (nd & Hnd' & _).
  apply elem_of_dom. by exists nd.
Qed.

Lemma forwards_linked L kr : linked L kr -> forwards L = kr.*1.
Proof.
  intros H. pose proof (linked_length_le _ _ H) as Hle.
  unfold forwards. rewrite (linked_first _ _ H).
  apply (walk_next_dseg _ _ None); [apply H|lia].
Qed.

End Iteration.



Section ClearSort.

Implicit Types (s : gmap nref LinkedNode.t) (kr : list (oid * nref))
  (L : LinkedList.t) (l : list oid).

Lemma set_nodes_twice s s' L :
  LinkedList.set_nodes s' (LinkedList.set_nodes s L) = LinkedList.set_nodes s' L.
Proof. by destruct L. Qed.

(** The loop of [clear] along a segment: it ends, every node of the
    segment is marked free and nothing else is written. *)
Lemma clear_loop_dseg kr : forall p L fuel,
  dseg (LinkedList.nodes L) p kr None -> NoDup kr.*2 -> (length kr < fuel)%nat ->
  exists s',
    LinkedList.clear_loop fuel (head_or kr None) L =
      Some (Ok tt, LinkedList.set_nodes s' L) /\
    (forall r, r ∈ kr.*2 ->
               s' !! r = LinkedNode.set_free true <$> LinkedList.nodes L !! r) /\
    (forall r, r ∉ kr.*2 -> s' !! r = LinkedList.nodes L !! r).
Proof.
  induction kr as [|[k r] kr IH]; intros p L fuel Hd Hnd Hlt.
  - exists (LinkedList.nodes L). cbn. split_and!; [by destruct L, fuel| |done].
    intros r Hr. by apply elem_of_nil in Hr.
  - destruct fuel as [|fuel]; [cbn in Hlt; lia|].
    destruct Hd as [Hr Hd]. cbn in Hnd. apply NoDup_cons in Hnd as [Hrn Hnd].
    set (L1 := LinkedList.set_nodes
                 (alter (LinkedNode.set_free true) r (LinkedList.nodes L)) L).
    destruct (IH (Some r) L1 fuel) as (s' & Hrun & Hin & Hout).
    { destruct L; cbn. eapply dseg_ext; [|exact Hd]. intros r' Hr'. cbn.
      apply lookup_alter_ne. by intros ->. }
    { done. }
    { cbn in Hlt. lia. }
    exists s'. split_and!.
    + cbn [head_or LinkedList.clear_loop]. munfold. mlookup. rewrite Hr. munfold.
      fold L1. rewrite Hrun. unfold L1. by rewrite set_nodes_twice.
    + intros r' Hr'. cbn in Hr'. apply elem_of_cons in Hr' as [->|Hr'].
      * rewrite (Hout r Hrn). destruct L; cbn. by mlookup.
      * rewrite (Hin r' Hr'). assert (r <> r') by (by intros ->).
        destruct L; cbn. by mlookup.
    + intros r' Hr'. cbn in Hr'. apply not_elem_of_cons in Hr' as [Hne Hr'].
      rewrite (Hout r' Hr'). destruct L; cbn. by mlookup.
Qed.

Lemma clear_linked L kr fuel :
  linked L kr -> (length kr < fuel)%nat ->
  exists L',
    LinkedList.clear fuel L = Some (Ok tt, L') /\
    linked L' [] /\
    LinkedList.count L' = 0 /\
    LinkedList.first L' = None /\
    LinkedList.last L' = LinkedList.last L /\
    LinkedList.uniqueId L' = LinkedList.uniqueId L /\
    LinkedList.objToNodeMap L' = LinkedList.objToNodeMap L /\
    (forall r, LinkedList.nodes L' !! r =
               (if bool_decide (r ∈ kr.*2)
                then LinkedNode.set_free true <$> LinkedList.nodes L !! r
                else LinkedList.nodes L !! r)).
Proof.
  intros H Hlt.
  destruct (clear_loop_dseg kr None L fuel (linked_links _ _ H) (linked_refs_nodup _ _ H) Hlt)
    as (s' & Hrun & Hin & Hout).
  eexists. split.
  { unfold LinkedList.clear. rewrite (linked_first _ _ H), Hrun. reflexivity. }
  assert (Hnodes : forall r, s' !! r =
            (if bool_decide (r ∈ kr.*2)
             then LinkedNode.set_free true <$> LinkedList.nodes L !! r
             else LinkedList.nodes L !! r)).
  { intros r. case_bool_decide; [by apply Hin|by apply Hout]. }
  destruct L as [id f la c mp s]; cbn in *. split_and!; try done.
  split; cbn; try done.
  - constructor.
  - intros k r Hk. by apply elem_of_nil in Hk.
  - intros k r Hk. destruct (linked_cached _ _ H _ _ Hk) as (nd & Hnd & Hobj & Hfree).
    cbn in *. rewrite Hnodes, Hnd. case_bool_decide.
    + eexists. split; [done|]. done.
    + exists nd. split_and!; [done..|]. intros _. apply Hfree.
      intros Hin'. destruct (linked_key_elem _ _ _ H Hin') as (r' & Hr' & Hk').
      cbn in Hk'. assert (r' = r) as -> by congruence.
      apply H0. apply list_elem_of_fmap. by exists (k, r).
Qed.

(** The first loop of [sort] along a segment. *)
Lemma toArray_dseg kr : forall p L fuel acc,
  dseg (LinkedList.nodes L) p kr None -> (length kr < fuel)%nat ->
  LinkedList.toArray fuel (head_or kr None) acc L = Some (Ok (acc ++ kr.*1), L).
Proof.
  induction kr as [|[k r] kr IH]; intros p L fuel acc Hd Hlt.
  - cbn. rewrite app_nil_r. by destruct fuel.
  - destruct fuel as [|fuel]; [cbn in Hlt; lia|].
    destruct Hd as [Hr Hd]. cbn [head_or LinkedList.toArray]. munfold.
    rewrite Hr. munfold. rewrite Hr. munfold.
    rewrite (IH (Some r)); [|done|cbn in Hlt; lia].
    by rewrite <- app_assoc.
Qed.

(** Adding, one after the other, objects that all have a cached node and
    are not in the list: each gets its node back, at the end. *)
Lemma add_each_reuse arr : forall L kr,
  linked L kr ->
  NoDup (kr.*1 ++ arr) ->
  (forall o, o ∈ arr -> is_Some (LinkedList.objToNodeMap L !! o)) ->
  exists L',
    LinkedList.add_each arr L = (Ok tt, L') /\
    repr L' (kr.*1 ++ arr) /\
    LinkedList.objToNodeMap L' = LinkedList.objToNodeMap L /\
    LinkedList.uniqueId L' = LinkedList.uniqueId L /\
    dom (LinkedList.nodes L') = dom (LinkedList.nodes L).
Proof.
  induction arr as [|o arr IH]; intros L kr H Hnd Hcached.
  - exists L. rewrite app_nil_r. split_and!; try done. by exists kr.
  - destruct (Hcached o) as [r Hmo]; [left|].
    assert (Ho : o ∉ kr.*1).
    { apply NoDup_app in Hnd as (_ & Hd & _). intros Hin. apply (Hd o Hin). left. }
    destruct (linked_cached _ _ H _ _ Hmo) as (nd & Hnd' & _ & Hfree).
    destruct (add_reuse L kr o r nd H Hmo Hnd' (Hfree Ho))
      as (L1 & Hrun & HL1 & Hm & Hid & Hdom).
    destruct (IH L1 (kr ++ [(o, r)]) HL1) as (L' & Hrun' & HL' & Hm' & Hid' & Hdom').
    { rewrite fmap_app. cbn. by rewrite <- app_assoc. }
    { intros o' Ho'. rewrite Hm. apply Hcached. by right. }
    exists L'. split_and!.
    + cbn [LinkedList.add_each]. cbv [bind]. by rewrite Hrun.
    + rewrite fmap_app in HL'. cbn in HL'. by rewrite <- app_assoc in HL'.
    + congruence.
    + congruence.
    + congruence.
Qed.

End ClearSort.

(** X2.  On a list holding the objects [l], [clear()] ends (within any
    bound above the number of members) and returns normally; the list
    then holds no object, [count] is 0, [first] is null and [has] is
    false for every object.  It keeps the Hashtable and every node, with
    the object and both links of each node as they were, and it leaves
    [last] as it was. *)
Theorem clear_frees_every_node (L : LinkedList.t) (l : list oid) (fuel : nat) :
  repr L l -> (length l < fuel)%nat ->
  exists L',
    LinkedList.clear fuel L = Some (Ok tt, L') /\
    repr L' [] /\
    LinkedList.count L' = 0 /\
    LinkedList.first L' = None /\
    LinkedList.last L' = LinkedList.last L /\
    (forall o, has_obj L' o = false) /\
    LinkedList.objToNodeMap L' = LinkedList.objToNodeMap L /\
    (forall r nd,
        LinkedList.nodes L !! r = Some nd ->
        exists nd',
          LinkedList.nodes L' !! r = Some nd' /\
          LinkedNode.obj nd' = LinkedNode.obj nd /\
          LinkedNode.nextLinked nd' = LinkedNode.nextLinked nd /\
          LinkedNode.prevLinked nd' = LinkedNode.prevLinked nd).
Proof.
  intros (kr & H & <-) Hlt. rewrite length_fmap in Hlt.
  destruct (clear_linked _ _ _ H Hlt)
    as (L' & Hrun & HL' & Hc & Hf & Hla & _ & Hm & Hnodes).
  assert (Hrepr : repr L' []) by (by exists []).
  exists L'. split_and!; try done.
  - intros o. rewrite (has_obj_repr _ _ _ Hrepr). apply bool_decide_eq_false_2.
    intros Hin. by apply elem_of_nil in Hin.
  - intros r nd Hnd. rewrite Hnodes, Hnd. case_bool_decide; by eexists.
Qed.

(** An instance of X2: the list of 13, 11 and 12. *)
Lemma clear_frees_every_node_witness :
  exists L',
    LinkedList.clear 4 (list_of 0 [13; 11; 12]%nat) = Some (Ok tt, L') /\
    repr L' [] /\
    LinkedList.count L' = 0.
Proof.
  assert (Hr : repr (list_of 0 [13; 11; 12]%nat) [13; 11; 12]%nat).
  { apply list_of_repr. apply (bool_decide_unpack _). vm_compute. exact I. }
  assert (Hlt : (length [13; 11; 12]%nat < 4)%nat) by (cbn; lia).
  destruct (clear_frees_every_node _ _ 4%nat Hr Hlt) as (L' & H1 & H2 & H3 & _).
  exists L'. split; [exact H1|]. split; [exact H2|exact H3].
Defined.

(** X3.  On a list holding the objects [l], [sort(compare)] ends and
    returns normally whenever the array sort it calls gives back a
    rearrangement of the array: the list then holds the objects in the
    order the array sort produced, iteration visits them in that order,
    [count] is what it was, and every object is linked through the node
    it had (the Hashtable is unchanged and no node is constructed). *)
Theorem sort_relinks_in_sorted_order
    (arraySort : list oid -> list oid) (L : LinkedList.t) (l : list oid) (fuel : nat) :
  repr L l -> arraySort l ≡ₚ l -> (length l < fuel)%nat ->
  exists L',
    LinkedList.sort arraySort fuel L = Some (Ok tt, L') /\
    repr L' (arraySort l) /\
    forwards L' = arraySort l /\
    LinkedList.count L' = LinkedList.count L /\
    LinkedList.objToNodeMap L' = LinkedList.objToNodeMap L /\
    dom (LinkedList.nodes L') = dom (LinkedList.nodes L).
Proof.
  intros (kr & H & <-) Hperm Hlt. rewrite length_fmap in Hlt.
  pose proof (toArray_dseg kr None L fuel [] (linked_links _ _ H) Hlt) as Harr.
  destruct (clear_linked _ _ _ H Hlt)
    as (L0 & Hclear & HL0 & _ & _ & _ & _ & Hm0 & Hnodes0).
  destruct (add_each_reuse (arraySort kr.*1) L0 [] HL0) as (L' & Hadd & HL' & Hm & _ & Hdom).
  { cbn. rewrite Hperm. apply H. }
  { intros o Ho. rewrite Hm0. rewrite Hperm in Ho.
    destruct (linked_key_elem _ _ _ H Ho) as (r & _ & Hr). by exists r. }
  cbn [fmap list_fmap app] in HL'.
  exists L'. split_and!.
  - unfold LinkedList.sort. rewrite (linked_first _ _ H), Harr. cbn [app].
    rewrite Hclear. by rewrite Hadd.
  - done.
  - destruct HL' as (kr' & HL' & <-). by apply forwards_linked.
  - rewrite (repr_count _ _ HL'), (linked_count _ _ H), Hperm, length_fmap. done.
  - congruence.
  - rewrite Hdom. apply set_eq. intros r. rewrite !elem_of_dom, Hnodes0.
    case_bool_decide; [|done]. by rewrite fmap_is_Some.
Qed.

(** * More of the keyed node list: moveUp and moveDown *)

(** Running a statement that reads two nodes whose records are known. *)
Ltac mrun2 H1 H2 :=
  repeat progress
    (munfold; mlookup; rewrite ?H1, ?H2;
     rewrite ?bool_decide_eq_true_2 by done;
     rewrite ?bool_decide_eq_false_2 by congruence).

Section Moves.

Implicit Types (s : gmap nref LinkedNode.t) (kr : list (oid * nref))
  (L : LinkedList.t) (l : list oid).

Lemma last_or_elem kr k r p : exists x, last_or ((k, r) :: kr) p = Some x /\ x ∈ ((k, r) :: kr).*2.
Proof.
  destruct (list.last ((k, r) :: kr)) as [[k' x]|] eqn:E.
  - exists x. unfold last_or. rewrite E. split; [done|].
    apply last_Some_elem_of in E. apply list_elem_of_fmap. by exists (k', x).
  - by apply last_None in E.
Qed.

Lemma fseg_ext s s' kr n :
  (forall r, r ∈ kr.*2 -> s' !! r = s !! r) -> fseg s kr n -> fseg s' kr n.
Proof.
  induction kr as [|[k r] kr IH]; intros Hext; [done|].
  cbn. intros [Hk Hl]. split.
  - rewrite Hext; [done|]. left.
  - apply IH; [|done]. intros r' Hr'. apply Hext. by right.
Qed.

Lemma fseg_app s kr1 kr2 n :
  fseg s (kr1 ++ kr2) n <-> fseg s kr1 (head_or kr2 n) /\ fseg s kr2 n.
Proof.
  induction kr1 as [|[k r] kr1 IH].
  - cbn. tauto.
  - cbn [app fseg]. rewrite IH, head_or_app. tauto.
Qed.

Lemma dseg_fseg s p kr n : dseg s p kr n -> fseg s kr n.
Proof.
  revert p. induction kr as [|[k r] kr IH]; intros p; [done|].
  intros [Hr Hd]. split; [by eexists|]. by eapply IH.
Qed.

Lemma walk_next_fseg s kr : forall fuel,
  fseg s kr None -> (length kr < fuel)%nat ->
  walk LinkedNode.nextLinked s fuel (head_or kr None) = kr.*1.
Proof.
  induction kr as [|[k r] kr IH]; intros fuel Hd Hlt.
  - by destruct fuel.
  - destruct fuel as [|fuel]; [cbn in Hlt; lia|].
    destruct Hd as [(nd & Hr & Hobj & Hnext) Hd]. cbn [head_or walk].
    rewrite Hr, Hobj, Hnext. cbn. f_equal. apply IH; [done|]. cbn in Hlt. lia.
Qed.

(** What [moveUp] writes when the node has a node before it. *)
Lemma moveUp_linked L kr0 kb b kc c rest :
  linked L (kr0 ++ (kb, b) :: (kc, c) :: rest) ->
  exists L',
    LinkedList.moveUp kc L = (Ok tt, L') /\
    LinkedList.objToNodeMap L' = LinkedList.objToNodeMap L /\
    LinkedList.count L' = LinkedList.count L /\
    LinkedList.uniqueId L' = LinkedList.uniqueId L /\
    LinkedList.first L' = head_or kr0 (Some c) /\
    LinkedList.last L' = last_or rest (Some b) /\
    LinkedList.nodes L' !! c =
      Some (LinkedNode.mk kc (Some b) (last_or kr0 None) false) /\
    LinkedList.nodes L' !! b =
      Some (LinkedNode.mk kb (head_or rest None) (Some c) false) /\
    (forall a, last_or kr0 None = Some a ->
               LinkedList.nodes L' !! a =
                 LinkedNode.set_nextLinked (Some c) <$> LinkedList.nodes L !! a) /\
    (forall r, r <> b -> r <> c -> last_or kr0 None <> Some r ->
               LinkedList.nodes L' !! r = LinkedList.nodes L !! r) /\
    dom (LinkedList.nodes L') = dom (LinkedList.nodes L).
Proof.
  intros H.
  pose proof (linked_refs_nodup _ _ H) as Hrefs.
  pose proof (linked_links _ _ H) as Hlinks.
  pose proof (linked_first _ _ H) as Hfirst.
  pose proof (linked_last _ _ H ltac:(by destruct kr0)) as Hlast.
  assert (Hmc : LinkedList.objToNodeMap L !! kc = Some c).
  { apply H. apply elem_of_app. right. right. left. }
  apply dseg_app in Hlinks as [Hl0 [Hb [Hc Hrest]]]. cbn [head_or] in Hl0, Hb.
  rewrite fmap_app, !fmap_cons in Hrefs. cbn [snd] in Hrefs.
  apply NoDup_app in Hrefs as (Hrefs0 & Hrefs0x & Hrefs1).
  apply NoDup_cons in Hrefs1 as [Hb1 Hrefs1].
  apply NoDup_cons in Hrefs1 as [Hc1 Hrefs1].
  assert (Hbc : b <> c) by (intros ->; apply Hb1; left).
  assert (Hb0 : b ∉ kr0.*2) by (intros Hin; apply (Hrefs0x b Hin); left).
  assert (Hc0 : c ∉ kr0.*2) by (intros Hin; apply (Hrefs0x c Hin); right; left).
  rewrite head_or_app in Hfirst. cbn [head_or] in Hfirst.
  assert (Hlast' : LinkedList.last L = last_or rest (Some c)).
  { rewrite Hlast. unfold last_or. rewrite last_app, !last_cons.
    by destruct (list.last rest). }
  clear Hlast.
  assert (Hla : (rest = [] /\ LinkedList.last L = Some c) \/
                (rest <> [] /\ LinkedList.last L <> Some c /\
                 last_or rest (Some b) = LinkedList.last L)).
  { destruct rest as [|[kd d] rest']; [left; by rewrite Hlast'|right].
    split; [done|]. rewrite Hlast'.
    destruct (last_or_elem rest' kd d (Some c)) as (x & Hx & Hin).
    split; [|apply last_or_cons_any].
    rewrite Hx. intros [= ->]. by apply Hc1. }
  assert (Hfi : (kr0 = [] /\ LinkedList.first L = Some b) \/
                (kr0 <> [] /\ LinkedList.first L <> Some b /\
                 head_or kr0 (Some c) = LinkedList.first L)).
  { destruct kr0 as [|[k0 r0] kr0']; [left; by rewrite Hfirst|right].
    split; [done|]. rewrite Hfirst. cbn. split; [|done].
    intros [= ->]. apply Hb0. left. }
  assert (Hprev :
    (kr0 = [] /\ last_or kr0 None = None) \/
    (exists a, last_or kr0 None = Some a /\ a <> b /\ a <> c)).
  { destruct (list.last kr0) as [[ka a]|] eqn:E.
    - right. exists a. unfold last_or. rewrite E. split; [done|].
      apply last_Some_elem_of in E.
      assert (a ∈ kr0.*2) by (apply list_elem_of_fmap; by exists (ka, a)).
      split; intros ->; done.
    - left. apply last_None in E. by subst. }
  destruct L as [id f la cnt mp s]; cbn in *.
  destruct Hprev as [[-> Hp]|(a & Hp & Hab & Hac)];
    rewrite Hp in Hb |- *;
    destruct Hla as [[-> Hla]|(Hrne & Hla & Hla')];
    destruct Hfi as [[Hk0 Hfi]|(Hk0 & Hfi & Hfi')]; try done;
    subst; cbn [head_or last_or] in *;
    try (unfold last_or in Hp; cbn in Hp; discriminate).
  - eexists. split.
    { unfold LinkedList.moveUp. munfold. rewrite Hmc. mrun2 Hc Hb. reflexivity. }
    cbn. split_and!; try done; try (by mlookup; rewrite ?Hc, ?Hb);
      try (by rewrite !dom_alter_L).
    intros r ? ? _. by mlookup.
  - eexists. split.
    { unfold LinkedList.moveUp. munfold. rewrite Hmc. mrun2 Hc Hb. reflexivity. }
    cbn. split_and!; try done; try (by mlookup; rewrite ?Hc, ?Hb);
      try (by rewrite !dom_alter_L).
    intros r ? ? _. by mlookup.
  - eexists. split.
    { unfold LinkedList.moveUp. munfold. rewrite Hmc. mrun2 Hc Hb. reflexivity. }
    cbn. split_and!; try done; try (by mlookup; rewrite ?Hc, ?Hb);
      try (by rewrite !dom_alter_L).
    + intros a' [= <-]. by mlookup.
    + intros r ? ? Hr. assert (a <> r) by congruence. by mlookup.
  - eexists. split.
    { unfold LinkedList.moveUp. munfold. rewrite Hmc. mrun2 Hc Hb. reflexivity. }
    cbn. split_and!; try done; try (by mlookup; rewrite ?Hc, ?Hb);
      try (by rewrite !dom_alter_L).
    + intros a' [= <-]. by mlookup.
    + intros r ? ? Hr. assert (a <> r) by congruence. by mlookup.
Qed.

(** The frame of a rearrangement: what has to hold of the new list
    object for it to be linked with the same nodes in another order. *)
Lemma linked_rearranged L L' kr kr' :
  linked L kr ->
  kr' ≡ₚ kr ->
  LinkedList.objToNodeMap L' = LinkedList.objToNodeMap L ->
  dseg (LinkedList.nodes L') None kr' None ->
  LinkedList.first L' = head_or kr' None ->
  (kr' <> [] -> LinkedList.last L' = last_or kr' None) ->
  LinkedList.count L' = LinkedList.count L ->
  (forall r, r ∉ kr.*2 -> LinkedList.nodes L' !! r = LinkedList.nodes L !! r) ->
  linked L' kr'.
Proof.
  intros H Hperm Hm Hlinks Hfirst Hlast Hcount Hframe. split; try done.
  - rewrite Hperm. apply H.
  - intros k r Hin. rewrite Hm. apply H. by rewrite <- Hperm.
  - rewrite Hcount, (linked_count _ _ H). by rewrite Hperm.
  - intros k r Hk. rewrite Hm in Hk.
    destruct (decide (k ∈ kr.*1)) as [Hin|Hnin].
    + destruct (linked_key_elem _ _ _ H Hin) as (r' & Hin' & Hk').
      assert (r' = r) as -> by congruence.
      rewrite <- Hperm in Hin'.
      destruct (dseg_lookup _ _ _ _ _ _ Hlinks Hin') as (nd & Hnd & Hobj & Hfr).
      exists nd. split_and!; [done..|].
      intros Hn. exfalso. apply Hn. apply list_elem_of_fmap. by exists (k, r).
    + assert (Hr : r ∉ kr.*2).
      { intros Hin. destruct (linked_ref_elem _ _ _ H Hin) as (k' & Hin' & Hk').
        assert (k' = k) as -> by (by eapply linked_map_inj).
        apply Hnin. apply list_elem_of_fmap. by exists (k, r). }
      rewrite (Hframe _ Hr).
      destruct (linked_cached _ _ H _ _ Hk) as (nd & Hnd & Hobj & Hfr).
      exists nd. split_and!; [done..|]. intros _. by apply Hfr.
Qed.

(** [moveDown] of a node is [moveUp] of the node after it: the check of
    [last] that follows the call never finds the node it looks for. *)
Lemma moveDown_linked L kr0 kb b kc c rest :
  linked L (kr0 ++ (kb, b) :: (kc, c) :: rest) ->
  LinkedList.moveDown kb L = LinkedList.moveUp kc L.
Proof.
  intros H. destruct (moveUp_linked _ _ _ _ _ _ _ H) as (L' & Hrun & _ & _ & _ & _ & Hlast & _).
  pose proof (linked_links _ _ H) as Hlinks.
  apply dseg_app in Hlinks as [_ [Hb [Hc _]]]. cbn [head_or] in Hb.
  assert (Hmb : LinkedList.objToNodeMap L !! kb = Some b).
  { apply H. apply elem_of_app. right. left. }
  pose proof (linked_refs_nodup _ _ H) as Hrefs.
  rewrite fmap_app, !fmap_cons in Hrefs. cbn [snd] in Hrefs.
  apply NoDup_app in Hrefs as (_ & _ & Hrefs).
  apply NoDup_cons in Hrefs as [Hb1 Hrefs]. apply NoDup_cons in Hrefs as [Hc1 _].
  assert (Hne : LinkedList.last L' <> Some c).
  { rewrite Hlast. destruct rest as [|[kd d] rest'].
    - cbn. intros [= ->]. apply Hb1. left.
    - destruct (last_or_elem rest' kd d (Some b)) as (x & -> & Hin).
      intros [= ->]. by apply Hc1. }
  unfold LinkedList.moveDown. munfold. rewrite Hmb. munfold. rewrite Hb. munfold.
  rewrite Hc. munfold. rewrite Hrun.
  rewrite bool_decide_eq_false_2 by done. by destruct L'.
Qed.

(** In a linked list a node that points back at a node is the node
    that node points on to. *)
Lemma dseg_prev_next s kr k x nd y :
  dseg s None kr None -> (k, x) ∈ kr -> s !! x = Some nd ->
  LinkedNode.prevLinked nd = Some y ->
  exists ndy, s !! y = Some ndy /\ LinkedNode.nextLinked ndy = Some x.
Proof.
  intros Hd Hin Hx Hy. apply list_elem_of_split in Hin as (kr1 & kr2 & ->).
  pose proof (dseg_middle _ _ _ _ _ _ _ Hd) as Hx'. rewrite Hx in Hx'.
  injection Hx' as ->. cbn in Hy.
  destruct (list.last kr1) as [[ky y']|] eqn:E.
  - apply last_Some in E as [kr1' ->]. rewrite last_or_snoc in Hy. injection Hy as ->.
    rewrite <- app_assoc in Hd. cbn in Hd.
    pose proof (dseg_middle _ _ _ _ _ _ _ Hd) as Hy'. eexists. split; [exact Hy'|done].
  - unfold last_or in Hy. by rewrite E in Hy.
Qed.

End Moves.

Section MoveResults.

Implicit Types (s : gmap nref LinkedNode.t) (kr : list (oid * nref))
  (L : LinkedList.t) (l : list oid).

Lemma has_obj_unfold L (o : oid) :
  has_obj L o =
  match LinkedList.objToNodeMap L !! o with
  | None => false
  | Some r =>
      match LinkedList.nodes L !! r with
      | Some nd => negb (LinkedNode.free nd)
      | None => false
      end
  end.
Proof.
  unfold has_obj, LinkedList.has. munfold.
  destruct (LinkedList.objToNodeMap L !! o) as [r|]; [|done]. munfold.
  by destruct (LinkedList.nodes L !! r).
Qed.

(** The forward links after [moveUp], the node of the moved object
    having a node before it. *)
Lemma moveUp_forward L kr0 kb b kc c rest L' :
  linked L (kr0 ++ (kb, b) :: (kc, c) :: rest) ->
  LinkedList.moveUp kc L = (Ok tt, L') ->
  fseg (LinkedList.nodes L') (kr0 ++ (kc, c) :: (kb, b) :: rest) None /\
  forwards L' = (kr0 ++ (kc, c) :: (kb, b) :: rest).*1.
Proof.
  intros H Hrun.
  destruct (moveUp_linked _ _ _ _ _ _ _ H)
    as (L'' & Hrun' & _ & _ & _ & Hfirst & _ & Hc & Hb & Ha & Hframe & Hdom).
  rewrite Hrun' in Hrun. injection Hrun as ->.
  pose proof (linked_refs_nodup _ _ H) as Hrefs.
  pose proof (linked_links _ _ H) as Hlinks.
  pose proof (linked_length_le _ _ H) as Hle.
  apply dseg_app in Hlinks as [Hl0 [_ [_ Hrest]]]. cbn [head_or] in Hl0.
  rewrite fmap_app, !fmap_cons in Hrefs. cbn [snd] in Hrefs.
  apply NoDup_app in Hrefs as (Hrefs0 & Hrefs0x & Hrefs1).
  apply NoDup_cons in Hrefs1 as [Hb1 Hrefs1].
  apply NoDup_cons in Hrefs1 as [Hc1 Hrefs1].
  assert (Hfs : fseg (LinkedList.nodes L') (kr0 ++ (kc, c) :: (kb, b) :: rest) None).
  { apply fseg_app. split.
    - cbn [head_or]. destruct (list.last kr0) as [[ka a]|] eqn:E.
      + apply last_Some in E as [kr0' ->].
        rewrite fmap_app in Hrefs0, Hrefs0x. cbn in Hrefs0, Hrefs0x.
        apply NoDup_app in Hrefs0 as (_ & Hd0 & _).
        apply dseg_app in Hl0 as [Hl0 [Haa _]]. cbn [head_or] in Hl0.
        apply fseg_app. split.
        * cbn [head_or]. apply (fseg_ext (LinkedList.nodes L)); [|by eapply dseg_fseg].
          intros r Hr. apply Hframe.
          -- intros ->. apply (Hrefs0x b); [in_list|left].
          -- intros ->. apply (Hrefs0x c); [in_list|right; left].
          -- rewrite last_or_snoc. intros [= Heq]. subst r. apply (Hd0 a Hr). left.
        * cbn. split; [|done]. rewrite (Ha a) by apply last_or_snoc.
          rewrite Haa. cbn. by eexists.
      + apply last_None in E. by subst.
    - cbn. split; [by eexists|]. split; [by eexists|].
      apply (fseg_ext (LinkedList.nodes L)); [|by eapply dseg_fseg].
      intros r Hr. apply Hframe.
      + intros ->. apply Hb1. by right.
      + by intros ->.
      + intros Hlast. destruct (list.last kr0) as [[ka a]|] eqn:E.
        * unfold last_or in Hlast. rewrite E in Hlast. injection Hlast as ->.
          apply last_Some_elem_of in E.
          apply (Hrefs0x r); [apply list_elem_of_fmap; by exists (ka, r)|].
          right. by right.
        * unfold last_or in Hlast. by rewrite E in Hlast. }
  split; [done|].
  unfold forwards. rewrite Hfirst.
  replace (head_or kr0 (Some c)) with (head_or (kr0 ++ (kc, c) :: (kb, b) :: rest) None)
    by (by rewrite head_or_app).
  apply walk_next_fseg; [done|].
  rewrite <- size_dom, Hdom, size_dom.
  rewrite !length_app in *. cbn [length] in *. lia.
Qed.

End MoveResults.

(** X4.  On a list holding the objects [l]: [moveUp] of the first object
    and [moveDown] of the last object return normally and change
    nothing; for an object that never had a node in this list both throw
    the not-in-list error and change nothing. *)
Theorem moves_at_the_ends_change_nothing (L : LinkedList.t) (l : list oid) (o : oid) :
  repr L l ->
  (forall l', l = o :: l' -> LinkedList.moveUp o L = (Ok tt, L)) /\
  (forall l', l = l' ++ [o] -> LinkedList.moveDown o L = (Ok tt, L)) /\
  (LinkedList.objToNodeMap L !! o = None ->
   LinkedList.moveUp o L = (Throw NotInList, L) /\
   LinkedList.moveDown o L = (Throw NotInList, L)).
Proof.
  intros (kr & H & <-). split_and!.
  - intros l' Hl. destruct kr as [|[k r] kr]; [done|]. injection Hl as -> _.
    pose proof (linked_links _ _ H) as [Hr _].
    assert (Hm : LinkedList.objToNodeMap L !! o = Some r) by (apply H; left).
    unfold LinkedList.moveUp. munfold. rewrite Hm. munfold. by rewrite Hr.
  - intros l' Hl. apply fmap_app_inv in Hl as (kr1 & kr2 & _ & Hl2 & ->).
    destruct kr2 as [|[k r] [|]]; try done. injection Hl2 as ->.
    pose proof (dseg_middle _ _ _ _ _ _ _ (linked_links _ _ H)) as Hr.
    assert (Hm : LinkedList.objToNodeMap L !! k = Some r).
    { apply H. apply elem_of_app. right. left. }
    unfold LinkedList.moveDown. munfold. rewrite Hm. munfold. by rewrite Hr.
  - intros Hm. unfold LinkedList.moveUp, LinkedList.moveDown. munfold.
    by rewrite Hm.
Qed.

(** An instance of X4: the list of 11, 12 and 13, and the object 11. *)
Lemma moves_at_the_ends_change_nothing_witness :
  LinkedList.moveUp 11 (list_of 0 [11; 12; 13]%nat) = (Ok tt, list_of 0 [11; 12; 13]%nat) /\
  LinkedList.moveDown 13 (list_of 0 [11; 12; 13]%nat) = (Ok tt, list_of 0 [11; 12; 13]%nat).
Proof.
  assert (Hrepr : repr (list_of 0 [11; 12; 13]%nat) [11; 12; 13]%nat).
  { apply list_of_repr. apply (bool_decide_unpack _). vm_compute. exact I. }
  split.
  - apply (proj1 (moves_at_the_ends_change_nothing _ _ 11%nat Hrepr) [12; 13]%nat).
    reflexivity.
  - apply (proj1 (proj2 (moves_at_the_ends_change_nothing _ _ 13%nat Hrepr)) [11; 12]%nat).
    reflexivity.
Defined.

(** X5.  On a list whose last two objects are [b] and [c], [moveUp(c)]
    returns normally and leaves a well-linked list in which exactly
    those two are transposed; [moveDown(b)] does the same. *)
Theorem moveUp_of_last_member_swaps (L : LinkedList.t) (l0 : list oid) (b c : oid) :
  repr L (l0 ++ [b; c]) ->
  exists L',
    LinkedList.moveUp c L = (Ok tt, L') /\
    LinkedList.moveDown b L = (Ok tt, L') /\
    repr L' (l0 ++ [c; b]) /\
    LinkedList.count L' = LinkedList.count L.
Proof.
  intros (kr & H & Hl).
  apply fmap_app_inv in Hl as (kr0 & kr2 & -> & Hl2 & ->).
  destruct kr2 as [|[kb rb] [|[kc rc] [|]]]; try done. injection Hl2 as -> ->.
  destruct (moveUp_linked _ _ _ _ _ _ _ H)
    as (L' & Hrun & Hm & Hcnt & _ & Hfirst & Hlast & Hc & Hb & Ha & Hframe & _).
  pose proof (moveUp_forward _ _ _ _ _ _ _ _ H Hrun) as [_ Hfw].
  pose proof (linked_refs_nodup _ _ H) as Hrefs.
  pose proof (linked_links _ _ H) as Hlinks.
  apply dseg_app in Hlinks as [Hl0 _]. cbn [head_or] in Hl0.
  rewrite fmap_app, !fmap_cons in Hrefs. cbn [snd fmap list_fmap] in Hrefs.
  apply NoDup_app in Hrefs as (Hrefs0 & Hrefs0x & Hrefs1).
  exists L'. split_and!; [done| | |done].
  { by rewrite (moveDown_linked _ _ _ _ _ _ _ H). }
  exists (kr0 ++ [(kc, rc); (kb, rb)]). split; [|by rewrite fmap_app].
  eapply (linked_rearranged L); try done.
  - apply Permutation_app_head. apply perm_swap.
  - apply dseg_app. split.
    + cbn [head_or]. destruct (list.last kr0) as [[ka a]|] eqn:E.
      * apply last_Some in E as [kr0' ->].
        rewrite fmap_app in Hrefs0, Hrefs0x. cbn in Hrefs0, Hrefs0x.
        apply NoDup_app in Hrefs0 as (_ & Hd0 & _).
        eapply dseg_snoc_next; [exact Hl0| |].
        -- intros r Hr. apply Hframe.
           ++ intros ->. apply (Hrefs0x rb); [in_list|left].
           ++ intros ->. apply (Hrefs0x rc); [in_list|right; left].
           ++ rewrite last_or_snoc. intros [= Heq]. subst r. apply (Hd0 a Hr). left.
        -- apply Ha. apply last_or_snoc.
      * apply last_None in E. by subst.
    + cbn. by rewrite Hc, Hb.
  - by rewrite Hfirst, head_or_app.
  - intros _. rewrite Hlast. unfold last_or. rewrite last_app. done.
  - intros r Hr. rewrite fmap_app in Hr. cbn in Hr. apply Hframe.
    + intros ->. apply Hr. in_list.
    + intros ->. apply Hr. in_list.
    + intros Hla. destruct (list.last kr0) as [[ka a]|] eqn:E.
      * unfold last_or in Hla. rewrite E in Hla. injection Hla as ->.
        apply last_Some_elem_of in E. apply Hr. apply elem_of_app. left.
        apply list_elem_of_fmap. by exists (ka, r).
      * unfold last_or in Hla. by rewrite E in Hla.
Qed.

(** An instance of X5: the list of 11, 12 and 13. *)
Lemma moveUp_of_last_member_swaps_witness :
  exists L',
    LinkedList.moveUp 13 (list_of 0 [11; 12; 13]%nat) = (Ok tt, L') /\
    LinkedList.moveDown 12 (list_of 0 [11; 12; 13]%nat) = (Ok tt, L') /\
    repr L' ([11%nat] ++ [13; 12]%nat) /\
    LinkedList.count L' = LinkedList.count (list_of 0 [11; 12; 13]%nat).
Proof.
  apply (moveUp_of_last_member_swaps (list_of 0 [11; 12; 13]%nat) [11%nat] 12%nat 13%nat).
  apply (list_of_repr 0 [11; 12; 13]%nat). apply (bool_decide_unpack _). vm_compute. exact I.
Defined.

(** X6.  On a list in which [c] follows [b], [moveDown(b)] is the same
    as [moveUp(c)]: the same result and the same list afterwards. *)
Theorem moveDown_is_moveUp_of_successor
    (L : LinkedList.t) (l0 rest : list oid) (b c : oid) :
  repr L (l0 ++ b :: c :: rest) ->
  LinkedList.moveDown b L = LinkedList.moveUp c L.
Proof.
  intros (kr & H & Hl).
  apply fmap_app_inv in Hl as (kr0 & kr2 & -> & Hl2 & ->).
  destruct kr2 as [|[kb rb] [|[kc rc] kr2]]; try done. injection Hl2 as -> -> ->.
  by eapply moveDown_linked.
Qed.

(** An instance of X6: the list of 11, 12, 13 and 14. *)
Lemma moveDown_is_moveUp_of_successor_witness :
  LinkedList.moveDown 12 (list_of 0 [11; 12; 13; 14]%nat) =
  LinkedList.moveUp 13 (list_of 0 [11; 12; 13; 14]%nat).
Proof.
  apply (moveDown_is_moveUp_of_successor
           (list_of 0 [11; 12; 13; 14]%nat) [11%nat] [14%nat] 12%nat 13%nat).
  apply (list_of_repr 0 [11; 12; 13; 14]%nat). apply (bool_decide_unpack _).
  vm_compute. exact I.
Defined.

(** X7.  On a list in which [c] follows [b], [moveUp(c)] returns
    normally, iteration from [first] along [next()] then visits the
    objects with [b] and [c] transposed, and [count] and the answers of
    [has] are unchanged.  When [c] was not the last object, the list is
    no longer well linked afterwards: the node after [b] still points
    back at the node of [c], so the list object holds no list at all. *)
Theorem moveUp_swaps_forwards_breaks_back_link
    (L : LinkedList.t) (l0 rest : list oid) (b c : oid) :
  repr L (l0 ++ b :: c :: rest) ->
  exists L',
    LinkedList.moveUp c L = (Ok tt, L') /\
    forwards L' = l0 ++ c :: b :: rest /\
    LinkedList.count L' = LinkedList.count L /\
    (forall o, has_obj L' o = has_obj L o) /\
    (rest <> [] -> forall l', ~ repr L' l').
Proof.
  intros (kr & H & Hl).
  apply fmap_app_inv in Hl as (kr0 & kr2 & -> & Hl2 & ->).
  destruct kr2 as [|[kb rb] [|[kc rc] kr2]]; try done. injection Hl2 as -> -> ->.
  destruct (moveUp_linked _ _ _ _ _ _ _ H)
    as (L' & Hrun & Hm & Hcnt & _ & _ & _ & Hc & Hb & Ha & Hframe & _).
  pose proof (moveUp_forward _ _ _ _ _ _ _ _ H Hrun) as [_ Hfw].
  pose proof (linked_refs_nodup _ _ H) as Hrefs.
  pose proof (linked_links _ _ H) as Hlinks.
  apply dseg_app in Hlinks as [Hl0 [Hb0 [Hc0 Hrest]]]. cbn [head_or] in Hl0, Hb0.
  rewrite fmap_app, !fmap_cons in Hrefs. cbn [snd] in Hrefs.
  apply NoDup_app in Hrefs as (Hrefs0 & Hrefs0x & Hrefs1).
  apply NoDup_cons in Hrefs1 as [Hb1 Hrefs1].
  apply NoDup_cons in Hrefs1 as [Hc1 Hrefs1].
  exists L'. split_and!; [done| |done| |].
  - rewrite Hfw, fmap_app. done.
  - intros o. rewrite !has_obj_unfold, Hm.
    destruct (LinkedList.objToNodeMap L !! o) as [r|]; [|done].
    destruct (decide (r = rb)) as [->|Hnb]; [by rewrite Hb, Hb0|].
    destruct (decide (r = rc)) as [->|Hnc]; [by rewrite Hc, Hc0|].
    destruct (decide (last_or kr0 None = Some r)) as [Hla|Hla].
    + rewrite (Ha r Hla). by destruct (LinkedList.nodes L !! r).
    + by rewrite Hframe.
  - intros Hne l' (kr' & H' & _).
    destruct kr2 as [|[kd rd] kr2]; [done|]. destruct Hrest as [Hd _].
    assert (Hd' : LinkedList.nodes L' !! rd = LinkedList.nodes L !! rd).
    { apply Hframe.
      - intros ->. apply Hb1. right. left.
      - intros ->. apply Hc1. left.
      - intros Hla. destruct (list.last kr0) as [[ka a]|] eqn:E.
        + unfold last_or in Hla. rewrite E in Hla. injection Hla as ->.
          apply last_Some_elem_of in E.
          apply (Hrefs0x rd); [apply list_elem_of_fmap; by exists (ka, rd)|].
          right. right. left.
        + unfold last_or in Hla. by rewrite E in Hla. }
    rewrite Hd in Hd'.
    assert (Hmd : LinkedList.objToNodeMap L' !! kd = Some rd).
    { rewrite Hm. apply H. apply elem_of_app. right. right. right. left. }
    assert (Hin : (kd, rd) ∈ kr').
    { destruct (decide (kd ∈ kr'.*1)) as [Hin|Hnin].
      - destruct (linked_key_elem _ _ _ H' Hin) as (r & Hin' & Hr). congruence.
      - destruct (linked_cached _ _ H' _ _ Hmd) as (nd & Hnd & _ & Hfree).
        specialize (Hfree Hnin). rewrite Hd' in Hnd. injection Hnd as <-. done. }
    destruct (dseg_prev_next _ _ _ _ _ rc (linked_links _ _ H') Hin Hd' eq_refl)
      as (ndc & Hndc & Hnext).
    rewrite Hc in Hndc. injection Hndc as <-. cbn in Hnext. injection Hnext as ->.
    apply Hb1. right. left.
Qed.

(** An instance of X7: the list of 11, 12, 13 and 14. *)
Lemma moveUp_swaps_forwards_breaks_back_link_witness :
  exists L',
    LinkedList.moveUp 13 (list_of 0 [11; 12; 13; 14]%nat) = (Ok tt, L') /\
    forwards L' = [11%nat] ++ 13%nat :: 12%nat :: [14%nat] /\
    LinkedList.count L' = LinkedList.count (list_of 0 [11; 12; 13; 14]%nat) /\
    (forall o, has_obj L' o = has_obj (list_of 0 [11; 12; 13; 14]%nat) o) /\
    ([14%nat] <> [] -> forall l', ~ repr L' l').
Proof.
  apply (moveUp_swaps_forwards_breaks_back_link
           (list_of 0 [11; 12; 13; 14]%nat) [11%nat] [14%nat] 12%nat 13%nat).
  apply (list_of_repr 0 [11; 12; 13; 14]%nat). apply (bool_decide_unpack _).
  vm_compute. exact I.
Defined.

(** An instance of X3: the list of 13, 11 and 12, sorted by merging. *)
Lemma sort_relinks_in_sorted_order_witness :
  exists L',
    LinkedList.sort (merge_sort Nat.le) 4 (list_of 0 [13; 11; 12]%nat) = Some (Ok tt, L') /\
    repr L' (merge_sort Nat.le [13; 11; 12]%nat) /\
    forwards L' = merge_sort Nat.le [13; 11; 12]%nat /\
    LinkedList.count L' = LinkedList.count (list_of 0 [13; 11; 12]%nat) /\
    LinkedList.objToNodeMap L' = LinkedList.objToNodeMap (list_of 0 [13; 11; 12]%nat) /\
    dom (LinkedList.nodes L') = dom (LinkedList.nodes (list_of 0 [13; 11; 12]%nat)).
Proof.
  apply (sort_relinks_in_sorted_order (merge_sort Nat.le)
           (list_of 0 [13; 11; 12]%nat) [13; 11; 12]%nat 4%nat).
  - apply list_of_repr. apply (bool_decide_unpack _). vm_compute. exact I.
  - apply merge_sort_Permutation.
  - cbn. lia.
Defined.

(** X8.  On a list holding the objects [l], [has(obj)] returns normally,
    changes nothing, and answers true exactly when [obj] is one of [l];
    [length()] answers the number of objects of [l]. *)
Theorem has_decides_membership (L : LinkedList.t) (l : list oid) (o : oid) :
  repr L l ->
  LinkedList.has o L = (Ok (bool_decide (o ∈ l)), L) /\
  LinkedList.length L = (Ok (Z.of_nat (length l)), L).
Proof.
  intros HL. split; [by apply has_repr|].
  unfold LinkedList.length, gets. by rewrite (repr_count _ _ HL).
Qed.

(** An instance of X8: the list of 11, 12 and 13, and the object 12. *)
Lemma has_decides_membership_witness :
  LinkedList.has 12 (list_of 0 [11; 12; 13]%nat) =
    (Ok (bool_decide (12%nat ∈ [11; 12; 13]%nat)), list_of 0 [11; 12; 13]%nat) /\
  LinkedList.length (list_of 0 [11; 12; 13]%nat) =
    (Ok (Z.of_nat (length [11; 12; 13]%nat)), list_of 0 [11; 12; 13]%nat).
Proof.
  apply (has_decides_membership (list_of 0 [11; 12; 13]%nat) [11; 12; 13]%nat 12%nat).
  apply list_of_repr. apply (bool_decide_unpack _). vm_compute. exact I.
Defined.

Lemma filter_others (o : oid) (l : list oid) :
  o ∉ l -> filter (fun x => x <> o) l = l.
Proof.
  induction l as [|x l IH]; intros Ho; [done|].
  apply not_elem_of_cons in Ho as [Hne Ho].
  rewrite filter_cons_True by (by intros ->). by rewrite IH.
Qed.

(** X9.  On a list holding the objects [l], [remove(obj)] returns
    normally and answers whether [obj] was one of [l]; the list then
    holds the objects of [l] other than [obj], in the order they had,
    and a second [remove(obj)] answers false and changes nothing. *)
Theorem remove_keeps_order_and_is_idempotent
    (L : LinkedList.t) (l : list oid) (o : oid) :
  repr L l ->
  exists L1,
    LinkedList.remove o L = (Ok (bool_decide (o ∈ l)), L1) /\
    repr L1 (filter (fun x => x <> o) l) /\
    LinkedList.remove o L1 = (Ok false, L1).
Proof.
  intros HL. destruct (decide (o ∈ l)) as [Hin|Hnin].
  - rewrite bool_decide_eq_true_2 by done.
    pose proof (repr_nodup _ _ HL) as Hnd.
    apply list_elem_of_split in Hin as (l1 & l2 & ->).
    apply NoDup_app in Hnd as (_ & Hd & Hnd2). apply NoDup_cons in Hnd2 as [Ho2 _].
    assert (Ho1 : o ∉ l1) by (intros Hin; apply (Hd o Hin); left).
    destruct (remove_repr _ _ _ _ HL) as (L1 & Hrun & HL1 & _).
    assert (Hf : filter (fun x => x <> o) (l1 ++ o :: l2) = l1 ++ l2).
    { rewrite filter_app, filter_cons_False by (intros Hne; by apply Hne).
      by rewrite !filter_others. }
    exists L1. rewrite Hf. split_and!; [done..|].
    apply (remove_repr_absent _ _ _ HL1). rewrite elem_of_app. tauto.
  - rewrite bool_decide_eq_false_2 by done.
    assert (Hf : filter (fun x => x <> o) l = l) by (by apply filter_others).
    exists L. rewrite Hf. split_and!; [|done|]; by apply (remove_repr_absent _ l).
Qed.

(** An instance of X9: the list of 11, 12 and 13, and the object 12. *)
Lemma remove_keeps_order_and_is_idempotent_witness :
  exists L1,
    LinkedList.remove 12 (list_of 0 [11; 12; 13]%nat) =
      (Ok (bool_decide (12%nat ∈ [11; 12; 13]%nat)), L1) /\
    repr L1 (filter (fun x => x <> 12%nat) [11; 12; 13]%nat) /\
    LinkedList.remove 12 L1 = (Ok false, L1).
Proof.
  apply (remove_keeps_order_and_is_idempotent
           (list_of 0 [11; 12; 13]%nat) [11; 12; 13]%nat 12%nat).
  apply list_of_repr. apply (bool_decide_unpack _). vm_compute. exact I.
Defined.

(** * More of the pool *)

(** X10.  On a well-formed pool [acquire()] never throws.  The object
    it returns was not on loan before the call; after the call it is on
    the used list and not on the free list, its [destroyed] flag is
    false, it is the pool's [returnObj], and the other objects on loan
    are the ones that were on loan. *)
Theorem acquire_hands_out_an_object_not_on_loan (s : Pool.state) :
  well_formed s ->
  exists o s',
    Pool.acquire s = (Ok o, s') /\
    has_obj (Pool.usedList (Pool.this s)) o = false /\
    has_obj (Pool.usedList (Pool.this s')) o = true /\
    has_obj (Pool.freeList (Pool.this s')) o = false /\
    Pooled.destroyed <$> objects (Pool.env s') !! o = Some false /\
    Pool.returnObj (Pool.this s') = Some o /\
    (forall o', o' <> o ->
       has_obj (Pool.usedList (Pool.this s')) o' = has_obj (Pool.usedList (Pool.this s)) o') /\
    well_formed s'.
Proof.
  intros (lf & lu & H). destruct s as [p g]; cbn [Pool.this Pool.env] in *.
  assert (Hmain : exists o lf' p1 g1 fl' ul',
    pool_wf p1 g1 (o :: lf') lu /\
    Pool.acquire (Pool.mkState p g) = acquire_tail (Pool.mkState p1 g1) /\
    acquire_tail (Pool.mkState p1 g1) =
      (Ok o, Pool.mkState (Pool.mk fl' ul' (Pool.initialSize p1) (Pool.classType p1) (Some o))
               (set_objects (alter (Pooled.set_destroyed false) o (objects g1)) g1)) /\
    pool_wf (Pool.mk fl' ul' (Pool.initialSize p1) (Pool.classType p1) (Some o))
      (set_objects (alter (Pooled.set_destroyed false) o (objects g1)) g1)
      lf' (lu ++ [o])).
  { destruct lf as [|o lf].
    - destruct (acquire_empty _ _ _ H) as (fl1 & _ & _ & Hacq & _ & Hwf1). cbn zeta in *.
      destruct (acquire_tail_spec _ _ _ _ _ Hwf1) as (fl' & ul' & Htail & _ & _ & Hwf').
      cbn zeta in *. by eexists _, _, _, _, fl', ul'.
    - destruct (acquire_tail_spec _ _ _ _ _ H) as (fl' & ul' & Htail & _ & _ & Hwf').
      cbn zeta in *. eexists _, _, _, _, fl', ul'. split; [exact H|].
      split; [by eapply acquire_nonempty|]. by split. }
  destruct Hmain as (o & lf' & p1 & g1 & fl' & ul' & Hwf1 & Hacq & Htail & Hwf').
  pose proof (wf_free _ _ _ _ Hwf') as Hf'. pose proof (wf_used _ _ _ _ Hwf') as Hu'.
  pose proof (repr_nodup _ _ Hu') as Hnd. pcbn in Hf'. pcbn in Hu'.
  apply NoDup_app in Hnd as (_ & Hd & _).
  assert (Hou : o ∉ lu) by (intros Hin; apply (Hd o Hin); left).
  exists o. eexists. split; [etransitivity; [exact Hacq|exact Htail]|]. pcbn.
  split_and!.
  - rewrite (has_obj_repr _ _ _ (wf_used _ _ _ _ H)). by apply bool_decide_eq_false_2.
  - rewrite (has_obj_repr _ _ _ Hu'). apply bool_decide_eq_true_2. in_list.
  - rewrite (has_obj_repr _ _ _ Hf'). apply bool_decide_eq_false_2.
    intros Hin. apply (wf_disjoint _ _ _ _ Hwf' o Hin). in_list.
  - apply destroyed_after_write. apply (wf_free_lt _ _ _ _ _ Hwf1). left.
  - done.
  - intros o' Hne. rewrite (has_obj_repr _ _ _ Hu'), (has_obj_repr _ _ _ (wf_used _ _ _ _ H)).
    apply bool_decide_ext. rewrite elem_of_app, list_elem_of_singleton. tauto.
  - eexists _, _. exact Hwf'.
Qed.

(** An instance of X10: the pool of one Point, which is on loan. *)
Lemma acquire_hands_out_an_object_not_on_loan_witness :
  exists o s',
    Pool.acquire lent_pool = (Ok o, s') /\
    has_obj (Pool.usedList (Pool.this lent_pool)) o = false /\
    has_obj (Pool.usedList (Pool.this s')) o = true.
Proof.
  destruct (acquire_hands_out_an_object_not_on_loan lent_pool well_formed_lent_pool)
    as (o & s' & H1 & H2 & H3 & _).
  exists o, s'. split; [exact H1|]. split; [exact H2|exact H3].
Defined.

Lemma forwards_repr (L : LinkedList.t) (l : list oid) : repr L l -> forwards L = l.
Proof. intros (kr & H & <-). by apply forwards_linked. Qed.



(** X12.  On a well-formed pool, [release] of an object on loan followed
    by [acquire()]: neither throws, no object is constructed and
    [totalPooled] stays.  The released object goes to the end of the free
    list, so the [acquire] hands out the object that was first on the
    free list, and the released object itself only when the free list
    was empty. *)
Theorem release_then_acquire_recycles_oldest_free (s : Pool.state) (o : oid) :
  well_formed s ->
  has_obj (Pool.usedList (Pool.this s)) o = true ->
  exists s1 o' s2,
    Pool.release o s = (Ok tt, s1) /\
    Pool.acquire s1 = (Ok o', s2) /\
    head (forwards (Pool.freeList (Pool.this s)) ++ [o]) = Some o' /\
    forwards (Pool.freeList (Pool.this s2)) =
      tail (forwards (Pool.freeList (Pool.this s)) ++ [o]) /\
    forwards (Pool.usedList (Pool.this s2)) =
      filter (fun x => x <> o) (forwards (Pool.usedList (Pool.this s))) ++ [o'] /\
    length (objects (Pool.env s2)) = length (objects (Pool.env s)) /\
    totalPooled (Pool.env s2) = totalPooled (Pool.env s) /\
    well_formed s2.
Proof.
  intros (lf & lu & H) Hhas. destruct s as [p g]; cbn [Pool.this Pool.env] in *.
  rewrite (has_obj_repr _ _ _ (wf_used _ _ _ _ H)) in Hhas.
  apply bool_decide_eq_true_1 in Hhas.
  pose proof (repr_nodup _ _ (wf_used _ _ _ _ H)) as Hnd.
  apply list_elem_of_split in Hhas as (lu1 & lu2 & ->).
  assert (Hfilter : filter (fun x => x <> o) (lu1 ++ o :: lu2) = lu1 ++ lu2).
  { apply NoDup_app in Hnd as (_ & Hd & Hnd2). apply NoDup_cons in Hnd2 as [Ho2 _].
    rewrite filter_app, filter_cons_False by (intros Hx; by apply Hx).
    rewrite !filter_others; [done|done|]. intros Hin. apply (Hd o Hin). left. }
  destruct (release_used _ _ _ _ _ _ H) as (fl1 & ul1 & Hrel & _ & _ & Hwf1).
  cbn zeta in *.
  destruct (lf ++ [o]) as [|o' lf'] eqn:Hlf.
  { apply (f_equal length) in Hlf. rewrite length_app in Hlf. cbn in Hlf. lia. }
  destruct (acquire_tail_spec _ _ _ _ _ Hwf1) as (fl2 & ul2 & Htail & _ & _ & Hwf2).
  cbn zeta in *.
  eexists _, o', _. split; [exact Hrel|].
  split; [etransitivity; [by eapply acquire_nonempty|exact Htail]|].
  pose proof (wf_free _ _ _ _ Hwf2) as Hf2. pose proof (wf_used _ _ _ _ Hwf2) as Hu2.
  pcbn in Hf2. pcbn in Hu2. pcbn.
  rewrite (forwards_repr _ _ (wf_free _ _ _ _ H)), (forwards_repr _ _ (wf_used _ _ _ _ H)).
  rewrite (forwards_repr _ _ Hf2), (forwards_repr _ _ Hu2), Hlf, Hfilter.
  split_and!; try done.
  - by rewrite !length_alter.
  - eexists _, _. exact Hwf2.
Qed.

(** An instance of X12: the pool of one Point, which is on loan. *)
Lemma release_then_acquire_recycles_oldest_free_witness :
  has_obj (Pool.usedList (Pool.this lent_pool)) 0 = true /\
  exists s1 o' s2,
    Pool.release 0 lent_pool = (Ok tt, s1) /\
    Pool.acquire s1 = (Ok o', s2) /\
    head (forwards (Pool.freeList (Pool.this lent_pool)) ++ [0%nat]) = Some o'.
Proof.
  assert (Hhas : has_obj (Pool.usedList (Pool.this lent_pool)) 0 = true)
    by (vm_compute; reflexivity).
  split; [exact Hhas|].
  destruct (release_then_acquire_recycles_oldest_free lent_pool 0 well_formed_lent_pool Hhas)
    as (s1 & o' & s2 & H1 & H2 & H3 & _).
  exists s1, o', s2. split; [exact H1|]. split; [exact H2|exact H3].
Defined.


(** * The classes of the objects in the pools *)

Section PoolClasses.

Implicit Types (p : Pool.t) (g : Globals) (objs : list Pooled.t).

Lemma objs_ext_refl objs : objs_ext objs objs.
Proof. by split. Qed.

Lemma objs_ext_trans objs1 objs2 objs3 :
  objs_ext objs1 objs2 -> objs_ext objs2 objs3 -> objs_ext objs1 objs3.
Proof.
  intros [Hl1 H1] [Hl2 H2]. split; [lia|].
  intros o Ho. rewrite H2 by lia. by apply H1.
Qed.

Lemma objs_ext_app objs l : objs_ext objs (objs ++ l).
Proof.
  split; [rewrite length_app; lia|].
  intros o Ho. unfold class_of. by rewrite lookup_app_l.
Qed.

Lemma objs_ext_alter objs (o : oid) v :
  objs_ext objs (alter (Pooled.set_destroyed v) o objs).
Proof.
  split; [by rewrite length_alter|].
  intros o' _. unfold class_of. destruct (decide (o' = o)) as [->|Hne].
  - rewrite list_lookup_alter_eq. by destruct (_ !! _).
  - by rewrite list_lookup_alter_ne.
Qed.

Lemma class_of_new objs n cls (o : oid) :
  (length objs <= o < length objs + n)%nat ->
  class_of (objs ++ replicate n (Pooled.mk cls false)) o = Some cls.
Proof.
  intros Ho. unfold class_of. rewrite lookup_app_r by lia.
  rewrite lookup_replicate_2 by lia. done.
Qed.

Lemma pool_typed_wf p g : pool_typed p g -> well_formed (Pool.mkState p g).
Proof. intros (lf & lu & H & _). by exists lf, lu. Qed.

(** What other code does to the store does not disturb a pool. *)
Lemma pool_typed_mono p g g' :
  pool_typed p g -> objs_ext (objects g) (objects g') -> pool_typed p g'.
Proof.
  intros (lf & lu & H & Hcls) [Hle Hext]. exists lf, lu.
  split; [by eapply pool_wf_mono|].
  intros o Ho. rewrite Hext; [by apply Hcls|].
  apply elem_of_app in Ho as [Ho|Ho];
    [by eapply wf_free_lt|by eapply wf_used_lt].
Qed.

Lemma expand_typed (k : Z) p g :
  pool_typed p g ->
  exists s',
    Pool.expand k (Pool.mkState p g) = (Ok tt, s') /\
    pool_typed (Pool.this s') (Pool.env s') /\
    Pool.classType (Pool.this s') = Pool.classType p /\
    objs_ext (objects g) (objects (Pool.env s')) /\
    totalPooled (Pool.env s') = totalPooled g + k /\
    length (objects (Pool.env s')) = (length (objects g) + Z.to_nat k)%nat.
Proof.
  intros (lf & lu & H & Hcls).
  destruct (expand_spec k _ _ _ _ H) as (fl' & Hrun & _ & Hwf). cbn zeta in *.
  eexists. split; [exact Hrun|]. pcbn. split_and!; try done.
  - eexists _, _. split; [exact Hwf|]. pcbn. intros o Ho.
    rewrite <- (assoc_L (++)) in Ho. apply elem_of_app in Ho as [Ho|Ho].
    + rewrite (proj2 (objs_ext_app _ _)); [apply Hcls; in_list|by eapply wf_free_lt].
    + apply elem_of_app in Ho as [Ho|Ho].
      * apply elem_of_seq in Ho. by apply class_of_new.
      * rewrite (proj2 (objs_ext_app _ _)); [apply Hcls; in_list|by eapply wf_used_lt].
  - apply objs_ext_app.
  - by rewrite length_app, length_replicate.
Qed.

(** The rest of [acquire], on a typed pool with a free object. *)
Lemma acquire_tail_typed p g (o : oid) lf lu :
  pool_wf p g (o :: lf) lu ->
  (forall o', o' ∈ (o :: lf) ++ lu -> class_of (objects g) o' = Some (Pool.classType p)) ->
  exists s',
    acquire_tail (Pool.mkState p g) = (Ok o, s') /\
    pool_typed (Pool.this s') (Pool.env s') /\
    Pool.classType (Pool.this s') = Pool.classType p /\
    objs_ext (objects g) (objects (Pool.env s')) /\
    totalPooled (Pool.env s') = totalPooled g /\
    length (objects (Pool.env s')) = length (objects g) /\
    has_obj (Pool.usedList (Pool.this s')) o = true /\
    objects (Pool.env s') !! o = Some (Pooled.mk (Pool.classType p) false).
Proof.
  intros H Hcls.
  destruct (acquire_tail_spec _ _ _ _ _ H) as (fl' & ul' & Htail & _ & _ & Hwf').
  cbn zeta in *. eexists. split; [exact Htail|]. pcbn.
  pose proof (objs_ext_alter (objects g) o false) as Hext.
  assert (Hlt : (o < length (objects g))%nat) by (eapply wf_free_lt; [exact H|left]).
  split_and!; try done.
  - eexists _, _. split; [exact Hwf'|]. pcbn. intros o' Ho'.
    rewrite (proj2 Hext).
    + apply Hcls. apply elem_of_app in Ho' as [Ho'|Ho']; [in_list|].
      apply elem_of_app in Ho' as [Ho'|Ho']; [in_list|].
      apply list_elem_of_singleton in Ho' as ->. in_list.
    + apply elem_of_app in Ho' as [Ho'|Ho'].
      * eapply wf_free_lt; [exact H|by right].
      * apply elem_of_app in Ho' as [Ho'|Ho']; [by eapply wf_used_lt|].
        by apply list_elem_of_singleton in Ho' as ->.
  - by rewrite length_alter.
  - pose proof (wf_used _ _ _ _ Hwf') as Hu'. pcbn in Hu'.
    rewrite (has_obj_repr _ _ _ Hu'). apply bool_decide_eq_true_2. in_list.
  - assert (Hc : class_of (objects g) o = Some (Pool.classType p)) by (apply Hcls; left).
    unfold class_of in Hc.
    destruct (objects g !! o) as [[c d]|] eqn:E; [|done]. cbn in Hc. injection Hc as ->.
    etransitivity; [apply list_lookup_alter_eq|].
    exact (f_equal (fmap (Pooled.set_destroyed false)) E).
Qed.

Lemma acquire_typed p g :
  pool_typed p g ->
  exists o s' k,
    Pool.acquire (Pool.mkState p g) = (Ok o, s') /\
    pool_typed (Pool.this s') (Pool.env s') /\
    Pool.classType (Pool.this s') = Pool.classType p /\
    objs_ext (objects g) (objects (Pool.env s')) /\
    0 <= k /\
    totalPooled (Pool.env s') = totalPooled g + k /\
    length (objects (Pool.env s')) = (length (objects g) + Z.to_nat k)%nat /\
    has_obj (Pool.usedList (Pool.this s')) o = true /\
    objects (Pool.env s') !! o = Some (Pooled.mk (Pool.classType p) false).
Proof.
  intros (lf & lu & H & Hcls). destruct lf as [|o lf].
  - destruct (acquire_empty _ _ _ H) as (fl1 & Hk & _ & Hacq & _ & Hwf1). cbn zeta in *.
    set (k := growth (size_of p)) in *.
    set (g1 := set_totalPooled _ _) in *.
    assert (Hcls1 : forall o', o' ∈ (length (objects g) :: seq (S (length (objects g)))
                                       (Z.to_nat k - 1)) ++ lu ->
                               class_of (objects g1) o' = Some (Pool.classType p)).
    { intros o' Ho'. unfold g1. pcbn. apply elem_of_app in Ho' as [Ho'|Ho'].
      - apply class_of_new. apply elem_of_cons in Ho' as [->|Ho']; [lia|].
        apply elem_of_seq in Ho'. lia.
      - rewrite (proj2 (objs_ext_app _ _)); [apply Hcls; in_list|by eapply wf_used_lt]. }
    destruct (acquire_tail_typed _ _ _ _ _ Hwf1 Hcls1)
      as (s' & Htail & Hty & Hc & Hext & Htp & Hlen & Hhas & Hobj).
    exists (length (objects g)), s', k.
    split; [etransitivity; [exact Hacq|exact Htail]|].
    split_and!; try done.
    + eapply objs_ext_trans; [|exact Hext]. unfold g1. pcbn. apply objs_ext_app.
    + lia.
    + rewrite Hlen. unfold g1. pcbn. by rewrite length_app, length_replicate.
  - destruct (acquire_tail_typed _ _ _ _ _ H Hcls)
      as (s' & Htail & Hty & Hc & Hext & Htp & Hlen & Hhas & Hobj).
    exists o, s', 0.
    split; [etransitivity; [by eapply acquire_nonempty|exact Htail]|].
    split_and!; try done; [lia|]. rewrite Hlen. cbn. lia.
Qed.

Lemma release_typed p g (o : oid) :
  pool_typed p g ->
  class_of (objects g) o = Some (Pool.classType p) ->
  exists res s',
    Pool.release o (Pool.mkState p g) = (res, s') /\
    pool_typed (Pool.this s') (Pool.env s') /\
    Pool.classType (Pool.this s') = Pool.classType p /\
    objs_ext (objects g) (objects (Pool.env s')) /\
    totalPooled (Pool.env s') = totalPooled g /\
    length (objects (Pool.env s')) = length (objects g).
Proof.
  intros (lf & lu & H & Hcls) Ho.
  assert (Hlt : (o < length (objects g))%nat).
  { unfold class_of in Ho. destruct (objects g !! o) eqn:E; [|done].
    by eapply lookup_lt_Some. }
  pose proof (objs_ext_alter (objects g) o true) as Hext.
  assert (Hkeep : forall lf' lu',
             (forall o', o' ∈ lf' ++ lu' -> o' = o \/ o' ∈ lf ++ lu) ->
             (forall o', o' ∈ lf' ++ lu' -> (o' < length (objects g))%nat) ->
             forall o', o' ∈ lf' ++ lu' ->
               class_of (alter (Pooled.set_destroyed true) o (objects g)) o' =
               Some (Pool.classType p)).
  { intros lf' lu' Hsub Hb o' Ho'. rewrite (proj2 Hext) by (by apply Hb).
    destruct (Hsub o' Ho') as [->|Hin]; [done|by apply Hcls]. }
  destruct (decide (o ∈ lf)) as [Hf|Hf].
  - exists (Throw (DuplicateAdd o (LinkedList.uniqueId (Pool.freeList p)))), (Pool.mkState p g).
    split; [by eapply release_free|]. pcbn. split_and!; try done.
    by exists lf, lu.
  - destruct (decide (o ∈ lu)) as [Hu|Hu].
    + apply list_elem_of_split in Hu as (lu1 & lu2 & ->).
      destruct (release_used _ _ _ _ _ _ H) as (fl' & ul' & Hrel & _ & _ & Hwf').
      cbn zeta in *. eexists _, _. split; [exact Hrel|]. pcbn. split_and!; try done.
      * eexists _, _. split; [exact Hwf'|]. pcbn. apply Hkeep.
        -- intros o' Ho'. rewrite !elem_of_app, list_elem_of_singleton in Ho'.
           rewrite !elem_of_app, elem_of_cons. tauto.
        -- intros o' Ho'. rewrite !elem_of_app, list_elem_of_singleton in Ho'.
           destruct Ho' as [[Ho'| ->]|Ho']; [by eapply wf_free_lt|done|].
           eapply wf_used_lt; [exact H|]. rewrite elem_of_app, elem_of_cons. tauto.
      * by rewrite length_alter.
    + destruct (release_foreign _ _ _ _ _ H Hf Hu Hlt) as (fl' & Hrel & _ & _ & Hwf').
      cbn zeta in *. eexists _, _. split; [exact Hrel|]. pcbn. split_and!; try done.
      * eexists _, _. split; [exact Hwf'|]. pcbn. apply Hkeep.
        -- intros o' Ho'. rewrite !elem_of_app, list_elem_of_singleton in Ho'.
           rewrite !elem_of_app. tauto.
        -- intros o' Ho'. rewrite !elem_of_app, list_elem_of_singleton in Ho'.
           destruct Ho' as [[Ho'| ->]|Ho']; [by eapply wf_free_lt|done|by eapply wf_used_lt].
      * by rewrite length_alter.
Qed.

End PoolClasses.

Section RegistryClasses.

Implicit Types (r : Registry.t) (p : Pool.t) (g : Globals).

Lemma registry_typed_empty : registry_typed Registry.empty.
Proof.
  split; [apply registry_inv_empty|]. cbn. intros ref p Hp.
  by rewrite lookup_nil in Hp.
Qed.

(** A method that keeps its pool typed keeps the registry typed. *)
Lemma call_typed ref r p s' :
  registry_typed r ->
  Registry.heap r !! ref = Some p ->
  pool_typed (Pool.this s') (Pool.env s') ->
  Pool.classType (Pool.this s') = Pool.classType p ->
  objs_ext (objects (Registry.env r)) (objects (Pool.env s')) ->
  registry_typed
    (Registry.set_env (Pool.env s')
       (Registry.set_heap (<[ref := Pool.this s']> (Registry.heap r)) r)).
Proof.
  intros [Hinv Hty] Hp Hs' Hcls Hext.
  pose proof (lookup_lt_Some _ _ _ Hp) as Hlt.
  split.
  - eapply call_inv; [done|done| |done|apply Hext].
    destruct s'. by apply pool_typed_wf.
  - cbn. intros i q Hq. destruct (decide (i = ref)) as [->|Hne].
    + rewrite list_lookup_insert_eq in Hq by done. by injection Hq as <-.
    + rewrite list_lookup_insert_ne in Hq by done.
      eapply pool_typed_mono; [by eapply Hty|done].
Qed.

Lemma init_typed cls (initial : Z) g :
  exists p g',
    Pool.init cls initial g = (Ok p, g') /\
    pool_typed p g' /\
    Pool.classType p = cls /\
    objs_ext (objects g) (objects g') /\
    totalPooled g' = totalPooled g + initial /\
    length (objects g') = (length (objects g) + Z.to_nat initial)%nat.
Proof.
  set (g2 := set_totalLists (S (S (totalLists g))) g).
  set (p0 := Pool.mk (LinkedList.init (totalLists g)) (LinkedList.init (S (totalLists g)))
               initial cls None).
  assert (H0 : pool_typed p0 g2).
  { exists [], []. split; [|intros o Ho; by apply elem_of_nil in Ho].
    split; cbn; try apply repr_init.
    - intros o Ho. by apply elem_of_nil in Ho.
    - intros k [r Hk]. by rewrite lookup_empty in Hk.
    - intros k [r Hk]. by rewrite lookup_empty in Hk. }
  destruct (expand_typed initial _ _ H0) as (s' & Hrun & Hty & Hcls & Hext & Htp & Hlen).
  assert (Hinit : Pool.init cls initial g =
                  match Pool.expand initial (Pool.mkState p0 g2) with
                  | (Ok _, s) => (Ok (Pool.this s), Pool.env s)
                  | (Throw e, s) => (Throw e, Pool.env s)
                  end) by reflexivity.
  rewrite Hrun in Hinit.
  exists (Pool.this s'), (Pool.env s'). split; [exact Hinit|]. by split_and!.
Qed.

(** Registering a new typed pool under an unseen name. *)
Lemma registry_typed_new_pool r cls p g' :
  registry_typed r ->
  Registry.pools r !! cls = None ->
  pool_typed p g' ->
  Pool.classType p = cls ->
  objs_ext (objects (Registry.env r)) (objects g') ->
  registry_typed
    (Registry.mk (<[cls := length (Registry.heap r)]> (Registry.pools r))
       (Registry.heap r ++ [p]) g').
Proof.
  intros [Hinv Hty] Hnone Hp Hcls Hext. split.
  - apply registry_inv_new_pool; [done|done|by apply pool_typed_wf|done|apply Hext].
  - cbn. intros i q Hq. apply lookup_app_Some in Hq as [Hq|[Hge Hq]].
    + eapply pool_typed_mono; [by eapply Hty|done].
    + by apply list_lookup_singleton_Some in Hq as [Hi <-].
Qed.

(** The static [acquire], on a typed registry. *)
Lemma registry_acquire_typed r cls :
  registry_typed r ->
  exists o r' ref p k,
    Registry.acquire cls r = (Ok o, r') /\
    registry_typed r' /\
    Registry.pools r' !! cls = Some ref /\
    Registry.heap r' !! ref = Some p /\
    Pool.classType p = cls /\
    has_obj (Pool.usedList p) o = true /\
    objects (Registry.env r') !! o = Some (Pooled.mk cls false) /\
    0 <= k /\
    totalPooled (Registry.env r') = totalPooled (Registry.env r) + k /\
    length (objects (Registry.env r')) =
      (length (objects (Registry.env r)) + Z.to_nat k)%nat.
Proof.
  intros H. destruct (Registry.pools r !! cls) as [ref|] eqn:Hc.
  - destruct (inv_registered r (typed_inv r H) cls ref Hc) as (p & Hp & Hcls).
    destruct (acquire_typed _ _ (typed_pools r H ref p Hp))
      as (o & s' & k & Hacq & Hty & Hcl & Hext & Hk & Htp & Hlen & Hhas & Hobj).
    pose proof (lookup_lt_Some _ _ _ Hp) as Hlt.
    exists o. eexists. exists ref, (Pool.this s'), k. split.
    { unfold Registry.acquire. unfold bind at 1, gets at 1. rewrite Hc.
      unfold bind at 1, ret at 1. exact (call_run _ _ _ _ _ _ Hp Hacq). }
    split; [by eapply call_typed|]. cbn. split_and!; try done.
    + by apply list_lookup_insert_eq.
    + congruence.
    + by rewrite <- Hcls.
  - destruct (init_typed cls Registry.INITIAL_POOL_SIZE (Registry.env r))
      as (p0 & g' & Hinit & Hty0 & Hcls0 & Hext0 & Htp0 & Hlen0).
    set (ref := length (Registry.heap r)).
    set (r1 := Registry.mk (<[cls := ref]> (Registry.pools r)) (Registry.heap r ++ [p0]) g').
    assert (H1 : registry_typed r1) by (by apply registry_typed_new_pool).
    assert (Hp0 : Registry.heap r1 !! ref = Some p0) by (cbn; by rewrite list_lookup_middle).
    destruct (acquire_typed _ _ Hty0)
      as (o & s' & k & Hacq & Hty & Hcl & Hext & Hk & Htp & Hlen & Hhas & Hobj).
    assert (Hnew : Registry.new_Pool cls Registry.INITIAL_POOL_SIZE r =
                   (Ok ref, Registry.mk (Registry.pools r) (Registry.heap r ++ [p0]) g')).
    { unfold Registry.new_Pool. cbv [bind zoom gets modify ret]. rewrite Hinit.
      by destruct r. }
    exists o. eexists. exists ref, (Pool.this s'), (Registry.INITIAL_POOL_SIZE + k). split.
    { unfold Registry.acquire. cbv [bind gets]. rewrite Hc, Hnew.
      cbv [modify ret]. cbv beta iota.
      exact (call_run ref Pool.acquire r1 p0 _ _ Hp0 Hacq). }
    split.
    { change (registry_typed
                (Registry.set_env (Pool.env s')
                   (Registry.set_heap (<[ref := Pool.this s']> (Registry.heap r1)) r1))).
      eapply call_typed; try done. }
    cbn. unfold Registry.INITIAL_POOL_SIZE in *. split_and!.
    + by rewrite lookup_insert_eq.
    + apply list_lookup_insert_eq. rewrite length_app. cbn. unfold ref. lia.
    + congruence.
    + done.
    + by rewrite <- Hcls0.
    + lia.
    + rewrite Htp, Htp0. lia.
    + rewrite Hlen, Hlen0. lia.
Qed.

(** Every step keeps the registry typed; a step whose count is a count
    adds to [totalPooled] the number of objects its pool constructs. *)
Lemma step_typed r (x : op) :
  registry_typed r ->
  registry_typed (snd (step x r)) /\
  (counts_ok x ->
   exists k, 0 <= k /\
     totalPooled (Registry.env (snd (step x r))) = totalPooled (Registry.env r) + k /\
     length (objects (Registry.env (snd (step x r)))) =
       (length (objects (Registry.env r)) + Z.to_nat k + constructs [x])%nat).
Proof.
  intros H. destruct x as [cls|o|cls n|cls].
  - destruct (registry_acquire_typed r cls H)
      as (o & r' & ref & p & k & E & H' & _ & _ & _ & _ & _ & Hk & Htp & Hlen).
    assert (Hstep : snd (step (Acquire cls) r) = r').
    { unfold step. cbv [bind ret]. by rewrite E. }
    rewrite Hstep. split; [done|]. intros _. exists k. cbn [constructs]. split_and!; [done..|lia].
  - assert (Hsame : forall res, step (Release o) r = (res, r) ->
              registry_typed (snd (step (Release o) r)) /\
              (counts_ok (Release o) ->
               exists k, 0 <= k /\
                 totalPooled (Registry.env (snd (step (Release o) r))) =
                   totalPooled (Registry.env r) + k /\
                 length (objects (Registry.env (snd (step (Release o) r)))) =
                   (length (objects (Registry.env r)) + Z.to_nat k +
                    constructs [Release o])%nat)).
    { intros res E. rewrite E. cbn [snd constructs]. split; [done|]. intros _.
      exists 0. split_and!; [lia|lia|]. cbn. lia. }
    destruct (objects (Registry.env r) !! o) as [x|] eqn:Ho.
    + destruct (Registry.pools r !! Pooled.Class_fullName x) as [ref|] eqn:Hc.
      * destruct (inv_registered r (typed_inv r H) _ ref Hc) as (p & Hp & Hcls).
        assert (Hcl : class_of (objects (Registry.env r)) o = Some (Pool.classType p)).
        { unfold class_of. rewrite Hcls.
          exact (f_equal (fmap Pooled.Class_fullName) Ho). }
        destruct (release_typed _ _ o (typed_pools r H ref p Hp) Hcl)
          as (res & s' & Hrel & Hty & Hcl' & Hext & Htp & Hlen).
        assert (E : step (Release o) r =
                    (res, Registry.set_env (Pool.env s')
                            (Registry.set_heap (<[ref := Pool.this s']> (Registry.heap r)) r))).
        { cbn [step]. rewrite (release_delegates _ _ _ _ Ho Hc).
          exact (call_run _ _ _ _ _ _ Hp Hrel). }
        rewrite E. cbn [snd constructs]. split; [by eapply call_typed|].
        intros _. exists 0. cbn. split_and!; [lia|lia|lia].
      * eapply Hsame. cbn [step]. by apply release_unregistered.
    + eapply Hsame. cbn [step]. by apply release_unknown_object.
  - destruct (Registry.pools r !! cls) as [ref|] eqn:Hc.
    + destruct (inv_registered r (typed_inv r H) _ ref Hc) as (p & Hp & Hcls).
      destruct (expand_typed n _ _ (typed_pools r H ref p Hp))
        as (s' & Hrun & Hty & Hcl & Hext & Htp & Hlen).
      assert (E : step (Expand cls n) r =
                  (Ok tt, Registry.set_env (Pool.env s')
                            (Registry.set_heap (<[ref := Pool.this s']> (Registry.heap r)) r))).
      { unfold step. cbv [bind gets]. rewrite Hc. exact (call_run _ _ _ _ _ _ Hp Hrun). }
      rewrite E. cbn [snd constructs]. split; [by eapply call_typed|].
      cbn. intros Hn. exists n. split_and!; [lia|lia|lia].
    + unfold step. cbv [bind gets ret]. rewrite Hc. cbn [snd constructs].
      split; [done|]. intros _. exists 0. split_and!; [lia|lia|]. cbn. lia.
  - unfold step. cbv [bind zoom new_object gets modify ret]. cbn. split.
    + split; [exact (construct_inv r cls (typed_inv r H))|].
      cbn. intros ref p Hp. eapply pool_typed_mono; [by eapply (typed_pools r H)|].
      cbn. apply objs_ext_app.
    + intros _. exists 0. rewrite length_app. cbn. split_and!; lia.
Qed.

Lemma run_typed ops : registry_typed (run ops Registry.empty).
Proof.
  induction ops as [|x ops IH] using rev_ind; [apply registry_typed_empty|].
  rewrite run_snoc. by apply step_typed.
Qed.


End RegistryClasses.

(** In a typed registry an object on a list of a Pool is of the class of
    that Pool, which is the one registered for the class, and it is not
    on both lists. *)
Lemma on_lists_typed (r : Registry.t) (ref : nat) (o : oid) :
  registry_typed r ->
  on_lists r ref o = true ->
  exists p x,
    Registry.heap r !! ref = Some p /\
    objects (Registry.env r) !! o = Some x /\
    Pooled.Class_fullName x = Pool.classType p /\
    Registry.pools r !! Pool.classType p = Some ref /\
    has_obj (Pool.freeList p) o && has_obj (Pool.usedList p) o = false.
Proof.
  intros H Hon. unfold on_lists in Hon.
  destruct (Registry.heap r !! ref) as [p|] eqn:Hp; [|discriminate].
  destruct (typed_pools r H ref p Hp) as (lf & lu & Hwf & Hcls).
  rewrite (has_obj_repr _ _ _ (wf_free _ _ _ _ Hwf)) in Hon.
  rewrite (has_obj_repr _ _ _ (wf_used _ _ _ _ Hwf)) in Hon.
  assert (Hin : o ∈ lf ++ lu).
  { apply orb_true_iff in Hon as [Hon|Hon]; apply bool_decide_eq_true_1 in Hon; in_list. }
  pose proof (Hcls o Hin) as Hc. unfold class_of in Hc.
  destruct (objects (Registry.env r) !! o) as [x|] eqn:Ho; [|discriminate].
  cbn in Hc. injection Hc as Hc.
  exists p, x. split_and!; try done.
  - by apply (inv_constructed r (typed_inv r H)).
  - rewrite (has_obj_repr _ _ _ (wf_free _ _ _ _ Hwf)).
    rewrite (has_obj_repr _ _ _ (wf_used _ _ _ _ Hwf)).
    destruct (decide (o ∈ lf)) as [Hf|Hf].
    + rewrite (bool_decide_eq_false_2 (o ∈ lu)); [apply andb_false_r|].
      by apply (wf_disjoint _ _ _ _ Hwf).
    + by rewrite (bool_decide_eq_false_2 (o ∈ lf)).
Qed.

(** X14.  After any program over the registry the static
    [acquire(classType)] never throws.  The object it returns is of the
    class asked for, has [destroyed] false and is on the used list of the
    Pool registered for that class, and no other Pool has it on a list. *)
Theorem static_acquire_returns_object_of_class (ops : list op) (cls : string) :
  exists o r' ref p,
    Registry.acquire cls (run ops Registry.empty) = (Ok o, r') /\
    Registry.pools r' !! cls = Some ref /\
    Registry.heap r' !! ref = Some p /\
    Pool.classType p = cls /\
    has_obj (Pool.usedList p) o = true /\
    objects (Registry.env r') !! o = Some (Pooled.mk cls false) /\
    (forall ref', on_lists r' ref' o = true -> ref' = ref).
Proof.
  destruct (registry_acquire_typed _ cls (run_typed ops))
    as (o & r' & ref & p & k & E & H' & Hc & Hp & Hcls & Hhas & Hobj & _).
  exists o, r', ref, p. split_and!; try done.
  intros ref' Hon.
  destruct (on_lists_typed _ _ _ H' Hon) as (p' & x & Hp' & Hx & Hcx & Hreg & _).
  rewrite Hobj in Hx. injection Hx as <-. cbn in Hcx. rewrite <- Hcx in Hreg. congruence.
Qed.

(** X15.  After any program over the registry, an object that a Pool has
    on one of its lists is a constructed object of the class of that
    Pool; the Pool is the one registered for the class, no other Pool
    has the object on a list, and the object is not on both lists. *)
Theorem pooled_object_is_in_the_pool_of_its_class
    (ops : list op) (ref : nat) (o : oid) :
  on_lists (run ops Registry.empty) ref o = true ->
  exists p x,
    Registry.heap (run ops Registry.empty) !! ref = Some p /\
    objects (Registry.env (run ops Registry.empty)) !! o = Some x /\
    Pooled.Class_fullName x = Pool.classType p /\
    Registry.pools (run ops Registry.empty) !! Pool.classType p = Some ref /\
    has_obj (Pool.freeList p) o && has_obj (Pool.usedList p) o = false /\
    (forall ref', on_lists (run ops Registry.empty) ref' o = true -> ref' = ref).
Proof.
  intros Hon. pose proof (run_typed ops) as H.
  destruct (on_lists_typed _ _ _ H Hon) as (p & x & Hp & Hx & Hcx & Hreg & Hdis).
  exists p, x. split_and!; try done.
  intros ref' Hon'.
  destruct (on_lists_typed _ _ _ H Hon') as (p' & x' & Hp' & Hx' & Hcx' & Hreg' & _).
  rewrite Hx in Hx'. injection Hx' as <-. rewrite <- Hcx' in Hreg'. rewrite <- Hcx in Hreg.
  congruence.
Qed.

(** An instance of X15: a Point and a Ball were acquired, a Point was
    constructed by hand and released; it is in the pool of Points. *)
Lemma pooled_object_is_in_the_pool_of_its_class_witness :
  exists p x,
    Registry.heap
      (run [Acquire "Point"; Acquire "Ball"; Construct "Point"; Release 2] Registry.empty)
      !! 0%nat = Some p /\
    objects
      (Registry.env
         (run [Acquire "Point"; Acquire "Ball"; Construct "Point"; Release 2] Registry.empty))
      !! 2%nat = Some x /\
    Pooled.Class_fullName x = Pool.classType p.
Proof.
  assert (Hon : on_lists
                  (run [Acquire "Point"; Acquire "Ball"; Construct "Point"; Release 2]
                     Registry.empty) 0 2 = true) by (vm_compute; reflexivity).
  destruct (pooled_object_is_in_the_pool_of_its_class
              [Acquire "Point"; Acquire "Ball"; Construct "Point"; Release 2] 0 2 Hon)
    as (p & x & H1 & H2 & H3 & _).
  exists p, x. split; [exact H1|]. split; [exact H2|exact H3].
Defined.



(** X17.  After any program over the registry, the life cycle of the
    class comment, [var p = T.create(); p.release();], runs without a
    throw.  The object is then on the free list of the Pool registered
    for [T], last in line to be handed out again, and not on its used
    list; its [destroyed] flag is true; the release constructs nothing
    and leaves [totalPooled] as the [create] left it. *)
Theorem create_then_release_returns_object_to_its_pool (ops : list op) (cls : string) :
  exists o r1 r2 ref p,
    Pooled_create cls (run ops Registry.empty) = (Ok o, r1) /\
    Pooled_release o r1 = (Ok tt, r2) /\
    Registry.pools r2 !! cls = Some ref /\
    Registry.heap r2 !! ref = Some p /\
    list.last (forwards (Pool.freeList p)) = Some o /\
    has_obj (Pool.freeList p) o = true /\
    has_obj (Pool.usedList p) o = false /\
    objects (Registry.env r2) !! o = Some (Pooled.mk cls true) /\
    length (objects (Registry.env r2)) = length (objects (Registry.env r1)) /\
    totalPooled (Registry.env r2) = totalPooled (Registry.env r1).
Proof.
  destruct (registry_acquire_typed _ cls (run_typed ops))
    as (o & r1 & ref & p1 & k & E & H1 & Hc & Hp & Hcls & Hhas & Hobj & _).
  destruct (typed_pools r1 H1 ref p1 Hp) as (lf & lu & Hwf & _).
  rewrite (has_obj_repr _ _ _ (wf_used _ _ _ _ Hwf)) in Hhas.
  apply bool_decide_eq_true_1 in Hhas.
  pose proof (repr_nodup _ _ (wf_used _ _ _ _ Hwf)) as Hnd.
  apply list_elem_of_split in Hhas as (lu1 & lu2 & ->).
  assert (Hou : o ∉ lu1 ++ lu2).
  { apply NoDup_app in Hnd as (_ & Hd & Hnd2). apply NoDup_cons in Hnd2 as [Ho2 _].
    intros Hin. apply elem_of_app in Hin as [Hin|Hin]; [|done].
    apply (Hd o Hin). left. }
  destruct (release_used _ _ _ _ _ _ Hwf) as (fl' & ul' & Hrel & _ & _ & Hwf').
  cbn zeta in *.
  pose proof (lookup_lt_Some _ _ _ Hp) as Hlt.
  exists o, r1. eexists. exists ref. eexists.
  split; [exact E|]. split.
  { unfold Pooled_release, Pooled_onRelease. unfold bind at 1, ret at 1.
    rewrite (release_delegates r1 o _ ref Hobj); [|exact Hc].
    exact (call_run _ _ _ _ _ _ Hp Hrel). }
  pose proof (wf_free _ _ _ _ Hwf') as Hf'. pose proof (wf_used _ _ _ _ Hwf') as Hu'.
  pcbn in Hf'. pcbn in Hu'.
  cbn [Registry.pools Registry.heap Registry.env Registry.set_env Registry.set_heap].
  split; [exact Hc|]. split; [by apply list_lookup_insert_eq|]. pcbn.
  split_and!.
  - rewrite (forwards_repr _ _ Hf'). apply last_snoc.
  - rewrite (has_obj_repr _ _ _ Hf'). apply bool_decide_eq_true_2. in_list.
  - rewrite (has_obj_repr _ _ _ Hu'). by apply bool_decide_eq_false_2.
  - etransitivity; [apply list_lookup_alter_eq|].
    exact (f_equal (fmap (Pooled.set_destroyed true)) Hobj).
  - by rewrite length_alter.
  - done.
Qed.

(** * One pool per class *)





